(** * lab0-c [queue.c]: a queue of strings on a circular doubly-linked list

    A shallow embedding of [queue.c] over an explicit C heap, and the
    properties of its operations.

    - Pointers are machine addresses ([Z], [NULL = 0]); the heap is a finite
      map from the address of an object to its contents.
    - Every C function is a computation in a state-and-error monad: it reads
      and writes the heap, and it either returns, or runs into undefined
      behaviour ([Fault]), or exhausts the fuel given to its loops
      ([Timeout]).
    - [malloc] takes its answers from a pool of candidate addresses that is
      part of the state, so that allocation failure is an input. *)

From Stdlib Require Import ZArith List Lia Strings.Byte Strings.String.
From stdpp Require Import base option list gmap sorting.

(* [set_solver] clears hypotheses by name, some of them twice. *)
Set Warnings "-clear-no-such-hyp".

Local Open Scope Z_scope.

#[export] Instance byte_eq_decision : EqDecision byte := Byte.byte_eq_dec.

(** ** Machine integers *)

Definition NULL : Z := 0.

Definition SIZE_MODULUS : Z := 2 ^ 64.
Definition INT_MAX : Z := 2 ^ 31 - 1.
Definition INT_MIN : Z := - 2 ^ 31.

(** Conversion to [size_t]: reduction modulo [2^64]. *)
Definition to_size_t (n : Z) : Z := n mod SIZE_MODULUS.

(** Conversion to [int]: the value is wrapped into [INT_MIN .. INT_MAX], which
    is what GCC and Clang define for a value that [int] cannot represent. *)
Definition to_int (n : Z) : Z := (n + 2 ^ 31) mod 2 ^ 32 - 2 ^ 31.

(** ** Objects and the heap *)

(** [struct list_head { struct list_head *next, *prev; }] *)
Record list_head := ListHead { next : Z; prev : Z }.

(** [typedef struct { char *value; struct list_head list; } element_t].
    The embedded link is called [link] here, [list] being taken. *)
Record element_t := Element { value : Z; link : list_head }.

(** What lives at an address: a bare [struct list_head] (the sentinel of a
    ring), an [element_t], or an array of [char].  An element is addressed by
    its embedded link, so that [list_entry] (a constant address offset in C)
    is the identity on addresses. *)
Inductive object :=
| ObjHead (l : list_head)
| ObjElem (e : element_t)
| ObjChars (b : list byte).

(** The heap, and the candidate addresses the allocator will offer to the
    coming calls of [malloc], in order. *)
Record state := State { mem : gmap Z object; pool : list Z }.

Definition obj_link (o : object) : option list_head :=
  match o with
  | ObjHead l => Some l
  | ObjElem e => Some (link e)
  | ObjChars _ => None
  end.

Definition obj_set_next (v : Z) (o : object) : object :=
  match o with
  | ObjHead l => ObjHead (ListHead v (prev l))
  | ObjElem e => ObjElem (Element (value e) (ListHead v (prev (link e))))
  | ObjChars b => ObjChars b
  end.

Definition obj_set_prev (v : Z) (o : object) : object :=
  match o with
  | ObjHead l => ObjHead (ListHead (next l) v)
  | ObjElem e => ObjElem (Element (value e) (ListHead (next (link e)) v))
  | ObjChars b => ObjChars b
  end.

Definition obj_set_value (v : Z) (o : object) : object :=
  match o with
  | ObjElem e => ObjElem (Element v (link e))
  | _ => o
  end.

(** Pure views of a heap: the [next] and [prev] fields of the link at an
    address, the [value] field of the element there, the characters of the
    array there. *)
Definition nxt (h : gmap Z object) (p : Z) : option Z :=
  next <$> (h !! p ≫= obj_link).

Definition prv (h : gmap Z object) (p : Z) : option Z :=
  prev <$> (h !! p ≫= obj_link).

Definition val (h : gmap Z object) (p : Z) : option Z :=
  match h !! p with Some (ObjElem e) => Some (value e) | _ => None end.

Definition chars (h : gmap Z object) (p : Z) : option (list byte) :=
  match h !! p with Some (ObjChars b) => Some b | _ => None end.

Definition set_next (h : gmap Z object) (p v : Z) : gmap Z object :=
  alter (obj_set_next v) p h.

Definition set_prev (h : gmap Z object) (p v : Z) : gmap Z object :=
  alter (obj_set_prev v) p h.

(** ** The monad of C computations *)

Inductive result (A : Type) : Type :=
| Ok (a : A)
| Fault
| Timeout.
Arguments Ok {A} a.
Arguments Fault {A}.
Arguments Timeout {A}.

Definition M (A : Type) : Type := state → result (A * state).

#[export] Instance M_ret : MRet M := λ A a s, Ok (a, s).

#[export] Instance M_bind : MBind M :=
  λ A B k m s, match m s with
               | Ok (a, s') => k a s'
               | Fault => Fault
               | Timeout => Timeout
               end.

Definition fault {A} : M A := λ _, Fault.
Definition timeout {A} : M A := λ _, Timeout.

(** *** Field access *)

Definition load_next (p : Z) : M Z :=
  λ s, match nxt (mem s) p with Some v => Ok (v, s) | None => Fault end.

Definition load_prev (p : Z) : M Z :=
  λ s, match prv (mem s) p with Some v => Ok (v, s) | None => Fault end.

Definition store_next (p v : Z) : M unit :=
  λ s, match nxt (mem s) p with
       | Some _ => Ok (tt, State (set_next (mem s) p v) (pool s))
       | None => Fault
       end.

Definition store_prev (p v : Z) : M unit :=
  λ s, match prv (mem s) p with
       | Some _ => Ok (tt, State (set_prev (mem s) p v) (pool s))
       | None => Fault
       end.

(** [list_entry(p, element_t, list)->value] *)
Definition load_value (p : Z) : M Z :=
  λ s, match val (mem s) p with Some v => Ok (v, s) | None => Fault end.

Definition store_value (p v : Z) : M unit :=
  λ s, match val (mem s) p with
       | Some _ => Ok (tt, State (alter (obj_set_value v) p (mem s)) (pool s))
       | None => Fault
       end.

(** *** Allocation *)

(** Contents of fresh memory are unspecified in C; they are represented by a
    recognisable junk pattern, on which no code may rely. *)
Definition junk_byte : byte := x55.
Definition junk_ptr : Z := 0x5555555555555555.

(** [malloc]: the allocator offers the next address of the pool; the call
    returns it, now holding [init], unless it is [NULL] or not free, and
    [NULL] otherwise, also when the pool is exhausted. *)
Definition malloc (init : object) : M Z :=
  λ s, match pool s with
       | [] => Ok (NULL, s)
       | p :: rest =>
           if bool_decide (p ≠ NULL ∧ mem s !! p = None)
           then Ok (p, State (<[p := init]> (mem s)) rest)
           else Ok (NULL, State (mem s) rest)
       end.

(** [malloc(sizeof(struct list_head))], [malloc(sizeof(element_t))] and
    [malloc(n)] for an array of [n] characters. *)
Definition malloc_list_head : M Z :=
  malloc (ObjHead (ListHead junk_ptr junk_ptr)).
Definition malloc_element : M Z :=
  malloc (ObjElem (Element junk_ptr (ListHead junk_ptr junk_ptr))).
Definition malloc_chars (n : Z) : M Z :=
  malloc (ObjChars (replicate (Z.to_nat n) junk_byte)).

(** [free]: a no-op on [NULL]; releasing what is not live is undefined. *)
Definition free (p : Z) : M unit :=
  λ s, if p =? NULL then Ok (tt, s)
       else match mem s !! p with
            | Some _ => Ok (tt, State (delete p (mem s)) (pool s))
            | None => Fault
            end.

(** *** Strings *)

(** Index of the first NUL of an array, if any. *)
Fixpoint nul_index (b : list byte) : option nat :=
  match b with
  | [] => None
  | c :: b' => if Byte.eqb c x00 then Some 0%nat else S <$> nul_index b'
  end.

(** The C string held by an array: the characters before the first NUL. *)
Fixpoint c_str (b : list byte) : list byte :=
  match b with
  | [] => []
  | c :: b' => if Byte.eqb c x00 then [] else c :: c_str b'
  end.

(** [strlen]: undefined when the array holds no terminator. *)
Definition strlen (p : Z) : M Z :=
  λ s, match chars (mem s) p ≫= nul_index with
       | Some n => Ok (Z.of_nat n, s)
       | None => Fault
       end.

Definition byte_val (c : byte) : Z := Z.of_N (Byte.to_N c).

(** [strcmp] on two arrays: the difference of the first two characters, read
    as [unsigned char], that differ; [None] when the comparison runs past
    the end of an array. *)
Fixpoint strcmp_chars (a b : list byte) : option Z :=
  match a, b with
  | x :: a', y :: b' =>
      if Byte.eqb x y
      then if Byte.eqb x x00 then Some 0 else strcmp_chars a' b'
      else Some (byte_val x - byte_val y)
  | _, _ => None
  end.

Definition strcmp (p q : Z) : M Z :=
  λ s, match chars (mem s) p, chars (mem s) q with
       | Some a, Some b =>
           match strcmp_chars a b with Some c => Ok (c, s) | None => Fault end
       | _, _ => Fault
       end.

(** [memcpy(dst, src, n)]: undefined unless both arrays hold [n] bytes. *)
Definition memcpy (dst src n : Z) : M unit :=
  λ s, match chars (mem s) dst, chars (mem s) src with
       | Some d, Some c =>
           if bool_decide (n ≤ Z.of_nat (length d) ∧ n ≤ Z.of_nat (length c))
           then Ok (tt, State (<[dst := ObjChars (take (Z.to_nat n) c ++
                                                  drop (Z.to_nat n) d)]> (mem s))
                              (pool s))
           else Fault
       | _, _ => Fault
       end.

(** [p[i] = c] *)
Definition store_char (p i : Z) (c : byte) : M unit :=
  λ s, match chars (mem s) p with
       | Some b =>
           if bool_decide (0 ≤ i < Z.of_nat (length b))
           then Ok (tt, State (<[p := ObjChars (<[Z.to_nat i := c]> b)]> (mem s))
                              (pool s))
           else Fault
       | None => Fault
       end.

(** [a + b] in type [int]: signed overflow is undefined. *)
Definition int_add (a b : Z) : M Z :=
  if bool_decide (INT_MIN ≤ a + b ≤ INT_MAX) then mret (a + b) else fault.

(** ** The list primitives of [list.h] *)

(** Modelled from the spec: [INIT_LIST_HEAD] of [list.h], the
    initialize-empty-ring primitive: the node becomes its own successor and
    predecessor. *)
Definition INIT_LIST_HEAD (head : Z) : M unit :=
  store_next head head;;
  store_prev head head.

(** Modelled from the spec: [list_add] of [list.h], the link-as-first
    primitive: [node] is linked right after [head]. *)
Definition list_add (node head : Z) : M unit :=
  next ← load_next head;
  store_prev next node;;
  store_next node next;;
  store_prev node head;;
  store_next head node.

(** Modelled from the spec: [list_add_tail] of [list.h], the link-as-last
    primitive: [node] is linked right before [head]. *)
Definition list_add_tail (node head : Z) : M unit :=
  prev ← load_prev head;
  store_next prev node;;
  store_next node head;;
  store_prev node prev;;
  store_prev head node.

(** Modelled from the spec: [list_del] of [list.h], the unlink-node
    primitive: the neighbours of [node] are linked to each other; the fields
    of [node] itself are left as they are. *)
Definition list_del (node : Z) : M unit :=
  next ← load_next node;
  prev ← load_prev node;
  store_prev next prev;;
  store_next prev next.

(** Modelled from the spec: [list_empty] of [list.h], the test-ring-empty
    primitive. *)
Definition list_empty (head : Z) : M bool :=
  next ← load_next head;
  mret (next =? head).

(** Modelled from the spec: [list_move] of [list.h], the
    relocate-node-to-another-ring primitive: unlink [node], then link it
    right after [head]. *)
Definition list_move (node head : Z) : M unit :=
  list_del node;;
  list_add node head.

(** ** [queue.c] *)

Definition q_new : M Z :=
  head ← malloc_list_head;
  if head =? NULL then mret NULL else
  INIT_LIST_HEAD head;;
  mret head.

Definition q_release_element (e : Z) : M unit :=
  v ← load_value e;
  free v;;
  free e.

(** The loop of [q_free], [list_for_each_safe (pos, tmp, l)]: the successor
    of [pos] is read before the body unlinks and releases [pos]. *)
Fixpoint q_free_loop (fuel : nat) (l pos tmp : Z) : M unit :=
  match fuel with
  | O => timeout
  | S fuel =>
      if pos =? l then mret tt else
      list_del pos;;
      q_release_element pos;;
      tmp' ← load_next tmp;
      q_free_loop fuel l tmp tmp'
  end.

Definition q_free (fuel : nat) (l : Z) : M unit :=
  if l =? NULL then mret tt else
  pos ← load_next l;
  tmp ← load_next pos;
  q_free_loop fuel l pos tmp;;
  free l.

Definition q_insert_head (head s : Z) : M bool :=
  if (head =? NULL) || (s =? NULL) then mret false else
  e ← malloc_element;
  if e =? NULL then mret false else
  len ← strlen s;
  let str_len := to_int len in
  size ← int_add str_len 1;
  v ← malloc_chars (to_size_t size);
  store_value e v;;
  if v =? NULL then free e;; mret false else
  memcpy v s (to_size_t str_len);;
  store_char v str_len x00;;
  list_add e head;;
  mret true.

Definition q_insert_tail (head s : Z) : M bool :=
  if (head =? NULL) || (s =? NULL) then mret false else
  e ← malloc_element;
  if e =? NULL then mret false else
  len ← strlen s;
  let str_len := to_int len in
  size ← int_add str_len 1;
  v ← malloc_chars (to_size_t size);
  store_value e v;;
  if v =? NULL then free e;; mret false else
  memcpy v s (to_size_t str_len);;
  store_char v str_len x00;;
  list_add_tail e head;;
  mret true.

(** The copy of the removed string into [sp], shared by both removals. *)
Definition copy_removed (e sp bufsize : Z) : M unit :=
  if sp =? NULL then mret tt else
  v ← load_value e;
  memcpy sp v (to_size_t (bufsize - 1));;
  store_char sp (to_size_t (bufsize - 1)) x00.

Definition q_remove_head (head sp bufsize : Z) : M Z :=
  if head =? NULL then mret NULL else
  empty ← list_empty head;
  if empty : bool then mret NULL else
  e ← load_next head;
  list_del e;;
  copy_removed e sp bufsize;;
  mret e.

Definition q_remove_tail (head sp bufsize : Z) : M Z :=
  if head =? NULL then mret NULL else
  empty ← list_empty head;
  if empty : bool then mret NULL else
  e ← load_prev head;
  list_del e;;
  copy_removed e sp bufsize;;
  mret e.

Fixpoint q_size_loop (fuel : nat) (head pos size : Z) : M Z :=
  match fuel with
  | O => timeout
  | S fuel =>
      if pos =? head then mret size else
      size' ← int_add size 1;
      pos' ← load_next pos;
      q_size_loop fuel head pos' size'
  end.

Definition q_size (fuel : nat) (head : Z) : M Z :=
  if head =? NULL then mret 0 else
  empty ← list_empty head;
  if empty : bool then mret 0 else
  pos ← load_next head;
  q_size_loop fuel head pos 0.

(** The loop of [q_delete_mid]; its result is the final [slow]. *)
Fixpoint q_delete_mid_loop (fuel : nat) (head slow fast : Z) : M Z :=
  match fuel with
  | O => timeout
  | S fuel =>
      if fast =? head then mret slow else
      fast_next ← load_next fast;
      if fast_next =? head then mret slow else
      fast' ← load_next fast_next;
      slow' ← load_next slow;
      q_delete_mid_loop fuel head slow' fast'
  end.

Definition q_delete_mid (fuel : nat) (head : Z) : M bool :=
  if head =? NULL then mret false else
  empty ← list_empty head;
  if empty : bool then mret false else
  slow ← load_next head;
  fast ← load_next slow;
  mid ← q_delete_mid_loop fuel head slow fast;
  list_del mid;;
  q_release_element mid;;
  mret true.

(** The loop of [q_delete_dup], [list_for_each_safe (pos, next, head)] with
    its [break]. *)
Fixpoint q_delete_dup_loop (fuel : nat) (head gc : Z) (should_delete : bool)
    (pos next : Z) : M unit :=
  match fuel with
  | O => timeout
  | S fuel =>
      if pos =? head then mret tt else
      if next =? head then mret tt else
      e ← load_value pos;
      n ← load_value next;
      c ← strcmp e n;
      should_delete' ←
        (if c =? 0 then list_move pos gc;; mret true
         else if should_delete then list_move pos gc;; mret false
         else mret should_delete);
      next' ← load_next next;
      q_delete_dup_loop fuel head gc should_delete' next next'
  end.

Definition q_delete_dup (fuel : nat) (head : Z) : M bool :=
  if head =? NULL then mret false else
  empty ← list_empty head;
  if empty : bool then mret true else
  gc ← q_new;
  if gc =? NULL then mret false else
  pos ← load_next head;
  next ← load_next pos;
  q_delete_dup_loop fuel head gc false pos next;;
  q_free fuel gc;;
  mret true.

(** The loop of [q_swap].  [indirect] always points at the [next] field of
    a node: it is represented by the address [owner] of that node. *)
Fixpoint q_swap_loop (fuel : nat) (head owner : Z) : M unit :=
  match fuel with
  | O => timeout
  | S fuel =>
      cur ← load_next owner;
      if cur =? head then mret tt else
      cur_next ← load_next cur;
      if cur_next =? head then mret tt else
      list_move cur cur_next;;
      cur' ← load_next owner;
      owner' ← load_next cur';
      q_swap_loop fuel head owner'
  end.

Definition q_swap (fuel : nat) (head : Z) : M unit :=
  if head =? NULL then mret tt else
  empty ← list_empty head;
  if empty : bool then mret tt else
  q_swap_loop fuel head head.

Fixpoint q_reverse_loop (fuel : nat) (head pos : Z) : M unit :=
  match fuel with
  | O => timeout
  | S fuel =>
      if pos =? head then mret tt else
      tmp ← load_prev pos;
      pos_next ← load_next pos;
      store_prev pos pos_next;;
      store_next pos tmp;;
      pos' ← load_prev pos;
      q_reverse_loop fuel head pos'
  end.

Definition q_reverse (fuel : nat) (head : Z) : M unit :=
  if head =? NULL then mret tt else
  empty ← list_empty head;
  if empty : bool then mret tt else
  pos ← load_next head;
  q_reverse_loop fuel head pos;;
  last ← load_next head;
  head_prev ← load_prev head;
  store_next head head_prev;;
  store_prev head last.

(** The places [ptr] of [merge] can point at: the local variable [head], or
    the [next] field of a node. *)
Inductive merge_ptr :=
| PtrHead
| PtrNext (node : Z).

(** [*ptr = v]; the result is the local variable [head] after the store. *)
Definition merge_store (ptr : merge_ptr) (head v : Z) : M Z :=
  match ptr with
  | PtrHead => mret v
  | PtrNext node => store_next node v;; mret head
  end.

(** The loop of [merge].  [cur] is [&L1] or [&L2]: whether it is [&L1] is
    the boolean [cur_is_L1].  After [*ptr = *cur], the new
    [ptr] is the address of the [next] field of the node [*cur]. *)
Fixpoint merge_loop (fuel : nat) (head : Z) (ptr : merge_ptr) (L1 L2 : Z)
    : M (Z * merge_ptr * Z * Z) :=
  match fuel with
  | O => timeout
  | S fuel =>
      if (L1 =? NULL) || (L2 =? NULL) then mret (head, ptr, L1, L2) else
      l ← load_value L1;
      r ← load_value L2;
      c ← strcmp l r;
      let cur_is_L1 := c <=? 0 in
      let cur := if cur_is_L1 then L1 else L2 in
      head' ← merge_store ptr head cur;
      cur_next ← load_next cur;
      if cur_is_L1
      then merge_loop fuel head' (PtrNext cur) cur_next L2
      else merge_loop fuel head' (PtrNext cur) L1 cur_next
  end.

Definition merge (fuel : nat) (L1 L2 : Z) : M Z :=
  '(head, ptr, L1', L2') ← merge_loop fuel NULL PtrHead L1 L2;
  merge_store ptr head (Z.lor L1' L2').

(** The loop of [merge_sort]; its result is the final [slow]. *)
Fixpoint merge_sort_loop (fuel : nat) (slow fast : Z) : M Z :=
  match fuel with
  | O => timeout
  | S fuel =>
      if fast =? NULL then mret slow else
      fast_next ← load_next fast;
      if fast_next =? NULL then mret slow else
      fast' ← load_next fast_next;
      slow' ← load_next slow;
      merge_sort_loop fuel slow' fast'
  end.

(** [merge_sort]: the fuel bounds the depth of the recursion as well as the
    loops.  The two recursive calls are the arguments of one call in C, in
    unspecified order; they work on chains that were cut apart, and the left
    one is run first here. *)
Fixpoint merge_sort (fuel : nat) (head : Z) : M Z :=
  match fuel with
  | O => timeout
  | S fuel =>
      head_next ← load_next head;
      if head_next =? NULL then mret head else
      slow ← merge_sort_loop fuel head head_next;
      mid ← load_next slow;
      store_next slow NULL;;
      left ← merge_sort fuel head;
      right ← merge_sort fuel mid;
      merge fuel left right
  end.

(** The loop of [q_sort] that rebuilds the [prev] fields; its result is the
    final [ptr], the last node of the chain. *)
Fixpoint q_sort_loop (fuel : nat) (ptr : Z) : M Z :=
  match fuel with
  | O => timeout
  | S fuel =>
      ptr_next ← load_next ptr;
      if ptr_next =? NULL then mret ptr else
      store_prev ptr_next ptr;;
      q_sort_loop fuel ptr_next
  end.

Definition q_sort (fuel : nat) (head : Z) : M unit :=
  if head =? NULL then mret tt else
  empty ← list_empty head;
  if empty : bool then mret tt else
  last ← load_prev head;
  store_next last NULL;;
  first ← load_next head;
  sorted ← merge_sort fuel first;
  store_next head sorted;;
  ptr ← q_sort_loop fuel head;
  store_next ptr head;;
  store_prev head ptr.

(** * The vocabulary of the specification *)

(** ** What an operation leaves alone *)

(** An object without its link fields: what remains is its kind, the [value]
    pointer of an element and the characters of an array. *)
Definition erase_link (o : object) : object :=
  match o with
  | ObjHead _ => ObjHead (ListHead NULL NULL)
  | ObjElem e => ObjElem (Element (value e) (ListHead NULL NULL))
  | ObjChars b => ObjChars b
  end.

(** The payload of a heap: every live object without its link fields.  Two
    heaps of equal payload hold the same objects at the same addresses, with
    the same strings: they differ by pointer relinking only. *)
Definition payload (h : gmap Z object) : gmap Z object := erase_link <$> h.

(** ** Lists in the heap *)

(** [path f p l q]: starting at [p] and following the field [f], one visits
    exactly the nodes [l], in order, and arrives at [q]. *)
Fixpoint path (f : Z → option Z) (p : Z) (l : list Z) (q : Z) : Prop :=
  match l with
  | [] => p = q
  | x :: l' => p = x ∧ ∃ n, f x = Some n ∧ path f n l' q
  end.

(** A [NULL]-terminated chain along [next], as [merge_sort] sees it. *)
Definition chain (h : gmap Z object) (p : Z) (l : list Z) : Prop :=
  path (nxt h) p l NULL.

(** [linked h L]: each node of [L] has the one after it as its successor and
    is the predecessor of that one. *)
Fixpoint linked (h : gmap Z object) (L : list Z) : Prop :=
  match L with
  | x :: (y :: _) as L' => nxt h x = Some y ∧ prv h y = Some x ∧ linked h L'
  | _ => True
  end.

(** The circular doubly-linked invariant: the sentinel [head] and the nodes
    [l] are distinct live objects, linked in both directions into one ring
    that the sentinel closes at both ends. *)
Definition ring (h : gmap Z object) (head : Z) (l : list Z) : Prop :=
  h !! NULL = None ∧ NoDup (head :: l) ∧ linked h (head :: l ++ [head]).

(** ** The strings of a queue *)

(** The string stored by the element at [a]: defined when [a] is an element
    whose [value] points to a terminated array. *)
Definition str_at (h : gmap Z object) (a : Z) : option (list byte) :=
  v ← val h a; b ← chars h v; _ ← nul_index b; Some (c_str b).

Definition key (h : gmap Z object) (a : Z) : list byte :=
  default [] (str_at h a).

(** A queue: a ring whose nodes are elements holding strings. *)
Definition queue (h : gmap Z object) (head : Z) (l : list Z) : Prop :=
  ring h head l ∧ Forall (λ a, is_Some (str_at h a)) l.

(** Ascending lexicographic order on strings, characters compared as
    [unsigned char]. *)
Fixpoint lex_leb (a b : list byte) : bool :=
  match a, b with
  | [], _ => true
  | _ :: _, [] => false
  | x :: a', y :: b' =>
      (byte_val x <? byte_val y) || ((byte_val x =? byte_val y) && lex_leb a' b')
  end.

(** The order on nodes that a string-valued key [k] induces, and what it
    means for [l'] to keep the order [l] gives to nodes of equal key. *)
Definition le_by (k : Z → list byte) (a b : Z) : Prop :=
  lex_leb (k a) (k b) = true.

#[export] Instance le_by_dec k a b : Decision (le_by k a b).
Proof. unfold le_by. apply _. Defined.

Definition same_order_by (k : Z → list byte) (l l' : list Z) : Prop :=
  ∀ v, filter (λ a, k a = v) l' = filter (λ a, k a = v) l.

(** Every node of [l] holds the string [k] gives it. *)
Definition keys_at (k : Z → list byte) (h : gmap Z object) (l : list Z) : Prop :=
  ∀ a, a ∈ l → str_at h a = Some (k a).

(** The order of [q_sort] on nodes: by the strings they hold. *)
Definition str_le (h : gmap Z object) : relation Z := le_by (key h).

(** [l'] holds the nodes of [l] and, for every string, the nodes holding it
    come in the same order in both. *)
Definition stable_perm (h : gmap Z object) (l l' : list Z) : Prop :=
  l ≡ₚ l' ∧ same_order_by (key h) l l'.

#[export] Instance linked_dec h L : Decision (linked h L).
Proof. induction L as [|x [|y L] IH]; simpl; apply _. Defined.

#[export] Instance ring_dec h head l : Decision (ring h head l).
Proof. unfold ring. apply _. Defined.

#[export] Instance queue_dec h head l : Decision (queue h head l).
Proof. unfold queue. apply _. Defined.

(** ** Observing a queue *)

(** The nodes met from [p] along [next] before [stop]. *)
Fixpoint walk (fuel : nat) (h : gmap Z object) (stop p : Z) : option (list Z) :=
  match fuel with
  | O => None
  | S fuel =>
      if p =? stop then Some []
      else n ← nxt h p; (p ::.) <$> walk fuel h stop n
  end.

Definition q_nodes (fuel : nat) (h : gmap Z object) (head : Z) : option (list Z) :=
  nxt h head ≫= walk fuel h head.

Definition q_strings (fuel : nat) (h : gmap Z object) (head : Z)
    : option (list (list byte)) :=
  l ← q_nodes fuel h head; mapM (str_at h) l.

(** ** Pure counterparts of the transformations *)

Fixpoint swap_pairs {A} (l : list A) : list A :=
  match l with
  | x :: y :: l' => y :: x :: swap_pairs l'
  | _ => l
  end.

(** What the walk of [q_delete_dup] keeps of the nodes [l], for the strings
    [k] and the flag [should_delete] it starts with: a node goes when it
    equals the next one, or when the flag is set; the last node is never
    looked at. *)
Fixpoint dedup_walk (k : Z → list byte) (should_delete : bool) (l : list Z)
    : list Z :=
  match l with
  | [] => []
  | x :: t =>
      match t with
      | [] => [x]
      | y :: _ =>
          if decide (k x = k y) then dedup_walk k true t
          else if should_delete then dedup_walk k false t
          else x :: dedup_walk k false t
      end
  end.

(** The nodes the walk moves to the scratch ring, in the order of the
    queue. *)
Fixpoint dedup_gone (k : Z → list byte) (should_delete : bool) (l : list Z)
    : list Z :=
  match l with
  | [] => []
  | x :: t =>
      match t with
      | [] => []
      | y :: _ =>
          if decide (k x = k y) then x :: dedup_gone k true t
          else if should_delete then x :: dedup_gone k false t
          else dedup_gone k false t
      end
  end.

(** The walk ends on a duplicate: the last node of [l] holds the string of
    the node before it (for a single node: the flag is set). *)
Fixpoint ends_dup (k : Z → list byte) (should_delete : bool) (l : list Z)
    : bool :=
  match l with
  | [] => false
  | x :: t =>
      match t with
      | [] => should_delete
      | y :: _ => ends_dup k (bool_decide (k x = k y)) t
      end
  end.

(** What the contract of [q_delete_dup] asks for, in its own words: only the
    nodes whose string occurs once among the strings of the queue remain, in
    their order. *)
Definition occurrences (k : Z → list byte) (l : list Z) (v : list byte) : nat :=
  length (filter (λ b, k b = v) l).

Definition occurs_once (k : Z → list byte) (l : list Z) : list Z :=
  filter (λ a, occurrences k l (k a) = 1%nat) l.

(** The elements [l] own their strings: their [value] pointers are
    distinct arrays. *)
Definition value_of (h : gmap Z object) (a : Z) : Z := default NULL (val h a).

Definition owns (h : gmap Z object) (l : list Z) : Prop :=
  Forall (λ a, is_Some (val h a) ∧ is_Some (chars h (value_of h a))) l ∧
  NoDup (value_of h <$> l).

#[export] Instance owns_dec h l : Decision (owns h l).
Proof. unfold owns. apply _. Defined.

(** ** What an operation on the ring can reach *)

(** [S] is closed under the links of [h]: the successor and the predecessor
    of a node of [S] are in [S]. *)
Definition closed_links (S : list Z) (h : gmap Z object) : Prop :=
  ∀ z w, z ∈ S → nxt h z = Some w ∨ prv h z = Some w → w ∈ S.

(** The step from [s] to [s'] is confined to [S]: it leaves the allocator
    and every object outside [S] as they are. *)
Definition confined (S : list Z) (s s' : state) : Prop :=
  pool s' = pool s ∧ ∀ z, z ∉ S → mem s' !! z = mem s !! z.

(** The suffix at which the slow pointer stops when the fast pointer walks
    [lf] two nodes at a time and the slow one walks [ls]. *)
Fixpoint tortoise {A} (ls lf : list A) : list A :=
  match lf with
  | _ :: _ :: lf' => tortoise (tail ls) lf'
  | _ => ls
  end.

(** ** The merge step *)

(** The loop of [merge] followed by an attachment [att] of the leftover. *)
Definition merge_with (att : Z → Z → Z) (fuel : nat) (head : Z)
    (ptr : merge_ptr) (L1 L2 : Z) : M Z :=
  '(head, ptr, L1', L2') ← merge_loop fuel head ptr L1 L2;
  merge_store ptr head (att L1' L2').

(** [merge] with the leftover chain attached by an explicit branch:
    whichever of the two remaining chains is non-empty. *)
Definition merge_branch (fuel : nat) (L1 L2 : Z) : M Z :=
  merge_with (λ L1' L2', if L1' =? NULL then L2' else L1') fuel NULL PtrHead L1 L2.

(** Where [ptr] points: the local [head], or a live node outside [l]. *)
Definition ptr_outside (h : gmap Z object) (ptr : merge_ptr) (l : list Z) : Prop :=
  match ptr with
  | PtrHead => True
  | PtrNext a => (a ∉ l) ∧ is_Some (nxt h a)
  end.

(** What [ptr] points at holds [v]. *)
Definition ptr_holds (h : gmap Z object) (head : Z) (ptr : merge_ptr) (v : Z)
    : Prop :=
  match ptr with
  | PtrHead => head = v
  | PtrNext a => nxt h a = Some v
  end.

(** ** The allocator *)

(** The next [malloc] fails: the pool is exhausted, or the address it offers
    is [NULL] or not free. *)
Definition alloc_fails (h : gmap Z object) (pl : list Z) : Prop :=
  match pl with
  | [] => True
  | p :: _ => p = NULL ∨ is_Some (h !! p)
  end.

(** The next [malloc] succeeds and returns [p]. *)
Definition alloc_gives (h : gmap Z object) (pl : list Z) (p : Z) : Prop :=
  head pl = Some p ∧ p ≠ NULL ∧ h !! p = None.

(** ** The insertions *)

(** The body that [q_insert_head] and [q_insert_tail] share, once the queue
    handle and the string are known to be present: the allocation of the
    element and of its string, and the copy.  The splice [splice] of the new
    element is what differs. *)
Definition insert_with (splice : Z → M unit) (s : Z) : M bool :=
  e ← malloc_element;
  if e =? NULL then mret false else
  len ← strlen s;
  let str_len := to_int len in
  size ← int_add str_len 1;
  v ← malloc_chars (to_size_t size);
  store_value e v;;
  if v =? NULL then free e;; mret false else
  memcpy v s (to_size_t str_len);;
  store_char v str_len x00;;
  splice e;;
  mret true.

(** A fresh element: its fields hold junk. *)
Definition junk_element : object :=
  ObjElem (Element junk_ptr (ListHead junk_ptr junk_ptr)).

(** The heap [h] with a new element at [e], not yet linked, that owns a
    new array at [v] holding [cs]. *)
Definition with_element (h : gmap Z object) (e v : Z) (cs : list byte)
    : gmap Z object :=
  <[v := ObjChars cs]>
    (<[e := ObjElem (Element v (ListHead junk_ptr junk_ptr))]> h).

(** The outcome of an insertion of a string shorter than [INT_MAX], for an
    insertion function [ins] that splices the new element [e] into the queue
    [l] as [place l e]. *)
Definition insert_outcome (ins : Z → Z → M bool) (place : list Z → Z → list Z)
    (h : gmap Z object) (pl : list Z) (head s : Z) (l : list Z)
    (b : list byte) : Prop :=
  ins NULL s (State h pl) = Ok (false, State h pl) ∧
  ins head NULL (State h pl) = Ok (false, State h pl) ∧
  (alloc_fails h pl →
   ins head s (State h pl) = Ok (false, State h (tail pl))) ∧
  (∀ e, alloc_gives h pl e →
        alloc_fails (<[e := junk_element]> h) (tail pl) →
        ins head s (State h pl) = Ok (false, State h (tail (tail pl)))) ∧
  (∀ e v, alloc_gives h pl e →
          alloc_gives (<[e := junk_element]> h) (tail pl) v →
          ∃ h', ins head s (State h pl) = Ok (true, State h' (tail (tail pl))) ∧
                ring h' head (place l e) ∧
                str_at h' e = Some (c_str b) ∧
                val h' e = Some v ∧
                chars h' v = Some (c_str b ++ [x00]) ∧
                payload h'
                = <[v := ObjChars (c_str b ++ [x00])]>
                    (<[e := ObjElem (Element v (ListHead NULL NULL))]>
                       (payload h))).

(** ** Sample queues *)

(** A string literal, as the array of its characters and a terminator. *)
Definition lit (s : string) : object :=
  ObjChars (list_byte_of_string s ++ [x00]).

(** A state that holds the strings ["a"] to ["f"] at the addresses [1000] to
    [1005], and whose allocator has a supply of free addresses. *)
Definition sample_init : state :=
  State (list_to_map [(1000, lit "a"); (1001, lit "b"); (1002, lit "c");
                      (1003, lit "d"); (1004, lit "e"); (1005, lit "f")])
        [16; 32; 33; 48; 49; 64; 65; 80; 81; 96; 97; 112; 113; 128; 129].

(** [q_new], then [q_insert_tail] of each of the strings at [strs]. *)
Definition q_build (strs : list Z) : M Z :=
  head ← q_new;
  foldr (λ s k, q_insert_tail head s;; k) (mret head) strs.

(** The state a computation ends in ([s] itself if it does not return). *)
Definition final {A} (m : M A) (s : state) : state :=
  match m s with Ok (_, s') => s' | _ => s end.

(** The queue at [16] built from the given strings of [sample_init]. *)
Definition sample (strs : list Z) : state := final (q_build strs) sample_init.

(** A string of [2^32] characters, the least length that the conversion to
    [int] maps to a wrong non-negative value. *)
Definition huge : nat := Z.to_nat (2 ^ 32).
Definition huge_string : list byte := replicate huge "a"%byte ++ [x00].

(** * Properties *)

(** ** The views of a heap under the field updates *)

Section views.
Implicit Types (h : gmap Z object) (p q v : Z).

Lemma nxt_set_next h p q v :
  nxt (set_next h p v) q = if decide (p = q) then (λ _, v) <$> nxt h p else nxt h q.
Proof.
  unfold nxt, set_next. rewrite lookup_alter.
  case_decide; [|done]. by destruct (h !! p) as [[]|].
Qed.

Lemma nxt_set_next_eq h p v :
  is_Some (nxt h p) → nxt (set_next h p v) p = Some v.
Proof. intros [w Hw]. rewrite nxt_set_next, decide_True, Hw; done. Qed.

Lemma nxt_set_next_ne h p q v : p ≠ q → nxt (set_next h p v) q = nxt h q.
Proof. intros. by rewrite nxt_set_next, decide_False. Qed.

Lemma prv_set_next h p q v : prv (set_next h p v) q = prv h q.
Proof.
  unfold prv, set_next. rewrite lookup_alter.
  case_decide as Hpq; [|done]. subst. by destruct (h !! q) as [[]|].
Qed.

Lemma prv_set_prev h p q v :
  prv (set_prev h p v) q = if decide (p = q) then (λ _, v) <$> prv h p else prv h q.
Proof.
  unfold prv, set_prev. rewrite lookup_alter.
  case_decide; [|done]. by destruct (h !! p) as [[]|].
Qed.

Lemma prv_set_prev_eq h p v :
  is_Some (prv h p) → prv (set_prev h p v) p = Some v.
Proof. intros [w Hw]. rewrite prv_set_prev, decide_True, Hw; done. Qed.

Lemma prv_set_prev_ne h p q v : p ≠ q → prv (set_prev h p v) q = prv h q.
Proof. intros. by rewrite prv_set_prev, decide_False. Qed.

Lemma nxt_set_prev h p q v : nxt (set_prev h p v) q = nxt h q.
Proof.
  unfold nxt, set_prev. rewrite lookup_alter.
  case_decide as Hpq; [|done]. subst. by destruct (h !! q) as [[]|].
Qed.

Lemma nxt_is_Some_prv h p : is_Some (nxt h p) ↔ is_Some (prv h p).
Proof. unfold nxt, prv. rewrite !fmap_is_Some. done. Qed.

Lemma payload_set_next h p v : payload (set_next h p v) = payload h.
Proof.
  unfold payload, set_next. apply map_eq; intros i.
  rewrite !lookup_fmap, lookup_alter.
  case_decide; [subst|done]. by destruct (h !! i) as [[]|].
Qed.

Lemma payload_set_prev h p v : payload (set_prev h p v) = payload h.
Proof.
  unfold payload, set_prev. apply map_eq; intros i.
  rewrite !lookup_fmap, lookup_alter.
  case_decide; [subst|done]. by destruct (h !! i) as [[]|].
Qed.

Lemma payload_lookup h h' p :
  payload h = payload h' → erase_link <$> h !! p = erase_link <$> h' !! p.
Proof. unfold payload. intros E. by rewrite <- !lookup_fmap, E. Qed.

Lemma payload_val h h' p : payload h = payload h' → val h p = val h' p.
Proof.
  intros E. apply (payload_lookup _ _ p) in E. unfold val.
  destruct (h !! p) as [[]|], (h' !! p) as [[]|]; simplify_eq/=; congruence.
Qed.

Lemma payload_chars h h' p : payload h = payload h' → chars h p = chars h' p.
Proof.
  intros E. apply (payload_lookup _ _ p) in E. unfold chars.
  destruct (h !! p) as [[]|], (h' !! p) as [[]|]; simplify_eq/=; done.
Qed.

Lemma payload_str_at h h' a : payload h = payload h' → str_at h a = str_at h' a.
Proof.
  intros E. unfold str_at. rewrite (payload_val _ _ a E).
  destruct (val h' a) as [v|]; [simpl|done]. by rewrite (payload_chars _ _ v E).
Qed.

Lemma payload_key h h' a : payload h = payload h' → key h a = key h' a.
Proof. intros E. unfold key. by rewrite (payload_str_at _ _ a E). Qed.

Lemma payload_is_link h h' p :
  payload h = payload h' → is_Some (nxt h p) → is_Some (nxt h' p).
Proof.
  intros E. apply (payload_lookup _ _ p) in E. unfold nxt.
  rewrite !fmap_is_Some.
  destruct (h !! p) as [[]|], (h' !! p) as [[]|]; simplify_eq/=;
    intros [? ?]; eauto; done.
Qed.

Lemma payload_null h h' :
  payload h = payload h' → h !! NULL = None → h' !! NULL = None.
Proof.
  intros E. apply (payload_lookup _ _ NULL) in E. intros Hn.
  rewrite Hn in E. by destruct (h' !! NULL).
Qed.

Lemma payload_dom h h' : payload h = payload h' → dom h = dom h'.
Proof.
  intros E. apply set_eq; intros p. rewrite !elem_of_dom.
  apply (payload_lookup _ _ p) in E.
  destruct (h !! p), (h' !! p); simplify_eq/=; split; intros [? ?]; eauto; done.
Qed.

Lemma nxt_Some_live h p v : nxt h p = Some v → is_Some (h !! p).
Proof. unfold nxt. destruct (h !! p); [eauto|done]. Qed.

Lemma nxt_not_null h p v : h !! NULL = None → nxt h p = Some v → p ≠ NULL.
Proof. intros Hn Hp ->. apply nxt_Some_live in Hp. rewrite Hn in Hp. by destruct Hp. Qed.
End views.

(** ** Running the primitives *)

Section run.
Implicit Types (h : gmap Z object) (pl : list Z) (p q v : Z).

Lemma run_bind {A B} (m : M A) (k : A → M B) s a s' :
  m s = Ok (a, s') → (m ≫= k) s = k a s'.
Proof. intros E. unfold mbind, M_bind. by rewrite E. Qed.

Lemma run_assoc {A B C} (m : M A) (k1 : A → M B) (k2 : B → M C) s :
  ((m ≫= k1) ≫= k2) s = (m ≫= λ a, k1 a ≫= k2) s.
Proof. unfold mbind, M_bind. by destruct (m s) as [[a s']| |]. Qed.

Lemma run_load_next h pl p v :
  nxt h p = Some v → load_next p (State h pl) = Ok (v, State h pl).
Proof. intros E. unfold load_next. simpl. by rewrite E. Qed.

Lemma run_load_prev h pl p v :
  prv h p = Some v → load_prev p (State h pl) = Ok (v, State h pl).
Proof. intros E. unfold load_prev. simpl. by rewrite E. Qed.

Lemma run_store_next h pl p v :
  is_Some (nxt h p) →
  store_next p v (State h pl) = Ok (tt, State (set_next h p v) pl).
Proof. intros [w E]. unfold store_next. simpl. by rewrite E. Qed.

Lemma run_store_prev h pl p v :
  is_Some (prv h p) →
  store_prev p v (State h pl) = Ok (tt, State (set_prev h p v) pl).
Proof. intros [w E]. unfold store_prev. simpl. by rewrite E. Qed.

Lemma run_load_value h pl p v :
  val h p = Some v → load_value p (State h pl) = Ok (v, State h pl).
Proof. intros E. unfold load_value. simpl. by rewrite E. Qed.

Lemma run_list_empty h pl head v :
  nxt h head = Some v →
  list_empty head (State h pl) = Ok (v =? head, State h pl).
Proof.
  intros E. unfold list_empty.
  by rewrite (run_bind _ _ _ _ _ (run_load_next _ _ _ _ E)).
Qed.
End run.

(** ** Paths and linked lists *)

Section paths.
Implicit Types (f g : Z → option Z) (l : list Z) (p q : Z).

Lemma path_ext f g l p q :
  (∀ x, x ∈ l → f x = g x) → path f p l q → path g p l q.
Proof.
  revert p. induction l as [|x l IH]; intros p Hfg; simpl; [done|].
  intros [-> (n & Hn & Hp)]. split; [done|]. exists n. split.
  - rewrite <- Hfg; [done|]. apply list_elem_of_here.
  - apply IH; [|done]. intros y Hy. apply Hfg. by apply list_elem_of_further.
Qed.

Lemma path_app f l1 l2 p q :
  path f p (l1 ++ l2) q ↔ ∃ m, path f p l1 m ∧ path f m l2 q.
Proof.
  revert p. induction l1 as [|x l1 IH]; intros p; simpl.
  - split; [eauto|]. by intros (m & -> & ?).
  - split.
    + intros [-> (n & Hn & Hp)]. apply IH in Hp as (m & ? & ?). eauto 10.
    + intros (m & [-> (n & Hn & Hp)] & Hq). split; [done|].
      exists n. split; [done|]. apply IH. eauto.
Qed.

Lemma path_snoc f l x p q :
  path f p (l ++ [x]) q ↔ path f p l x ∧ f x = Some q.
Proof.
  rewrite path_app. simpl. split.
  - intros (m & ? & -> & n & ? & ->). done.
  - intros [? ?]. exists x. eauto 10.
Qed.

Lemma path_live f l p q x : path f p l q → x ∈ l → is_Some (f x).
Proof.
  revert p. induction l as [|y l IH]; intros p; simpl.
  - intros _ Hx. by apply elem_of_nil in Hx.
  - intros [-> (n & Hn & Hp)] [->|Hx]%elem_of_cons; eauto.
Qed.
End paths.

Section linked.
Implicit Types (h : gmap Z object) (L A B : list Z).

Lemma linked_app h A x B :
  linked h (A ++ x :: B) ↔ linked h (A ++ [x]) ∧ linked h (x :: B).
Proof.
  induction A as [|a A IH]; simpl.
  - tauto.
  - destruct A as [|a' A]; simpl in *; tauto.
Qed.

Lemma linked_snoc h A x y :
  linked h (A ++ [x; y]) ↔
  linked h (A ++ [x]) ∧ nxt h x = Some y ∧ prv h y = Some x.
Proof. rewrite linked_app. simpl. tauto. Qed.

Lemma linked_frame h h' L :
  (∀ z, z ∈ removelast L → nxt h z = nxt h' z) →
  (∀ z, z ∈ tail L → prv h z = prv h' z) →
  linked h L → linked h' L.
Proof.
  induction L as [|x [|y L] IH]; [done..|].
  intros Hn Hp (Hx & Hy & HL). split_and!.
  - rewrite <- Hn; [done|]. apply list_elem_of_here.
  - rewrite <- Hp; [done|]. apply list_elem_of_here.
  - apply IH; [| |done].
    + intros z Hz. apply Hn. by apply list_elem_of_further.
    + intros z Hz. apply Hp. simpl. by apply list_elem_of_further.
Qed.

Lemma linked_path h x l q :
  linked h (x :: l ++ [q]) → path (nxt h) x (x :: l) q.
Proof.
  revert x. induction l as [|y l IH]; intros x; simpl.
  - intros (Hx & _). eauto.
  - intros (Hx & _ & HL). split; [done|]. exists y. split; [done|].
    by apply IH.
Qed.

Lemma linked_rev h h' L :
  (∀ z, z ∈ L → nxt h' z = prv h z ∧ prv h' z = nxt h z) →
  linked h L → linked h' (reverse L).
Proof.
  induction L as [|x [|y L] IH]; [done..|].
  intros Hsw (Hx & Hy & HL).
  rewrite reverse_cons. rewrite reverse_cons in IH |- *.
  rewrite <- (assoc_L (++)). simpl. apply linked_snoc. split_and!.
  - apply IH; [|done]. intros z Hz. apply Hsw. by apply list_elem_of_further.
  - destruct (Hsw y) as [-> _]; [|done].
    apply list_elem_of_further, list_elem_of_here.
  - destruct (Hsw x) as [_ ->]; [|done]. apply list_elem_of_here.
Qed.

Lemma ring_head_not_null h head l : ring h head l → head ≠ NULL.
Proof.
  intros (Hn & _ & HL). simpl in HL.
  destruct (l ++ [head]) eqn:E; [by destruct l|].
  destruct HL as (Hx & _). by eapply nxt_not_null.
Qed.

Lemma ring_path_next h head l :
  ring h head l → path (nxt h) head (head :: l) head.
Proof. intros (_ & _ & HL). by apply linked_path. Qed.

Lemma ring_nil_iff h head l :
  ring h head l → (nxt h head = Some head ↔ l = []).
Proof.
  intros (_ & Hnd & HL). split.
  - destruct l as [|x l]; [done|]. simpl in HL. destruct HL as (Hx & _).
    intros E. rewrite E in Hx. injection Hx as ->.
    apply NoDup_cons in Hnd as [Hnd _]. exfalso. apply Hnd, list_elem_of_here.
  - intros ->. by destruct HL as (? & _).
Qed.
End linked.

(** ** [q_reverse] *)

Section q_reverse.
Implicit Types (h : gmap Z object) (pl l R : list Z).

(** Two heaps with the same payload and the same links are equal. *)
Lemma heap_ext h h' :
  payload h = payload h' →
  (∀ p, nxt h p = nxt h' p) → (∀ p, prv h p = prv h' p) → h = h'.
Proof.
  intros E Hn Hp. apply map_eq; intros p.
  specialize (Hn p). specialize (Hp p).
  apply (payload_lookup _ _ p) in E. unfold nxt, prv in *.
  destruct (h !! p) as [[[]|[? []]|]|], (h' !! p) as [[[]|[? []]|]|];
    simplify_eq/=; done.
Qed.

Lemma q_reverse_loop_spec head pl R : ∀ h pos fuel,
  path (nxt h) pos R head → NoDup R → head ∉ R →
  (length R < fuel)%nat →
  ∃ h', q_reverse_loop fuel head pos (State h pl) = Ok (tt, State h' pl) ∧
        (∀ x, x ∈ R → nxt h' x = prv h x ∧ prv h' x = nxt h x) ∧
        (∀ x, x ∉ R → nxt h' x = nxt h x ∧ prv h' x = prv h x) ∧
        payload h' = payload h.
Proof.
  induction R as [|x R IH]; intros h pos fuel Hpath Hnd Hhead Hfuel;
    (destruct fuel as [|fuel]; [simpl in Hfuel; lia|]); simpl in Hpath.
  - subst pos. exists h. simpl. rewrite Z.eqb_refl.
    split_and!; [done| |done..]. by intros ? ?%elem_of_nil.
  - destruct Hpath as [-> (n & Hn & Hpath)].
    apply NoDup_cons in Hnd as [Hx Hnd].
    apply not_elem_of_cons in Hhead as [Hhx Hhead].
    assert (is_Some (prv h x)) as [t Ht] by (apply nxt_is_Some_prv; eauto).
    set (h2 := set_next (set_prev h x n) x t).
    assert (Hn2 : ∀ z, z ≠ x → nxt h2 z = nxt h z).
    { intros z Hz. unfold h2. by rewrite nxt_set_next_ne, nxt_set_prev. }
    assert (Hp2 : ∀ z, z ≠ x → prv h2 z = prv h z).
    { intros z Hz. unfold h2. by rewrite prv_set_next, prv_set_prev_ne. }
    assert (Hnx : nxt h2 x = Some t).
    { unfold h2. rewrite nxt_set_next_eq; [done|]. rewrite nxt_set_prev. eauto. }
    assert (Hpx : prv h2 x = Some n).
    { unfold h2. rewrite prv_set_next, prv_set_prev_eq; eauto. }
    destruct (IH h2 n fuel) as (h' & Hrun & Hin & Hout & Hpay); [|done..| |].
    { eapply path_ext; [|done]. intros z Hz. symmetry. apply Hn2. by intros ->. }
    { simpl in Hfuel. lia. }
    exists h'. split_and!.
    + simpl. destruct (Z.eqb_spec x head) as [?|_]; [done|].
      rewrite (run_bind _ _ _ _ _ (run_load_prev _ _ _ _ Ht)).
      rewrite (run_bind _ _ _ _ _ (run_load_next _ _ _ _ Hn)).
      rewrite (run_bind _ _ _ _ _ (run_store_prev _ _ _ _ (mk_is_Some _ _ Ht))).
      erewrite run_bind; last first.
      { apply run_store_next. rewrite nxt_set_prev. eauto. }
      erewrite run_bind; last by apply run_load_prev, Hpx.
      apply Hrun.
    + intros z [->|Hz]%elem_of_cons.
      * destruct (Hout x Hx) as [-> ->]. by rewrite Hnx, Hpx.
      * destruct (Hin z Hz) as [-> ->].
        assert (z ≠ x) by (by intros ->). by rewrite Hn2, Hp2.
    + intros z [Hzx Hz]%not_elem_of_cons.
      destruct (Hout z Hz) as [-> ->]. by rewrite Hn2, Hp2.
    + rewrite Hpay. unfold h2. by rewrite payload_set_next, payload_set_prev.
Qed.

Lemma q_reverse_ring head pl h l fuel :
  ring h head l → (length l < fuel)%nat →
  ∃ h', q_reverse fuel head (State h pl) = Ok (tt, State h' pl) ∧
        (l = [] → h' = h) ∧
        (∀ x, x ∈ head :: l → nxt h' x = prv h x ∧ prv h' x = nxt h x) ∧
        (∀ x, x ∉ head :: l → nxt h' x = nxt h x ∧ prv h' x = prv h x) ∧
        payload h' = payload h.
Proof.
  intros Hring Hfuel.
  pose proof (ring_head_not_null _ _ _ Hring) as Hnull.
  pose proof (ring_nil_iff _ _ _ Hring) as Hnil.
  pose proof (ring_path_next _ _ _ Hring) as [_ (first & Hfirst & Hpath)].
  destruct Hring as (Hn & Hnd & HL).
  apply NoDup_cons in Hnd as [Hhead Hnd].
  unfold q_reverse. destruct (Z.eqb_spec head NULL) as [?|_]; [done|].
  rewrite (run_bind _ _ _ _ _ (run_list_empty _ _ _ _ Hfirst)).
  destruct (Z.eqb_spec first head) as [->|Hne].
  { assert (l = []) as -> by (by apply Hnil). exists h. split_and!; try done.
    intros x ->%list_elem_of_singleton.
    simpl in HL. destruct HL as (-> & -> & _). done. }
  destruct (q_reverse_loop_spec head pl l h first fuel)
    as (h1 & Hrun & Hin & Hout & Hpay); [done..|].
  assert (is_Some (prv h head)) as [last Hlast] by (apply nxt_is_Some_prv; eauto).
  destruct (Hout head Hhead) as [Hn1 Hp1].
  exists (set_prev (set_next h1 head last) head first). split_and!.
  - rewrite (run_bind _ _ _ _ _ (run_load_next _ _ _ _ Hfirst)).
    rewrite (run_bind _ _ _ _ _ Hrun).
    erewrite run_bind; last by (apply run_load_next; rewrite Hn1).
    erewrite run_bind; last by (apply run_load_prev; rewrite Hp1).
    erewrite run_bind; last by (apply run_store_next; rewrite Hn1; eauto).
    apply run_store_prev. rewrite prv_set_next, Hp1. eauto.
  - intros ->. simpl in Hpath. done.
  - intros x Hx. rewrite nxt_set_prev, prv_set_prev, nxt_set_next, !prv_set_next.
    apply elem_of_cons in Hx as [->|Hx].
    + rewrite !decide_True by done. by rewrite Hn1, Hp1, Hfirst, Hlast.
    + assert (head ≠ x) by (by intros ->). rewrite !decide_False by done.
      by apply Hin.
  - intros x Hx. rewrite nxt_set_prev, prv_set_prev, nxt_set_next, !prv_set_next.
    assert (head ≠ x).
    { intros ->. apply Hx, list_elem_of_here. }
    rewrite !decide_False by done. apply Hout.
    intros ?. by apply Hx, list_elem_of_further.
  - by rewrite payload_set_prev, payload_set_next.
Qed.
End q_reverse.

(** ** Tactics for heap views *)

(** Reduce the views of a heap built by field updates to views of the
    original heap, by cases on the addresses. *)
Ltac views :=
  repeat first
    [ rewrite nxt_set_next | rewrite nxt_set_prev
    | rewrite prv_set_next | rewrite prv_set_prev
    | rewrite payload_set_next | rewrite payload_set_prev ];
  repeat case_decide; simplify_eq/=;
  repeat match goal with
         | H : nxt _ _ = Some _ |- _ => rewrite H
         | H : prv _ _ = Some _ |- _ => rewrite H
         end;
  simpl; try done; eauto.

(** Run the next primitive of a computation. *)
Ltac run_prim :=
  rewrite ?run_assoc;
  first
    [ erewrite run_bind; [|apply run_load_next; views; fail]
    | erewrite run_bind; [|apply run_load_prev; views; fail]
    | erewrite run_bind; [|apply run_store_next; views; fail]
    | erewrite run_bind; [|apply run_store_prev; views; fail]
    | erewrite run_bind; [|apply run_load_value; views; fail]
    | (apply run_load_next; views; fail)
    | (apply run_load_prev; views; fail)
    | (apply run_store_next; views; fail)
    | (apply run_store_prev; views; fail) ].

(** ** [list_move] on adjacent nodes, and [q_swap] *)

Section q_swap.
Implicit Types (h : gmap Z object) (pl l R A : list Z).

Lemma list_move_adjacent h pl a x y c :
  nxt h a = Some x → prv h x = Some a →
  nxt h x = Some y → prv h y = Some x →
  nxt h y = Some c → prv h c = Some y →
  a ≠ x → a ≠ y → x ≠ y → c ≠ x → c ≠ y →
  ∃ h', list_move x y (State h pl) = Ok (tt, State h' pl) ∧
        nxt h' a = Some y ∧ nxt h' y = Some x ∧ nxt h' x = Some c ∧
        prv h' y = Some a ∧ prv h' x = Some y ∧ prv h' c = Some x ∧
        (∀ z, z ≠ a → z ≠ x → z ≠ y → nxt h' z = nxt h z) ∧
        (∀ z, z ≠ x → z ≠ y → z ≠ c → prv h' z = prv h z) ∧
        payload h' = payload h.
Proof.
  intros Ha Hx' Hx Hy' Hy Hc' ? ? ? ? ?.
  assert (is_Some (prv h a)) as [? ?] by (apply nxt_is_Some_prv; eauto).
  assert (is_Some (nxt h c)) as [? ?] by (apply nxt_is_Some_prv; eauto).
  eexists. split.
  { unfold list_move, list_del, list_add. do 8 run_prim. run_prim. }
  split_and!; try (intros; views).
Qed.
End q_swap.

Lemma pair_ind {X} (P : list X → Prop) :
  P [] → (∀ x, P [x]) → (∀ x y xs, P xs → P (x :: y :: xs)) → ∀ xs, P xs.
Proof.
  intros H0 H1 H2.
  assert (∀ xs, P xs ∧ ∀ x, P (x :: xs)) as H; [|intros xs; apply H].
  induction xs as [|y xs [IH1 IH2]]; split; auto.
Qed.

Section q_swap_loop.
Implicit Types (h : gmap Z object) (pl l R A : list Z).

Lemma q_swap_loop_spec head pl R : ∀ A A' a h fuel,
  A ++ [a] = head :: A' →
  NoDup (A ++ a :: R) →
  linked h (A ++ a :: R ++ [head]) →
  (length R < fuel)%nat →
  ∃ h', q_swap_loop fuel head a (State h pl) = Ok (tt, State h' pl) ∧
        linked h' (A ++ a :: swap_pairs R ++ [head]) ∧
        payload h' = payload h.
Proof.
  induction R as [|x|x y R IH] using pair_ind;
    intros A A' a h fuel HA Hnd HL Hfuel;
    (destruct fuel as [|fuel]; [simpl in Hfuel; lia|]).
  - exists h. split_and!; [|done..].
    apply linked_app in HL as [_ HL]. simpl in HL. destruct HL as (Ha & _).
    simpl. run_prim. by rewrite Z.eqb_refl.
  - exists h. split_and!; [|done..].
    apply linked_app in HL as [_ HL]. simpl in HL.
    destruct HL as (Ha & _ & Hx & _).
    assert (head ∈ A ++ [a]) by (rewrite HA; apply list_elem_of_here).
    assert (x ≠ head).
    { intros ->. apply NoDup_app in Hnd as (_ & Hnd & Hnd').
      apply NoDup_cons in Hnd' as [? _]. set_solver. }
    simpl. run_prim. destruct (Z.eqb_spec x head); [done|].
    run_prim. by rewrite Z.eqb_refl.
  - pose proof HL as HL0.
    apply linked_app in HL as [HLA HL]. simpl in HL.
    destruct HL as (Ha & Hx' & Hx & Hy' & HL).
    assert (head ∈ A ++ [a]) as Hhead by (rewrite HA; apply list_elem_of_here).
    assert (NoDup (head :: A')) as HndA.
    { rewrite <- HA. apply NoDup_app in Hnd as (? & ? & Hnd').
      apply NoDup_cons in Hnd' as [? _]. apply NoDup_app. split_and!; [done| |].
      - set_solver.
      - apply NoDup_singleton. }
    apply NoDup_cons in HndA as [HheadA' _].
    apply NoDup_app in Hnd as (HndA & Hdisj & Hnd).
    apply NoDup_cons in Hnd as [Hax Hnd].
    apply NoDup_cons in Hnd as [Hxy Hnd].
    apply NoDup_cons in Hnd as [HyR Hnd].
    assert (∃ c C, R ++ [head] = c :: C ∧ c ≠ x ∧ c ≠ y ∧ (c ∉ C) ∧
                   (∀ z, z ∈ C → z ∈ R ∨ z = head) ∧
                   removelast (c :: C) = R) as (c & C & HC & ? & ? & HcC & HCsub & Hrl).
    { destruct R as [|c R'].
      - exists head, []. simpl. split_and!; [done| | |set_solver..|done].
        + intros ->. set_solver.
        + intros ->. set_solver.
      - exists c, (R' ++ [head]). apply NoDup_cons in Hnd as [? ?].
        split_and!; [done|set_solver|set_solver| |set_solver|].
        + intros [?| ->%list_elem_of_singleton]%elem_of_app; [done|].
          set_solver.
        + rewrite app_comm_cons. apply removelast_last. }
    rewrite HC in HL. destruct HL as (Hy & Hc' & HLC).
    destruct (list_move_adjacent h pl a x y c)
      as (h1 & Hrun & Ha1 & Hy1 & Hx1 & Hy1' & Hx1' & Hc1' & Hfn & Hfp & Hpay);
      [done..|set_solver|set_solver|set_solver|done|done|].
    assert (linked h1 (A ++ [a])) as HLA1.
    { eapply linked_frame; [| |exact HLA].
      - intros z Hz. rewrite removelast_last in Hz. symmetry. apply Hfn; set_solver.
      - intros z Hz. rewrite HA in Hz. simpl in Hz. symmetry.
        assert (z ∈ A ++ [a]) by (rewrite HA; by apply list_elem_of_further).
        apply Hfp; [set_solver|set_solver|].
        intros ->. destruct R as [|c' R']; simplify_eq/=; try done; set_solver. }
    assert (linked h1 (c :: C)) as HLC1.
    { eapply linked_frame; [| |exact HLC].
      - intros z Hz. rewrite Hrl in Hz. symmetry. apply Hfn; set_solver.
      - intros z Hz. simpl in Hz. symmetry. apply Hfp; [| |set_solver].
        + destruct (HCsub z Hz) as [?| ->]; set_solver.
        + destruct (HCsub z Hz) as [?| ->]; set_solver. }
    destruct (IH (A ++ [a; y]) (A' ++ [y; x]) x h1 fuel)
      as (h' & Hrun' & HL' & Hpay').
    { rewrite <- (assoc_L (++)). simpl.
      rewrite cons_middle, (assoc_L (++)), HA. done. }
    { rewrite <- (assoc_L (++)). simpl.
      apply NoDup_app. split_and!; [done|set_solver|].
      repeat (apply NoDup_cons; split); set_solver. }
    { rewrite <- (assoc_L (++)). simpl. rewrite HC.
      apply linked_app. split; [done|]. simpl. done. }
    { simpl in Hfuel. lia. }
    exists h'. split_and!.
    + simpl. run_prim. destruct (Z.eqb_spec x head) as [->|_]; [set_solver|].
      run_prim. destruct (Z.eqb_spec y head) as [->|_]; [set_solver|].
      rewrite (run_bind _ _ _ _ _ Hrun). do 2 run_prim. exact Hrun'.
    + simpl. rewrite <- (assoc_L (++)) in HL'. simpl in HL'.
      apply linked_app in HL' as [HL1 HL2]. by apply linked_app.
    + by rewrite Hpay'.
Qed.
End q_swap_loop.

(** ** Strings and their order *)

Section strings.
Implicit Types (a b c : list byte) (x y : byte).

Lemma byte_val_inj x y : byte_val x = byte_val y → x = y.
Proof.
  unfold byte_val. intros E%(inj Z.of_N).
  assert (Some x = Some y) as [= ->]; [|done].
  by rewrite <- !Byte.of_to_N, E.
Qed.

Lemma byte_val_nonneg x : 0 ≤ byte_val x.
Proof. unfold byte_val. lia. Qed.

Lemma byte_val_nul x : byte_val x = 0 ↔ x = x00.
Proof.
  split; [|by intros ->]. intros E. by apply byte_val_inj.
Qed.

Lemma byte_eqb_eq x y : Byte.eqb x y = true ↔ x = y.
Proof. split; [apply Byte.byte_dec_bl|apply Byte.byte_dec_lb]. Qed.

Lemma byte_eqb_spec x y : reflect (x = y) (Byte.eqb x y).
Proof. apply iff_reflect. symmetry. apply byte_eqb_eq. Qed.

Lemma lex_leb_refl a : lex_leb a a = true.
Proof.
  induction a as [|x a IH]; [done|]. simpl.
  rewrite Z.eqb_refl, IH. by rewrite orb_true_r.
Qed.

Lemma lex_leb_total a b : lex_leb a b = true ∨ lex_leb b a = true.
Proof.
  revert b. induction a as [|x a IH]; intros [|y b]; simpl; auto.
  destruct (Z.ltb_spec (byte_val x) (byte_val y)); [auto|].
  destruct (Z.ltb_spec (byte_val y) (byte_val x)); [auto|].
  rewrite !(proj2 (Z.eqb_eq _ _)) by lia. simpl. apply IH.
Qed.

Lemma lex_leb_trans a b c :
  lex_leb a b = true → lex_leb b c = true → lex_leb a c = true.
Proof.
  revert b c. induction a as [|x a IH]; intros [|y b] [|z c]; simpl; try done.
  rewrite !orb_true_iff, !andb_true_iff, !Z.ltb_lt, !Z.eqb_eq.
  intros [?|[? ?]] [?|[? ?]]; [left; lia..|].
  right. split; [lia|]. by eapply IH.
Qed.

Lemma lex_leb_antisym a b :
  lex_leb a b = true → lex_leb b a = true → a = b.
Proof.
  revert b. induction a as [|x a IH]; intros [|y b]; simpl; try done.
  rewrite !orb_true_iff, !andb_true_iff, !Z.ltb_lt, !Z.eqb_eq.
  intros [?|[? ?]] [?|[? ?]]; try lia.
  f_equal; [by apply byte_val_inj|by apply IH].
Qed.

(** [strcmp] decides the lexicographic order of the strings two
    terminated arrays hold. *)
Lemma strcmp_chars_spec a b :
  is_Some (nul_index a) → is_Some (nul_index b) →
  ∃ r, strcmp_chars a b = Some r ∧
       (r <=? 0) = lex_leb (c_str a) (c_str b) ∧
       (r = 0 ↔ c_str a = c_str b).
Proof.
  revert b. induction a as [|x a IH]; intros [|y b]; simpl;
    try (by intros [? ?] || by intros _ [? ?]).
  destruct (byte_eqb_spec x y) as [<-|Hxy].
  - destruct (byte_eqb_spec x x00) as [->|Hx].
    + intros _ _. exists 0. done.
    + rewrite !fmap_is_Some. intros Ha Hb.
      destruct (IH b Ha Hb) as (r & -> & Hle & Hr). exists r. simpl.
      rewrite Z.ltb_irrefl, Z.eqb_refl. simpl. split_and!; [done..|].
      rewrite Hr. split; [by intros ->|by intros [= ?]].
  - intros _ _. exists (byte_val x - byte_val y).
    assert (byte_val x ≠ byte_val y) by (by intros ?%byte_val_inj).
    pose proof (byte_val_nonneg x). pose proof (byte_val_nonneg y).
    split; [done|]. split; [|split; [lia|]].
    + destruct (byte_eqb_spec x x00) as [->|Hx];
        destruct (byte_eqb_spec y x00) as [->|Hy]; simpl.
      * done.
      * change (byte_val "000") with 0 in *. apply Z.leb_le. lia.
      * change (byte_val "000") with 0 in *. apply Z.leb_gt. lia.
      * rewrite (proj2 (Z.eqb_neq _ _)) by done. simpl. rewrite orb_false_r.
        destruct (Z.ltb_spec (byte_val x) (byte_val y));
          [apply Z.leb_le|apply Z.leb_gt]; lia.
    + destruct (byte_eqb_spec x x00) as [->|Hx];
        destruct (byte_eqb_spec y x00) as [->|Hy]; try done.
      by intros [= ?].
Qed.
End strings.

(** ** Chains *)

Section chains.
Implicit Types (h : gmap Z object) (l : list Z) (p : Z).

Lemma chain_frame h h' p l :
  (∀ z, z ∈ l → nxt h' z = nxt h z) → chain h p l → chain h' p l.
Proof. intros Hf. apply path_ext. intros z Hz. symmetry. by apply Hf. Qed.

Lemma chain_null_iff h p l :
  h !! NULL = None → chain h p l → (p = NULL ↔ l = []).
Proof.
  intros Hn. destruct l as [|x l]; simpl; [done|].
  intros [-> (n & Hx & _)]. split; [|done].
  intros ->. by eapply nxt_not_null in Hx.
Qed.

Lemma chain_app h p l1 x l2 :
  chain h p (l1 ++ x :: l2) →
  path (nxt h) p l1 x ∧ ∃ n, nxt h x = Some n ∧ chain h n l2.
Proof. intros (m & ? & -> & ?)%path_app. done. Qed.
End chains.

(** ** [merge] *)

Section run_strings.
Implicit Types (h : gmap Z object) (pl : list Z).

Lemma run_strcmp h pl a b sa sb :
  str_at h a = Some sa → str_at h b = Some sb →
  ∃ va vb c,
    val h a = Some va ∧ val h b = Some vb ∧
    strcmp va vb (State h pl) = Ok (c, State h pl) ∧
    (c <=? 0) = lex_leb sa sb ∧ (c = 0 ↔ sa = sb).
Proof.
  unfold str_at. intros Ha Hb.
  destruct (val h a) as [va|] eqn:Hva; [simpl in Ha|done].
  destruct (val h b) as [vb|] eqn:Hvb; [simpl in Hb|done].
  destruct (chars h va) as [ca|] eqn:Hca; [simpl in Ha|done].
  destruct (chars h vb) as [cb|] eqn:Hcb; [simpl in Hb|done].
  destruct (nul_index ca) as [ia|] eqn:Hia; [simpl in Ha|done].
  destruct (nul_index cb) as [ib|] eqn:Hib; [simpl in Hb|done].
  simplify_eq.
  destruct (strcmp_chars_spec ca cb) as (c & Hc & Hle & Heq);
    [by rewrite Hia|by rewrite Hib|].
  exists va, vb, c. split_and!; [done..| |done|done].
  unfold strcmp. simpl. by rewrite Hca, Hcb, Hc.
Qed.
End run_strings.

Section merge.
Context (k : Z → list byte).
Implicit Types (h : gmap Z object) (pl l : list Z).

#[local] Instance le_by_total : Total (le_by k).
Proof. intros a b. apply lex_leb_total. Qed.

#[local] Instance le_by_trans : Transitive (le_by k).
Proof. intros a b c. apply lex_leb_trans. Qed.

Lemma keys_at_payload h h' l :
  payload h = payload h' → keys_at k h l → keys_at k h' l.
Proof. intros E Hk a Ha. rewrite <- (payload_str_at _ _ a E). by apply Hk. Qed.

Lemma merge_store_spec h pl ptr head v l :
  ptr_outside h ptr l →
  ∃ h' head',
    merge_store ptr head v (State h pl) = Ok (head', State h' pl) ∧
    ptr_holds h' head' ptr v ∧
    (ptr ≠ PtrHead → head' = head) ∧
    (∀ z, ptr ≠ PtrNext z → nxt h' z = nxt h z) ∧
    (∀ z, prv h' z = prv h z) ∧
    payload h' = payload h.
Proof.
  destruct ptr as [|a]; simpl.
  - intros _. exists h, v. done.
  - intros [Ha [w Hw]]. exists (set_next h a v), head. split_and!.
    + by run_prim.
    + views.
    + done.
    + intros z Hz. assert (a ≠ z) by congruence. views.
    + intros z. views.
    + views.
Qed.

(** One iteration of the loop of [merge]. *)
Lemma merge_with_step att fuel pl h head ptr x y vx vy c h1 head1 n :
  x ≠ NULL → y ≠ NULL →
  val h x = Some vx → val h y = Some vy →
  strcmp vx vy (State h pl) = Ok (c, State h pl) →
  merge_store ptr head (if c <=? 0 then x else y) (State h pl)
    = Ok (head1, State h1 pl) →
  nxt h1 (if c <=? 0 then x else y) = Some n →
  merge_with att (S fuel) head ptr x y (State h pl)
  = merge_with att fuel head1 (PtrNext (if c <=? 0 then x else y))
      (if c <=? 0 then n else x) (if c <=? 0 then y else n) (State h1 pl).
Proof.
  intros Hx Hy Hvx Hvy Hc Hst Hn. unfold merge_with. simpl merge_loop.
  destruct (Z.eqb_spec x NULL) as [?|_]; [done|].
  destruct (Z.eqb_spec y NULL) as [?|_]; [done|]. simpl orb. cbv iota.
  do 2 run_prim. rewrite run_assoc, (run_bind _ _ _ _ _ Hc).
  rewrite run_assoc, (run_bind _ _ _ _ _ Hst).
  rewrite run_assoc. erewrite run_bind; [|by apply run_load_next].
  by destruct (c <=? 0).
Qed.

Lemma merge_with_spec att pl :
  (∀ a, att NULL a = a) → (∀ a, att a NULL = a) →
  ∀ fuel l1 l2 h head ptr L1 L2,
  h !! NULL = None →
  chain h L1 l1 → chain h L2 l2 → NoDup (l1 ++ l2) →
  keys_at k h (l1 ++ l2) → ptr_outside h ptr (l1 ++ l2) →
  (length l1 + length l2 < fuel)%nat →
  ∃ h' head' first,
    merge_with att fuel head ptr L1 L2 (State h pl)
      = Ok (head', State h' pl) ∧
    ptr_holds h' head' ptr first ∧
    (ptr ≠ PtrHead → head' = head) ∧
    chain h' first (list_merge (le_by k) l1 l2) ∧
    (∀ z, z ∉ l1 ++ l2 → ptr ≠ PtrNext z → nxt h' z = nxt h z) ∧
    (∀ z, prv h' z = prv h z) ∧
    payload h' = payload h.
Proof.
  intros Hatt1 Hatt2.
  induction fuel as [|fuel IH];
    intros l1 l2 h head ptr L1 L2 Hnull H1 H2 Hnd Hk Hptr Hfuel; [lia|].
  pose proof (chain_null_iff _ _ _ Hnull H1) as HL1.
  pose proof (chain_null_iff _ _ _ Hnull H2) as HL2.
  assert (Hout : ∀ z, z ∈ l1 ++ l2 → ptr ≠ PtrNext z).
  { intros z Hz ->. by destruct Hptr as [[] _]. }
  destruct l1 as [|x l1].
  { assert (L1 = NULL) as -> by (by apply HL1).
    destruct (merge_store_spec h pl ptr head (att NULL L2) l2 Hptr)
      as (h' & head' & Hrun & Hholds & Hhead & Hfn & Hfp & Hpay).
    exists h', head', L2. rewrite Hatt1 in Hholds.
    split_and!; [|done|done| | |done|done].
    - unfold merge_with. simpl merge_loop. exact Hrun.
    - rewrite list_merge_nil_l. eapply chain_frame; [|done].
      intros z Hz. by apply Hfn, Hout.
    - intros z _ Hz. by apply Hfn. }
  assert (L1 ≠ NULL) as HL1' by (rewrite HL1; done).
  destruct l2 as [|y l2].
  { assert (L2 = NULL) as -> by (by apply HL2).
    rewrite app_nil_r in *.
    destruct (merge_store_spec h pl ptr head (att L1 NULL) _ Hptr)
      as (h' & head' & Hrun & Hholds & Hhead & Hfn & Hfp & Hpay).
    exists h', head', L1. rewrite Hatt2 in Hholds.
    split_and!; [|done|done| | |done|done].
    - unfold merge_with. simpl merge_loop.
      destruct (Z.eqb_spec L1 NULL) as [?|_]; [done|]. exact Hrun.
    - rewrite list_merge_nil_r. eapply chain_frame; [|done].
      intros z Hz. by apply Hfn, Hout.
    - intros z _ Hz. by apply Hfn. }
  assert (L2 ≠ NULL) as HL2' by (rewrite HL2; done).
  destruct H1 as [-> (n1 & Hx & H1)]. destruct H2 as [-> (n2 & Hy & H2)].
  destruct (run_strcmp h pl x y (k x) (k y))
    as (vx & vy & c & Hvx & Hvy & Hcmp & Hc & _).
  { apply Hk. set_solver +. }
  { apply Hk. set_solver +. }
  rewrite list_merge_cons.
  assert (NoDup (l1 ++ y :: l2)) as HndL.
  { by apply NoDup_cons in Hnd as [_ ?]. }
  assert (NoDup ((x :: l1) ++ l2)) as HndR.
  { eapply sublist_NoDup; [exact Hnd|].
    apply sublist_app; [done|]. by apply sublist_cons. }
  assert (x ∉ l1 ++ y :: l2) as HxL.
  { by apply NoDup_cons in Hnd as [? _]. }
  assert (y ∉ (x :: l1) ++ l2) as HyR.
  { apply NoDup_app in Hnd as (_ & Hd & [Hy2 _]%NoDup_cons).
    intros [Hy1|?]%elem_of_app; [|done].
    apply (Hd y Hy1), list_elem_of_here. }
  destruct (merge_store_spec h pl ptr head (if c <=? 0 then x else y) _ Hptr)
    as (h1 & head1 & Hrun & Hholds & Hhead & Hfn & Hfp & Hpay).
  assert (Hx1 : nxt h1 x = Some n1).
  { rewrite Hfn; [done|]. apply Hout. set_solver +. }
  assert (Hy1 : nxt h1 y = Some n2).
  { rewrite Hfn; [done|]. apply Hout. set_solver +. }
  assert (chain h1 n1 l1).
  { eapply chain_frame; [|done]. intros z Hz. apply Hfn, Hout. set_solver +Hz. }
  assert (chain h1 n2 l2).
  { eapply chain_frame; [|done]. intros z Hz. apply Hfn, Hout. set_solver +Hz. }
  assert (chain h1 x (x :: l1)) by (split; [done|]; eauto).
  assert (chain h1 y (y :: l2)) by (split; [done|]; eauto).
  assert (h1 !! NULL = None) by (by eapply payload_null).
  assert (keys_at k h1 ((x :: l1) ++ y :: l2)) as Hk1
    by (by eapply keys_at_payload).
  destruct (decide ((le_by k) x y)) as [Hle|Hle]; unfold le_by in Hle.
  - rewrite Hle in Hc. rewrite Hc in Hrun, Hholds.
    destruct (IH l1 (y :: l2) h1 head1 (PtrNext x) n1 y)
      as (h' & head' & first & Hrun' & Hholds' & Hhead' & Hchain & Hfn' & Hfp' & Hpay');
      [done|done|done|done| | |simpl in *; lia|].
    { intros z Hz. apply Hk1. set_solver +Hz. }
    { split; [done|eauto]. }
    exists h', head', x. split_and!.
    + rewrite (merge_with_step att fuel pl h head ptr x y vx vy c h1 head1 n1);
        rewrite ?Hc; done.
    + rewrite Hhead' by done.
      destruct ptr as [|a]; simpl in *; [done|].
      destruct Hptr as [Ha _].
      rewrite Hfn'; [done|set_solver +Ha|intros [= ->]; set_solver +Ha].
    + intros ?. rewrite Hhead' by done. by apply Hhead.
    + simpl. split; [done|]. eauto.
    + intros z Hz Hzp. rewrite Hfn', Hfn; [done|done| |].
      * set_solver +Hz.
      * intros [= ->]. set_solver +Hz.
    + intros z. by rewrite Hfp', Hfp.
    + by rewrite Hpay'.
  - apply not_true_is_false in Hle. rewrite Hle in Hc.
    rewrite Hc in Hrun, Hholds.
    destruct (IH (x :: l1) l2 h1 head1 (PtrNext y) x n2)
      as (h' & head' & first & Hrun' & Hholds' & Hhead' & Hchain & Hfn' & Hfp' & Hpay');
      [done|done|done|done| | |simpl in *; lia|].
    { intros z Hz. apply Hk1. set_solver +Hz. }
    { split; [done|eauto]. }
    exists h', head', y. split_and!.
    + rewrite (merge_with_step att fuel pl h head ptr x y vx vy c h1 head1 n2);
        rewrite ?Hc; done.
    + rewrite Hhead' by done.
      destruct ptr as [|a]; simpl in *; [done|].
      destruct Hptr as [Ha _].
      rewrite Hfn'; [done|set_solver +Ha|intros [= ->]; set_solver +Ha].
    + intros ?. rewrite Hhead' by done. by apply Hhead.
    + simpl. split; [done|]. eauto.
    + intros z Hz Hzp. rewrite Hfn', Hfn; [done|done| |].
      * set_solver +Hz.
      * intros [= ->]. set_solver +Hz.
    + intros z. by rewrite Hfp', Hfp.
    + by rewrite Hpay'.
Qed.

(** *** Stability of the merge *)

Lemma filter_none (P : Z → Prop) `{∀ a, Decision (P a)} l :
  (∀ z, z ∈ l → ¬ P z) → filter P l = [].
Proof.
  induction l as [|x l IH]; intros Hl; [done|].
  rewrite filter_cons_False; [|apply Hl, list_elem_of_here].
  apply IH. intros z Hz. by apply Hl, list_elem_of_further.
Qed.

Lemma list_merge_stable v l1 l2 :
  StronglySorted (le_by k) l1 →
  filter (λ a, k a = v) (list_merge (le_by k) l1 l2)
  = filter (λ a, k a = v) l1 ++ filter (λ a, k a = v) l2.
Proof.
  revert l2. induction l1 as [|x l1 IH1]; intros l2 Hs.
  { by rewrite list_merge_nil_l. }
  induction l2 as [|y l2 IH2].
  { by rewrite list_merge_nil_r, filter_nil, app_nil_r. }
  rewrite list_merge_cons. apply StronglySorted_cons in Hs as Hs'.
  destruct Hs' as [Hx Hs']. destruct (decide ((le_by k) x y)) as [Hle|Hle].
  - rewrite !(filter_cons _ x), IH1 by done. by destruct (decide (k x = v)).
  - rewrite !(filter_cons _ y), IH2. destruct (decide (k y = v)) as [Hy|]; [|done].
    rewrite (filter_none _ (x :: l1)); [done|].
    intros z [->|Hz]%elem_of_cons Hkz; apply Hle; unfold le_by.
    + rewrite Hy, <- Hkz. apply lex_leb_refl.
    + rewrite Forall_forall in Hx. specialize (Hx z Hz). unfold le_by in Hx.
      by rewrite Hy, <- Hkz.
Qed.

(** *** The split of [merge_sort] *)

Lemma tortoise_split (lf : list Z) : ∀ ls : list Z,
  (length lf < length ls)%nat →
  ∃ pre s rest, ls = pre ++ s :: rest ∧ tortoise ls lf = s :: rest ∧
                (length lf = 2 * length pre ∨
                 length lf = 2 * length pre + 1)%nat.
Proof.
  induction lf as [|y|y y' lf IH] using pair_ind; intros ls Hlen.
  - destruct ls as [|s rest]; [simpl in Hlen; lia|].
    exists [], s, rest. simpl. auto.
  - destruct ls as [|s rest]; [simpl in Hlen; lia|].
    exists [], s, rest. simpl. auto.
  - destruct ls as [|x ls]; [simpl in Hlen; lia|].
    destruct (IH ls) as (pre & s & rest & -> & Ht & Hl); [simpl in Hlen; lia|].
    exists (x :: pre), s, rest. simpl. split_and!; [done..|lia].
Qed.

Lemma merge_sort_loop_spec pl h lf : ∀ ls slow fast fuel,
  h !! NULL = None →
  chain h slow ls → chain h fast lf →
  (length lf < length ls)%nat → (length lf < fuel)%nat →
  ∃ s rest, tortoise ls lf = s :: rest ∧
            merge_sort_loop fuel slow fast (State h pl) = Ok (s, State h pl).
Proof.
  intros ls slow fast fuel Hnull. revert ls slow fast fuel.
  induction lf as [|y|y y' lf IH] using pair_ind;
    intros ls slow fast fuel Hs Hf Hlen Hfuel;
    (destruct fuel as [|fuel]; [simpl in Hfuel; lia|]);
    (destruct ls as [|s ls]; [simpl in Hlen; lia|]);
    destruct Hs as [-> (sn & Hsn & Hs)].
  - assert (fast = NULL) as -> by exact Hf. exists s, ls. done.
  - destruct Hf as [-> (n & Hy & ->)].
    assert (y ≠ NULL) by (by eapply nxt_not_null).
    exists s, ls. split; [done|]. simpl.
    destruct (Z.eqb_spec y NULL) as [?|_]; [done|]. by run_prim.
  - destruct Hf as [-> (n & Hy & [-> (n' & Hy' & Hf)])].
    assert (y ≠ NULL) by (by eapply nxt_not_null).
    assert (y' ≠ NULL) by (by eapply nxt_not_null).
    destruct (IH ls sn n' fuel) as (s' & rest & Ht & Hrun);
      [done|done|simpl in *; lia|simpl in *; lia|].
    exists s', rest. split; [done|]. simpl merge_sort_loop.
    destruct (Z.eqb_spec y NULL) as [?|_]; [done|]. run_prim.
    destruct (Z.eqb_spec y' NULL) as [?|_]; [done|]. do 2 run_prim.
    exact Hrun.
Qed.

(** *** [merge_sort] *)

Lemma merge_sort_spec pl : ∀ fuel l h p,
  h !! NULL = None →
  chain h p l → l ≠ [] → NoDup l → keys_at k h l →
  (length l + 1 < fuel)%nat →
  ∃ h' p' l',
    merge_sort fuel p (State h pl) = Ok (p', State h' pl) ∧
    chain h' p' l' ∧
    Sorted (le_by k) l' ∧ l ≡ₚ l' ∧ same_order_by k l l' ∧
    (∀ z, z ∉ l → nxt h' z = nxt h z) ∧
    (∀ z, prv h' z = prv h z) ∧
    payload h' = payload h.
Proof.
  induction fuel as [|fuel IH]; intros l h p Hnull Hchain Hne Hnd Hk Hfuel;
    [lia|].
  destruct l as [|x [|x' l]]; [done| |].
  { (* a single node: already sorted *)
    destruct Hchain as [-> (n & Hx & ->)].
    exists h, x, [x]. split_and!; try done.
    - simpl. by run_prim.
    - split; [done|]. by exists NULL.
    - repeat constructor. }
  set (l0 := x :: x' :: l) in *.
  pose proof Hchain as [-> (n & Hx & Htail)].
  pose proof Htail as [-> (n' & Hx' & _)].
  assert (x' ≠ NULL) as Hx'n by (by eapply nxt_not_null).
  (* the split *)
  destruct (tortoise_split (x' :: l) l0)
    as (pre & s & rest & Hl0 & Htort & Hlen); [simpl; lia|].
  destruct (merge_sort_loop_spec pl h (x' :: l) l0 x x' fuel)
    as (s' & rest' & Htort' & Hsplit); [done..|simpl; lia|simpl in *; lia|].
  rewrite Htort in Htort'. injection Htort' as <- <-.
  assert (length l0 = S (S (length l))) as Hl0len by done.
  assert (length l0 = (length pre + S (length rest))%nat) as Hl0len'.
  { by rewrite Hl0, length_app. }
  assert (l0 = (pre ++ [s]) ++ rest) as Hl0'.
  { by rewrite Hl0, <- (assoc_L (++)). }
  assert (rest ≠ []) as Hrest.
  { intros ->. simpl in *. lia. }
  rewrite Hl0 in Hchain, Hnd, Hk.
  apply chain_app in Hchain as (Hpre & mid & Hs & Hmid).
  apply NoDup_app in Hnd as (Hndpre & Hdisj & [Hsrest Hndrest]%NoDup_cons).
  assert (s ∉ pre) as Hspre.
  { intros Hin. apply (Hdisj s Hin), list_elem_of_here. }
  set (h1 := set_next h s NULL).
  assert (Hn1 : ∀ z, z ≠ s → nxt h1 z = nxt h z).
  { intros z Hz. unfold h1. by rewrite nxt_set_next_ne. }
  assert (chain h1 x (pre ++ [s])) as Hleft.
  { apply path_snoc. split.
    - eapply path_ext; [|exact Hpre]. intros z Hz. symmetry. apply Hn1.
      by intros ->.
    - unfold h1. rewrite nxt_set_next_eq; eauto. }
  assert (chain h1 mid rest) as Hright.
  { eapply chain_frame; [|exact Hmid]. intros z Hz. apply Hn1. by intros ->. }
  assert (payload h1 = payload h) as Hpay1 by apply payload_set_next.
  assert (h1 !! NULL = None) as Hnull1 by (by eapply payload_null).
  assert (NoDup (pre ++ [s])) as Hndleft.
  { apply NoDup_app. split_and!; [done| |apply NoDup_singleton].
    by intros z Hz ->%list_elem_of_singleton. }
  assert (∀ z, z ∈ pre ++ [s] → z ∉ rest) as Hdisj'.
  { intros z [Hz| ->%list_elem_of_singleton]%elem_of_app; [|done].
    intros Hz'. by apply (Hdisj z Hz), list_elem_of_further. }
  (* the left half *)
  destruct (IH (pre ++ [s]) h1 x)
    as (h2 & p2 & l1 & Hrun2 & Hchain2 & Hsorted2 & Hperm2 & Hstab2
        & Hfn2 & Hfp2 & Hpay2); [done|done| |done| | |].
  { by destruct pre. }
  { apply (keys_at_payload h); [done|]. intros z Hz. apply Hk.
    rewrite <- Hl0, Hl0'. apply elem_of_app. by left. }
  { rewrite length_app. simpl in *. lia. }
  assert (h2 !! NULL = None) as Hnull2 by (by eapply payload_null).
  assert (chain h2 mid rest) as Hright2.
  { eapply chain_frame; [|exact Hright]. intros z Hz. apply Hfn2.
    intros Hz'. by apply (Hdisj' z). }
  (* the right half *)
  destruct (IH rest h2 mid)
    as (h3 & p3 & l2 & Hrun3 & Hchain3 & Hsorted3 & Hperm3 & Hstab3
        & Hfn3 & Hfp3 & Hpay3); [done..| | |].
  { apply (keys_at_payload h); [by rewrite Hpay2|]. intros z Hz. apply Hk.
    apply elem_of_app. right. by apply list_elem_of_further. }
  { simpl in *. lia. }
  assert (h3 !! NULL = None) as Hnull3 by (by eapply payload_null).
  assert (chain h3 p2 l1) as Hchain2'.
  { eapply chain_frame; [|exact Hchain2]. intros z Hz. apply Hfn3.
    intros Hz'. apply (Hdisj' z); [|done]. by rewrite Hperm2. }
  (* the merge *)
  assert (l1 ++ l2 ≡ₚ l0) as Hperm.
  { by rewrite Hl0', <- Hperm2, <- Hperm3. }
  destruct (merge_with_spec Z.lor pl Z.lor_0_l Z.lor_0_r fuel l1 l2 h3
              NULL PtrHead p2 p3)
    as (h4 & p4 & first & Hrun4 & Hholds4 & _ & Hchain4 & Hfn4 & Hfp4 & Hpay4);
    [done|done|done| | |done| |].
  { rewrite Hperm, Hl0. apply NoDup_app. split_and!; [done..|].
    by apply NoDup_cons. }
  { apply (keys_at_payload h); [by rewrite Hpay3, Hpay2|].
    intros z Hz. apply Hk. rewrite <- Hl0, <- Hperm. done. }
  { rewrite <- length_app, Hperm. simpl in *. lia. }
  simpl in Hholds4. subst p4.
  exists h4, first, (list_merge (le_by k) l1 l2). split_and!.
  - simpl merge_sort. run_prim.
    destruct (Z.eqb_spec x' NULL) as [?|_]; [done|].
    rewrite (run_bind _ _ _ _ _ Hsplit). do 2 run_prim.
    rewrite (run_bind _ _ _ _ _ Hrun2), (run_bind _ _ _ _ _ Hrun3).
    exact Hrun4.
  - done.
  - apply Sorted_list_merge; [apply le_by_total|done..].
  - by rewrite merge_Permutation, Hperm.
  - intros v. rewrite list_merge_stable
      by (apply Sorted_StronglySorted; [apply le_by_trans|done]).
    by rewrite Hstab2, Hstab3, <- filter_app, Hl0'.
  - intros z Hz. rewrite Hl0 in Hz.
    rewrite Hfn4, Hfn3, Hfn2, Hn1; [done| | | | |done].
    + intros ->. apply Hz. set_solver +.
    + intros Hz'. apply Hz. rewrite <- Hl0, Hl0'. set_solver +Hz'.
    + intros Hz'. apply Hz. set_solver +Hz'.
    + intros Hz'. apply Hz. rewrite <- Hl0, <- Hperm. done.
  - intros z. rewrite Hfp4, Hfp3, Hfp2. unfold h1. by rewrite prv_set_next.
  - by rewrite Hpay4, Hpay3, Hpay2.
Qed.

(** *** [q_sort] *)

Lemma q_sort_loop_spec pl R : ∀ ptr n h fuel,
  h !! NULL = None →
  nxt h ptr = Some n → chain h n R → ptr ∉ R → NoDup R →
  (length R < fuel)%nat →
  ∃ h' e,
    q_sort_loop fuel ptr (State h pl) = Ok (e, State h' pl) ∧
    last (ptr :: R) = Some e ∧
    linked h' (ptr :: R) ∧
    (∀ z, nxt h' z = nxt h z) ∧
    (∀ z, z ∉ R → prv h' z = prv h z) ∧
    payload h' = payload h.
Proof.
  induction R as [|x R IH]; intros ptr n h fuel Hnull Hptr Hchain Hout Hnd Hfuel;
    (destruct fuel as [|fuel]; [simpl in Hfuel; lia|]).
  - assert (n = NULL) as -> by exact Hchain.
    exists h, ptr. split_and!; try done. simpl. by run_prim.
  - destruct Hchain as [-> (n' & Hx & Hchain)].
    assert (x ≠ NULL) by (by eapply nxt_not_null).
    apply NoDup_cons in Hnd as [HxR Hnd].
    apply not_elem_of_cons in Hout as [Hpx Hout].
    assert (is_Some (prv h x)) as Hpx' by (apply nxt_is_Some_prv; eauto).
    set (h1 := set_prev h x ptr).
    destruct (IH x n' h1 fuel) as (h' & e & Hrun & Hlast & HL & Hfn & Hfp & Hpay).
    { eapply payload_null; [|done]. unfold h1. by rewrite payload_set_prev. }
    { unfold h1. by rewrite nxt_set_prev. }
    { eapply chain_frame; [|done]. intros z _. unfold h1. by rewrite nxt_set_prev. }
    { done. }
    { done. }
    { simpl in Hfuel. lia. }
    exists h', e. split_and!.
    + simpl. run_prim. destruct (Z.eqb_spec x NULL) as [?|_]; [done|].
      run_prim. exact Hrun.
    + by rewrite last_cons_cons.
    + split_and!; [| |done].
      * rewrite Hfn. unfold h1. by rewrite nxt_set_prev.
      * rewrite Hfp by done. unfold h1. by rewrite prv_set_prev_eq.
    + intros z. rewrite Hfn. unfold h1. by rewrite nxt_set_prev.
    + intros z [Hzx Hz]%not_elem_of_cons. rewrite Hfp by done.
      unfold h1. by rewrite prv_set_prev_ne.
    + rewrite Hpay. unfold h1. by rewrite payload_set_prev.
Qed.

Lemma q_sort_spec pl h head l fuel :
  ring h head l → keys_at k h l → (length l + 1 < fuel)%nat →
  ∃ h' l',
    q_sort fuel head (State h pl) = Ok (tt, State h' pl) ∧
    ring h' head l' ∧
    Sorted (le_by k) l' ∧ l ≡ₚ l' ∧ same_order_by k l l' ∧
    payload h' = payload h ∧
    (l = [] → h' = h) ∧
    (∀ z, z ∉ head :: l → nxt h' z = nxt h z ∧ prv h' z = prv h z).
Proof.
  intros Hring Hk Hfuel.
  pose proof (ring_head_not_null _ _ _ Hring) as Hhead.
  pose proof (ring_nil_iff _ _ _ Hring) as Hnil.
  pose proof (ring_path_next _ _ _ Hring) as [_ (first & Hfirst & Hpath)].
  destruct Hring as (Hnull & Hnd & HL).
  unfold q_sort. destruct (Z.eqb_spec head NULL) as [?|_]; [done|].
  rewrite (run_bind _ _ _ _ _ (run_list_empty _ _ _ _ Hfirst)).
  destruct (Z.eqb_spec first head) as [->|Hne].
  { assert (l = []) as -> by (by apply Hnil).
    exists h, []. split_and!; done. }
  destruct l as [|la l0 _] using rev_ind.
  { by destruct Hne. }
  set (l := l0 ++ [la]) in *.
  apply NoDup_cons in Hnd as [Hheadl Hnd].
  assert (NoDup l0 ∧ (la ∉ l0) ∧ head ≠ la ∧ (head ∉ l0)) as (Hnd0 & Hla0 & Hhla & Hhl0).
  { unfold l in *. apply NoDup_app in Hnd as (? & Hd & _). split_and!.
    - done.
    - intros Hin. apply (Hd la Hin), list_elem_of_here.
    - intros ->. apply Hheadl. set_solver +.
    - intros Hin. apply Hheadl. set_solver +Hin. }
  (* cutting the ring open *)
  unfold l in HL, Hpath. rewrite <- (assoc_L (++)) in HL.
  change (linked h ((head :: l0) ++ [la; head])) in HL.
  apply linked_snoc in HL as (_ & Hla & Hlast).
  apply path_snoc in Hpath as [Hpath0 _].
  set (h1 := set_next h la NULL).
  assert (payload h1 = payload h) as Hpay1 by apply payload_set_next.
  assert (chain h1 first l) as Hchain1.
  { apply path_snoc. split.
    - eapply path_ext; [|exact Hpath0]. intros z Hz.
      unfold h1. rewrite nxt_set_next_ne; [done|]. by intros ->.
    - unfold h1. rewrite nxt_set_next_eq; eauto. }
  (* sorting the chain *)
  destruct (merge_sort_spec pl fuel l h1 first)
    as (h2 & p2 & l' & Hrun2 & Hchain2 & Hsorted & Hperm & Hstab
        & Hfn2 & Hfp2 & Hpay2); [by eapply payload_null|done| |done| |done|].
  { unfold l. by destruct l0. }
  { by apply (keys_at_payload h). }
  assert (head ∉ l') as Hheadl' by (by rewrite <- Hperm).
  assert (NoDup l') as Hnd' by (by rewrite <- Hperm).
  assert (nxt h2 head = Some first) as Hfirst2.
  { rewrite Hfn2 by done. unfold h1. by rewrite nxt_set_next_ne. }
  set (h3 := set_next h2 head p2).
  assert (payload h3 = payload h) as Hpay3.
  { unfold h3. by rewrite payload_set_next, Hpay2. }
  (* rebuilding the predecessors *)
  destruct (q_sort_loop_spec pl l' head p2 h3 fuel)
    as (h4 & e & Hrun4 & Hlast4 & HL4 & Hfn4 & Hfp4 & Hpay4).
  { by eapply payload_null. }
  { unfold h3. rewrite nxt_set_next_eq; eauto. }
  { eapply chain_frame; [|exact Hchain2]. intros z Hz.
    unfold h3. rewrite nxt_set_next_ne; [done|]. by intros ->. }
  { done. }
  { done. }
  { rewrite <- Hperm. lia. }
  assert (∃ l0', l' = l0' ++ [e]) as [l0' Hl'].
  { destruct l' as [|y l'' _] using rev_ind.
    - apply Permutation_nil_r in Hperm. unfold l in Hperm. by destruct l0.
    - exists l''. rewrite app_comm_cons, last_snoc in Hlast4. by simplify_eq. }
  assert ((e ∉ head :: l0') ∧ head ≠ e) as [He Hhe].
  { rewrite Hl' in Hheadl', Hnd'. apply NoDup_app in Hnd' as (_ & Hd & _). split.
    - intros [->|Hin]%elem_of_cons.
      + apply Hheadl'. set_solver +.
      + apply (Hd e Hin), list_elem_of_here.
    - intros ->. apply Hheadl'. set_solver +. }
  assert (is_Some (nxt h4 e)) as He4.
  { rewrite Hfn4. unfold h3. rewrite nxt_set_next_ne by done.
    eapply (path_live _ _ _ _ e Hchain2). rewrite Hl'. set_solver +. }
  set (h5 := set_prev (set_next h4 e head) head e).
  exists h5, l'. split_and!.
  - run_prim. run_prim. erewrite run_bind; [|apply run_load_next; views].
    rewrite (run_bind _ _ _ _ _ Hrun2). run_prim.
    rewrite (run_bind _ _ _ _ _ Hrun4). run_prim.
    apply run_store_prev. rewrite prv_set_next. apply nxt_is_Some_prv.
    rewrite Hfn4. unfold h3. rewrite nxt_set_next_eq; eauto.
  - split_and!.
    + eapply payload_null; [|exact Hnull]. unfold h5.
      by rewrite payload_set_prev, payload_set_next, Hpay4, Hpay3.
    + by apply NoDup_cons.
    + rewrite Hl' in HL4 |- *. rewrite <- (assoc_L (++)).
      change (linked h5 ((head :: l0') ++ [e; head])).
      change (linked h4 ((head :: l0') ++ [e])) in HL4.
      apply linked_snoc. split_and!.
      * eapply linked_frame; [| |exact HL4].
        -- intros z Hz. rewrite removelast_last in Hz. unfold h5.
           rewrite nxt_set_prev, nxt_set_next_ne; [done|]. by intros ->.
        -- intros z Hz. simpl in Hz. unfold h5.
           rewrite prv_set_prev_ne, prv_set_next; [done|].
           intros ->. apply Hheadl'. by rewrite Hl'.
      * unfold h5. by rewrite nxt_set_prev, nxt_set_next_eq.
      * unfold h5. rewrite prv_set_prev_eq; [done|].
        rewrite prv_set_next. apply nxt_is_Some_prv.
        rewrite Hfn4. unfold h3. rewrite nxt_set_next_eq; eauto.
  - done.
  - done.
  - done.
  - unfold h5. by rewrite payload_set_prev, payload_set_next, Hpay4.
  - intros ?. unfold l in *. by destruct l0.
  - intros z [Hzh Hz]%not_elem_of_cons.
    assert (z ≠ la) by (intros ->; apply Hz; unfold l; set_solver +).
    assert (z ≠ e) by (intros ->; apply Hz; rewrite Hperm, Hl'; set_solver +).
    assert (z ∉ l') by (by rewrite <- Hperm).
    unfold h5. rewrite nxt_set_prev, prv_set_prev_ne, prv_set_next by done.
    rewrite nxt_set_next_ne by done. rewrite Hfn4, Hfp4 by done.
    unfold h3. rewrite nxt_set_next_ne, prv_set_next by done.
    rewrite Hfn2, Hfp2 by done.
    unfold h1. by rewrite nxt_set_next_ne, prv_set_next.
Qed.
End merge.

(** ** The merge step: bitwise OR against an explicit branch *)

Lemma run_bind_inv {A B} (m : M A) (k : A → M B) s r :
  (m ≫= k) s = Ok r → ∃ a s', m s = Ok (a, s') ∧ k a s' = Ok r.
Proof. unfold mbind, M_bind. destruct (m s) as [[a s']| |]; [eauto|done..]. Qed.

(** The loop of [merge] ends with one of the two chains exhausted. *)
Lemma merge_loop_exit fuel : ∀ head ptr L1 L2 s head' ptr' L1' L2' s',
  merge_loop fuel head ptr L1 L2 s = Ok ((head', ptr', L1', L2'), s') →
  L1' = NULL ∨ L2' = NULL.
Proof.
  induction fuel as [|fuel IH]; intros * Hrun; [done|]. simpl in Hrun.
  destruct (Z.eqb_spec L1 NULL) as [->|?].
  { injection Hrun as <- <- <- <- <-. by left. }
  destruct (Z.eqb_spec L2 NULL) as [->|?].
  { injection Hrun as <- <- <- <- <-. by right. }
  simpl in Hrun.
  apply run_bind_inv in Hrun as (vl & s1 & _ & Hrun).
  apply run_bind_inv in Hrun as (vr & s2 & _ & Hrun).
  apply run_bind_inv in Hrun as (c & s3 & _ & Hrun).
  apply run_bind_inv in Hrun as (hd' & s4 & _ & Hrun).
  apply run_bind_inv in Hrun as (nx & s5 & _ & Hrun).
  destruct (c <=? 0); by apply IH in Hrun.
Qed.

(** When both chains are non-empty at the start, exactly one of them is
    non-empty when the loop ends. *)
Lemma merge_loop_exit_one fuel : ∀ head ptr L1 L2 s head' ptr' L1' L2' s',
  L1 ≠ NULL → L2 ≠ NULL →
  merge_loop fuel head ptr L1 L2 s = Ok ((head', ptr', L1', L2'), s') →
  (L1' = NULL ∧ L2' ≠ NULL) ∨ (L1' ≠ NULL ∧ L2' = NULL).
Proof.
  induction fuel as [|fuel IH]; intros * H1 H2 Hrun; [done|]. simpl in Hrun.
  destruct (Z.eqb_spec L1 NULL) as [?|_]; [done|].
  destruct (Z.eqb_spec L2 NULL) as [?|_]; [done|].
  simpl in Hrun.
  apply run_bind_inv in Hrun as (vl & s1 & _ & Hrun).
  apply run_bind_inv in Hrun as (vr & s2 & _ & Hrun).
  apply run_bind_inv in Hrun as (c & s3 & _ & Hrun).
  apply run_bind_inv in Hrun as (hd' & s4 & _ & Hrun).
  apply run_bind_inv in Hrun as (nx & s5 & _ & Hrun).
  destruct (c <=? 0).
  - destruct (decide (nx = NULL)) as [->|?];
      [|by apply (IH hd' (PtrNext L1) nx L2 s5 head' ptr' L1' L2' s')].
    destruct fuel as [|fuel']; [done|]. simpl in Hrun.
    injection Hrun as <- <- <- <- <-. by left.
  - destruct (decide (nx = NULL)) as [->|?];
      [|by apply (IH hd' (PtrNext L2) L1 nx s5 head' ptr' L1' L2' s')].
    destruct fuel as [|fuel']; [done|]. simpl in Hrun.
    destruct (Z.eqb_spec L1 NULL) as [?|_]; [done|].
    injection Hrun as <- <- <- <- <-. by right.
Qed.

(** C5. The merge step that attaches the leftover chain by the bitwise OR of
    the two chain pointers and the one that attaches, by an explicit branch,
    whichever of the two remaining chains is non-empty, are the same
    computation: on every pair of chains and every heap they return the
    same chain and leave the same heap (or both fail alike). *)
Theorem merge_or_is_branch fuel L1 L2 s :
  merge fuel L1 L2 s = merge_branch fuel L1 L2 s.
Proof.
  unfold merge, merge_branch, merge_with, mbind, M_bind.
  destruct (merge_loop fuel NULL PtrHead L1 L2 s)
    as [[[[[head ptr] L1'] L2'] s']| |] eqn:E; [|done..].
  apply merge_loop_exit in E as [-> | ->].
  - by rewrite Z.lor_0_l.
  - rewrite Z.lor_0_r. by destruct (Z.eqb_spec L1' NULL) as [->|].
Qed.

(** ** [q_sort]: the theorems *)

Lemma queue_keys_at h head l : queue h head l → keys_at (key h) h l.
Proof.
  intros [_ Hs] a Ha. rewrite Forall_forall in Hs.
  destruct (Hs a Ha) as [v Hv]. unfold key. by rewrite Hv.
Qed.

Lemma queue_payload h h' head l l' :
  payload h' = payload h → l ≡ₚ l' → ring h' head l' →
  queue h head l → queue h' head l'.
Proof.
  intros Hpay Hperm Hring [_ Hs]. split; [done|].
  rewrite <- Hperm. eapply Forall_impl; [exact Hs|].
  intros a Ha. simpl in Ha. by rewrite (payload_str_at _ _ a Hpay).
Qed.

Lemma StronglySorted_ext (R R' : relation Z) l :
  (∀ a b, R a b → R' a b) → StronglySorted R l → StronglySorted R' l.
Proof.
  intros HR. induction 1 as [|a l _ IH Hall]; constructor; [done|].
  eapply Forall_impl; [exact Hall|]. intros b. apply HR.
Qed.

(** What [q_sort] does to a queue, in one statement. *)
Lemma q_sort_queue h pl head l fuel :
  queue h head l → (length l + 1 < fuel)%nat →
  ∃ h' l',
    q_sort fuel head (State h pl) = Ok (tt, State h' pl) ∧
    queue h' head l' ∧
    StronglySorted (str_le h') l' ∧ stable_perm h l l' ∧
    payload h' = payload h.
Proof.
  intros Hq Hfuel. pose proof Hq as [Hring _].
  destruct (q_sort_spec (key h) pl h head l fuel)
    as (h' & l' & Hrun & Hring' & Hsorted & Hperm & Hstab & Hpay & _);
    [done|by eapply queue_keys_at|done|].
  exists h', l'. split_and!; [done| | |done|done].
  - by eapply queue_payload.
  - apply (StronglySorted_ext (le_by (key h))).
    + intros a b. unfold str_le, le_by.
      by rewrite !(payload_key _ _ _ Hpay).
    + apply Sorted_StronglySorted; [apply le_by_trans|done].
Qed.

(** C4. [q_sort] reorders the elements of every queue into a non-decreasing
    sequence for the ascending lexicographic comparison of their strings
    (every element is at most every later one), and the sort is stable: the
    elements holding any given string keep their original relative order.
    On an absent queue it does nothing. *)
Theorem q_sort_sorted_stable h pl head l fuel :
  queue h head l → (length l + 1 < fuel)%nat →
  q_sort fuel NULL (State h pl) = Ok (tt, State h pl) ∧
  ∃ h' l',
    q_sort fuel head (State h pl) = Ok (tt, State h' pl) ∧
    queue h' head l' ∧
    StronglySorted (str_le h') l' ∧
    stable_perm h l l'.
Proof.
  intros Hq Hfuel. split; [done|].
  destruct (q_sort_queue h pl head l fuel) as (h' & l' & ? & ? & ? & ? & _);
    [done..|].
  by exists h', l'.
Qed.

Lemma q_sort_sorted_stable_witness :
  let s := sample [1002; 1000; 1001; 1000] in
  queue (mem s) 16 [32; 48; 64; 80] ∧ (4 + 1 < 6)%nat ∧
  q_sort 6 NULL (State (mem s) (pool s)) = Ok (tt, State (mem s) (pool s)) ∧
  ∃ h' l',
    q_sort 6 16 (State (mem s) (pool s)) = Ok (tt, State h' (pool s)) ∧
    queue h' 16 l' ∧
    StronglySorted (str_le h') l' ∧
    stable_perm (mem s) [32; 48; 64; 80] l'.
Proof.
  intros s. split; [compute_done|]. split; [lia|].
  apply (q_sort_sorted_stable (mem s) (pool s) 16 [32; 48; 64; 80] 6);
    [compute_done|simpl; lia].
Defined.

(** C10. [q_sort] keeps the elements of the queue: the nodes of the result
    are a permutation of the nodes of the input, no object is allocated or
    released and no string changes (the heaps differ by their link fields
    only).  It restores the circular doubly-linked invariant: in the result
    the predecessor of every node is the node before it, and the sentinel
    closes the ring at both ends. *)
Theorem q_sort_permutation_ring h pl head l fuel :
  queue h head l → (length l + 1 < fuel)%nat →
  ∃ h' l',
    q_sort fuel head (State h pl) = Ok (tt, State h' pl) ∧
    l ≡ₚ l' ∧
    payload h' = payload h ∧ dom h' = dom h ∧
    ring h' head l' ∧ linked h' (head :: l' ++ [head]).
Proof.
  intros Hq Hfuel.
  destruct (q_sort_queue h pl head l fuel)
    as (h' & l' & Hrun & [Hring _] & _ & [Hperm _] & Hpay); [done..|].
  exists h', l'. split_and!; [done..|by apply payload_dom|done|].
  by destruct Hring as (_ & _ & ?).
Qed.

Lemma q_sort_permutation_ring_witness :
  let s := sample [1002; 1000; 1001; 1000] in
  queue (mem s) 16 [32; 48; 64; 80] ∧ (4 + 1 < 6)%nat ∧
  ∃ h' l',
    q_sort 6 16 (State (mem s) (pool s)) = Ok (tt, State h' (pool s)) ∧
    [32; 48; 64; 80] ≡ₚ l' ∧
    payload h' = payload (mem s) ∧ dom h' = dom (mem s) ∧
    ring h' 16 l' ∧ linked h' (16 :: l' ++ [16]).
Proof.
  intros s. split; [compute_done|]. split; [lia|].
  apply (q_sort_permutation_ring (mem s) (pool s) 16 [32; 48; 64; 80] 6);
    [compute_done|simpl; lia].
Defined.

(** ** [q_reverse]: the theorem *)

(** C7. On every queue [q_reverse] reverses the sequence of the nodes, and a
    second [q_reverse] restores the original heap exactly: reversing twice
    is the identity.  It changes link fields only: no object is allocated or
    released and no string is copied or changed.  It has no effect on an
    absent queue nor on an empty one. *)
Theorem q_reverse_involutive h pl head l fuel :
  ring h head l → (length l < fuel)%nat →
  q_reverse fuel NULL (State h pl) = Ok (tt, State h pl) ∧
  ∃ h',
    q_reverse fuel head (State h pl) = Ok (tt, State h' pl) ∧
    ring h' head (reverse l) ∧
    payload h' = payload h ∧
    (l = [] → h' = h) ∧
    q_reverse fuel head (State h' pl) = Ok (tt, State h pl).
Proof.
  intros Hring Hfuel. split; [done|].
  destruct (q_reverse_ring head pl h l fuel)
    as (h' & Hrun & Hnil & Hin & Hout & Hpay); [done..|].
  assert (ring h' head (reverse l)) as Hring'.
  { destruct Hring as (Hnull & Hnd & HL). split_and!.
    - by eapply payload_null.
    - apply NoDup_cons in Hnd as [? ?]. apply NoDup_cons.
      by rewrite reverse_Permutation.
    - replace (head :: reverse l ++ [head])
        with (reverse (head :: l ++ [head]))
        by (by rewrite reverse_cons, reverse_app).
      eapply linked_rev; [|exact HL]. intros z Hz. apply Hin.
      set_solver +Hz. }
  exists h'. split_and!; [done..|].
  destruct (q_reverse_ring head pl h' (reverse l) fuel)
    as (h'' & Hrun' & _ & Hin' & Hout' & Hpay'); [done|by rewrite length_reverse|].
  replace h'' with h in Hrun'; [done|]. apply heap_ext.
  - by rewrite Hpay', Hpay.
  - intros p. destruct (decide (p ∈ head :: l)) as [Hp|Hp].
    + destruct (Hin' p) as [-> _]; [set_solver +Hp|]. by destruct (Hin p Hp) as [_ ->].
    + destruct (Hout' p) as [-> _]; [set_solver +Hp|]. by destruct (Hout p Hp) as [-> _].
  - intros p. destruct (decide (p ∈ head :: l)) as [Hp|Hp].
    + destruct (Hin' p) as [_ ->]; [set_solver +Hp|]. by destruct (Hin p Hp) as [-> _].
    + destruct (Hout' p) as [_ ->]; [set_solver +Hp|]. by destruct (Hout p Hp) as [_ ->].
Qed.

Lemma q_reverse_involutive_witness :
  let s := sample [1000; 1001; 1002] in
  ring (mem s) 16 [32; 48; 64] ∧ (3 < 4)%nat ∧
  q_reverse 4 NULL (State (mem s) (pool s)) = Ok (tt, State (mem s) (pool s)) ∧
  ∃ h',
    q_reverse 4 16 (State (mem s) (pool s)) = Ok (tt, State h' (pool s)) ∧
    ring h' 16 (reverse [32; 48; 64]) ∧
    payload h' = payload (mem s) ∧
    ([32; 48; 64] = [] → h' = mem s) ∧
    q_reverse 4 16 (State h' (pool s)) = Ok (tt, State (mem s) (pool s)).
Proof.
  intros s. split; [compute_done|]. split; [lia|].
  apply (q_reverse_involutive (mem s) (pool s) 16 [32; 48; 64] 4);
    [compute_done|simpl; lia].
Defined.

(** ** [q_swap]: the theorem *)

Lemma swap_pairs_perm {A} (l : list A) : swap_pairs l ≡ₚ l.
Proof.
  induction l as [|x|x y l IH] using pair_ind; [done..|].
  simpl. rewrite IH. apply perm_swap.
Qed.

(** C8. On every queue [q_swap] exchanges the two elements of each adjacent
    pair, pair after pair, and leaves the last element of a queue of odd
    length in place: [a;b;c;d] becomes [b;a;d;c] and [a;b;c] becomes
    [b;a;c].  It changes link fields only, and it has no effect on an absent
    queue nor on an empty one. *)
Theorem q_swap_pairs h pl head l fuel :
  ring h head l → (length l < fuel)%nat →
  q_swap fuel NULL (State h pl) = Ok (tt, State h pl) ∧
  (∃ h',
    q_swap fuel head (State h pl) = Ok (tt, State h' pl) ∧
    ring h' head (swap_pairs l) ∧
    payload h' = payload h ∧
    (l = [] → h' = h)) ∧
  (∀ a b c d : Z, swap_pairs [a; b; c; d] = [b; a; d; c]) ∧
  (∀ a b c : Z, swap_pairs [a; b; c] = [b; a; c]).
Proof.
  intros Hring Hfuel. split_and!; [done| |done..].
  pose proof (ring_head_not_null _ _ _ Hring) as Hhead.
  pose proof (ring_nil_iff _ _ _ Hring) as Hnil.
  pose proof (ring_path_next _ _ _ Hring) as [_ (first & Hfirst & _)].
  destruct Hring as (Hnull & Hnd & HL).
  unfold q_swap. destruct (Z.eqb_spec head NULL) as [?|_]; [done|].
  rewrite (run_bind _ _ _ _ _ (run_list_empty _ _ _ _ Hfirst)).
  destruct (Z.eqb_spec first head) as [->|Hne].
  { assert (l = []) as -> by (by apply Hnil). exists h. done. }
  destruct (q_swap_loop_spec head pl l [] [] head h fuel)
    as (h' & Hrun & HL' & Hpay); [done..|].
  exists h'. split_and!; [done| |done|].
  - split_and!; [by eapply payload_null| |done].
    by rewrite swap_pairs_perm.
  - intros ->. assert (nxt h head = Some head) by (by apply Hnil). congruence.
Qed.

Lemma q_swap_pairs_witness :
  let s := sample [1000; 1001; 1002] in
  ring (mem s) 16 [32; 48; 64] ∧ (3 < 4)%nat ∧
  q_swap 4 NULL (State (mem s) (pool s)) = Ok (tt, State (mem s) (pool s)) ∧
  (∃ h',
    q_swap 4 16 (State (mem s) (pool s)) = Ok (tt, State h' (pool s)) ∧
    ring h' 16 (swap_pairs [32; 48; 64]) ∧
    payload h' = payload (mem s) ∧
    ([32; 48; 64] = [] → h' = mem s)) ∧
  (∀ a b c d : Z, swap_pairs [a; b; c; d] = [b; a; d; c]) ∧
  (∀ a b c : Z, swap_pairs [a; b; c] = [b; a; c]).
Proof.
  intros s. split; [compute_done|]. split; [lia|].
  apply (q_swap_pairs (mem s) (pool s) 16 [32; 48; 64] 4);
    [compute_done|simpl; lia].
Defined.

(** ** Allocation failure in [q_delete_dup] *)

Lemma run_malloc_fails h pl init :
  alloc_fails h pl → malloc init (State h pl) = Ok (NULL, State h (tail pl)).
Proof.
  unfold malloc, alloc_fails. destruct pl as [|p pl]; simpl; [done|].
  intros Hp. rewrite bool_decide_eq_false_2; [done|].
  intros [? Hfree]. destruct Hp as [?|[? ?]]; [done|congruence].
Qed.

Lemma run_malloc_gives h pl p init :
  alloc_gives h pl p →
  malloc init (State h pl) = Ok (p, State (<[p := init]> h) (tail pl)).
Proof.
  unfold malloc, alloc_gives. destruct pl as [|p' pl]; simpl; [by intros [? _]|].
  intros ([= ->] & ? & ?). by rewrite bool_decide_eq_true_2.
Qed.

(** C9. [q_delete_dup] can fail on a queue that is neither absent nor empty:
    on every non-empty queue, when the allocation of its scratch ring fails
    it returns false and leaves the heap as it was. *)
Theorem q_delete_dup_alloc_failure fuel h pl head l :
  queue h head l → l ≠ [] → alloc_fails h pl →
  q_delete_dup fuel head (State h pl) = Ok (false, State h (tail pl)).
Proof.
  intros [Hring _] Hne Hfail.
  pose proof (ring_head_not_null _ _ _ Hring) as Hhead.
  pose proof (ring_nil_iff _ _ _ Hring) as Hnil.
  pose proof (ring_path_next _ _ _ Hring) as [_ (first & Hfirst & _)].
  unfold q_delete_dup. destruct (Z.eqb_spec head NULL) as [?|_]; [done|].
  rewrite (run_bind _ _ _ _ _ (run_list_empty _ _ _ _ Hfirst)).
  destruct (Z.eqb_spec first head) as [->|_]; [by destruct Hne; apply Hnil|].
  unfold q_new, malloc_list_head. rewrite run_assoc.
  by rewrite (run_bind _ _ _ _ _ (run_malloc_fails _ _ _ Hfail)).
Qed.

Lemma q_delete_dup_alloc_failure_witness :
  let s := sample [1000; 1000; 1001] in
  queue (mem s) 16 [32; 48; 64] ∧ [32; 48; 64] ≠ [] ∧
  alloc_fails (mem s) [] ∧
  q_delete_dup 4 16 (State (mem s) []) = Ok (false, State (mem s) []).
Proof.
  intros s. split; [compute_done|]. split; [done|]. split; [done|].
  apply (q_delete_dup_alloc_failure 4 (mem s) [] 16 [32; 48; 64]);
    [compute_done|done|done].
Defined.

(** ** Where the code departs from its contract *)

(** C1. On a queue of six elements [q_delete_mid] deletes the element at
    index 2, the third one, and not the one at index 3 that the contract
    names: the fast pointer starts one node ahead of the slow one.  On
    queues of two and of four elements it deletes the elements at indices
    0 and 1. *)
Theorem q_delete_mid_six :
  let s := sample [1000; 1001; 1002; 1003; 1004; 1005] in
  q_strings 7 (mem s) 16
    = Some (list_byte_of_string <$> ["a"; "b"; "c"; "d"; "e"; "f"]%string) ∧
  (∃ s', q_delete_mid 7 16 s = Ok (true, s') ∧
         q_strings 7 (mem s') 16
           = Some (list_byte_of_string <$> ["a"; "b"; "d"; "e"; "f"]%string)) ∧
  (∃ s', q_delete_mid 7 16 (sample [1000; 1001]) = Ok (true, s') ∧
         q_strings 7 (mem s') 16 = Some (list_byte_of_string <$> ["b"]%string)) ∧
  (∃ s', q_delete_mid 7 16 (sample [1000; 1001; 1002; 1003]) = Ok (true, s') ∧
         q_strings 7 (mem s') 16
           = Some (list_byte_of_string <$> ["a"; "c"; "d"]%string)).
Proof.
  intros s. split; [by vm_compute|].
  split_and!; eexists; (split; [by vm_compute|by vm_compute]).
Qed.

(** C2. On the sorted queue ["a"; "a"; "b"; "c"; "c"], [q_delete_dup] leaves
    ["b"; "c"] and not ["b"]: the walk stops at the last element without
    looking at the pending deletion, so that a copy of a value duplicated at
    the end of the queue stays. *)
Theorem q_delete_dup_trailing :
  let s := sample [1000; 1000; 1001; 1002; 1002] in
  q_strings 7 (mem s) 16
    = Some (list_byte_of_string <$> ["a"; "a"; "b"; "c"; "c"]%string) ∧
  ∃ s', q_delete_dup 7 16 s = Ok (true, s') ∧
        q_strings 7 (mem s') 16
          = Some (list_byte_of_string <$> ["b"; "c"]%string).
Proof.
  intros s. split; [by vm_compute|].
  eexists. split; by vm_compute.
Qed.

(** C3. With the string ["a"] at the head of the queue and a buffer of 8
    bytes, [q_remove_head] and [q_remove_tail] read 7 bytes from the 2-byte
    array of the string: the copy is not bounded by the length of the
    string, and the behaviour is undefined.  With [bufsize = 0] the length
    of the copy wraps around to [SIZE_MAX]. *)
Theorem q_remove_overread :
  let s := sample [1000] in
  let s_sp := State (<[2000 := ObjChars (replicate 8 junk_byte)]> (mem s)) (pool s) in
  q_strings 7 (mem s_sp) 16 = Some [list_byte_of_string "a"] ∧
  q_remove_head 16 2000 8 s_sp = Fault ∧
  q_remove_tail 16 2000 8 s_sp = Fault ∧
  q_remove_head 16 2000 0 s_sp = Fault ∧
  q_remove_tail 16 2000 0 s_sp = Fault.
Proof. intros s s_sp. split_and!; by vm_compute. Qed.

(** ** The insertions *)

Section heap_updates.
Implicit Types (h : gmap Z object) (p q v : Z) (o : object).

Lemma nxt_insert h p q o :
  nxt (<[p := o]> h) q
  = if decide (p = q) then next <$> obj_link o else nxt h q.
Proof. unfold nxt. rewrite lookup_insert. by case_decide. Qed.

Lemma prv_insert h p q o :
  prv (<[p := o]> h) q
  = if decide (p = q) then prev <$> obj_link o else prv h q.
Proof. unfold prv. rewrite lookup_insert. by case_decide. Qed.

Lemma chars_insert h p q o :
  chars (<[p := o]> h) q
  = if decide (p = q) then match o with ObjChars b => Some b | _ => None end
    else chars h q.
Proof. unfold chars. rewrite lookup_insert. by case_decide. Qed.

Lemma val_insert h p q o :
  val (<[p := o]> h) q
  = if decide (p = q)
    then match o with ObjElem e => Some (value e) | _ => None end
    else val h q.
Proof. unfold val. rewrite lookup_insert. by case_decide. Qed.

Lemma payload_insert h p o :
  payload (<[p := o]> h) = <[p := erase_link o]> (payload h).
Proof. unfold payload. apply fmap_insert. Qed.

Lemma payload_delete h p : payload (delete p h) = delete p (payload h).
Proof. unfold payload. apply fmap_delete. Qed.

Lemma chars_live h p b : chars h p = Some b → is_Some (h !! p).
Proof. unfold chars. destruct (h !! p); [eauto|done]. Qed.
End heap_updates.

Section c_strings.
Implicit Types (b r : list byte) (n : nat).

Lemma nul_index_spec b n :
  nul_index b = Some n →
  (n < length b)%nat ∧ c_str b = take n b ∧ x00 ∉ take n b.
Proof.
  revert n. induction b as [|c b IH]; intros n; simpl; [done|].
  destruct (byte_eqb_spec c x00) as [->|Hc].
  - intros [= <-]. simpl. split_and!; [lia|done|]. apply not_elem_of_nil.
  - destruct (nul_index b) as [m|]; [|done]. intros [= <-].
    destruct (IH m eq_refl) as (? & -> & ?). simpl.
    split_and!; [lia|done|]. by apply not_elem_of_cons.
Qed.

Lemma nul_index_app b r :
  x00 ∉ b → nul_index (b ++ x00 :: r) = Some (length b) ∧
            c_str (b ++ x00 :: r) = b.
Proof.
  induction b as [|c b IH]; simpl; [done|].
  intros [Hc Hb]%not_elem_of_cons.
  destruct (byte_eqb_spec c x00) as [->|_]; [done|].
  destruct (IH Hb) as [-> ->]. done.
Qed.
End c_strings.

Section insert_with.
Implicit Types (h : gmap Z object) (pl l : list Z) (b : list byte).

Lemma run_strlen h pl s b n :
  chars h s = Some b → nul_index b = Some n →
  strlen s (State h pl) = Ok (Z.of_nat n, State h pl).
Proof. intros Hs Hn. unfold strlen. simpl. by rewrite Hs; simpl; rewrite Hn. Qed.

Lemma run_free h pl p :
  p ≠ NULL → is_Some (h !! p) →
  free p (State h pl) = Ok (tt, State (delete p h) pl).
Proof.
  intros Hp [o Ho]. unfold free.
  destruct (Z.eqb_spec p NULL) as [?|_]; [done|]. simpl. by rewrite Ho.
Qed.

(** The first allocation fails. *)
Lemma insert_with_no_element splice h pl s :
  alloc_fails h pl →
  insert_with splice s (State h pl) = Ok (false, State h (tail pl)).
Proof.
  intros Hfail. unfold insert_with, malloc_element.
  by rewrite (run_bind _ _ _ _ _ (run_malloc_fails _ _ _ Hfail)).
Qed.

(** The second allocation fails: the element is released, and the heap is
    the one before the call. *)
Lemma insert_with_no_chars splice h pl s b n e :
  chars h s = Some b → nul_index b = Some n →
  INT_MIN ≤ to_int (Z.of_nat n) + 1 ≤ INT_MAX →
  alloc_gives h pl e → alloc_fails (<[e := junk_element]> h) (tail pl) →
  insert_with splice s (State h pl) = Ok (false, State h (tail (tail pl))).
Proof.
  intros Hs Hn Hlen Hgives Hfail. pose proof Hgives as (_ & He & Hfree).
  assert (e ≠ s) as Hes.
  { intros ->. apply chars_live in Hs as [? ?]. congruence. }
  unfold insert_with, malloc_element, malloc_chars.
  rewrite (run_bind _ _ _ _ _ (run_malloc_gives _ _ _ _ Hgives)).
  destruct (Z.eqb_spec e NULL) as [?|_]; [done|].
  erewrite run_bind; last first.
  { eapply run_strlen; [|done]. by rewrite chars_insert, decide_False. }
  unfold int_add. rewrite bool_decide_eq_true_2 by done.
  erewrite run_bind; [|done].
  rewrite (run_bind _ _ _ _ _ (run_malloc_fails _ _ _ Hfail)).
  unfold store_value. unfold mbind at 1, M_bind at 1. simpl.
  rewrite val_insert, decide_True by done. simpl.
  erewrite run_bind; last first.
  { apply run_free; [done|]. rewrite lookup_alter_eq, lookup_insert_eq. eauto. }
  unfold mret, M_ret. do 3 f_equal.
  rewrite delete_alter_eq, delete_insert_eq. by apply delete_id.
Qed.

(** Both allocations succeed: the new element holds the first [str_len]
    characters of the string and a terminator, where [str_len] is the
    length of the string converted to [int]; it is then spliced. *)
Lemma insert_with_element splice h pl s b n e v :
  let str_len := to_int (Z.of_nat n) in
  chars h s = Some b → nul_index b = Some n →
  0 ≤ str_len ≤ Z.of_nat n → str_len + 1 ≤ INT_MAX →
  alloc_gives h pl e → alloc_gives (<[e := junk_element]> h) (tail pl) v →
  insert_with splice s (State h pl)
  = (splice e;; mret true)
      (State (with_element h e v (take (Z.to_nat str_len) b ++ [x00]))
             (tail (tail pl))).
Proof.
  intros k Hs Hn Hk Hmax Hgives Hgives'.
  pose proof Hgives as (_ & He & Hfree).
  pose proof Hgives' as (_ & Hv & Hfree').
  apply lookup_insert_None in Hfree' as [Hfree' Hev].
  destruct (nul_index_spec b n Hn) as (Hnb & _ & _).
  assert (e ≠ s) as Hes.
  { intros ->. apply chars_live in Hs as [? ?]. congruence. }
  assert (v ≠ s) as Hvs.
  { intros ->. apply chars_live in Hs as [? ?]. congruence. }
  assert (to_size_t k = k) as Hsz.
  { unfold to_size_t, SIZE_MODULUS. unfold INT_MAX in Hmax.
    apply Z.mod_small. lia. }
  assert (to_size_t (k + 1) = k + 1) as Hsz'.
  { unfold to_size_t, SIZE_MODULUS. unfold INT_MAX in Hmax.
    apply Z.mod_small. lia. }
  unfold insert_with, malloc_element, malloc_chars.
  rewrite (run_bind _ _ _ _ _ (run_malloc_gives _ _ _ _ Hgives)).
  destruct (Z.eqb_spec e NULL) as [?|_]; [done|].
  erewrite run_bind; last first.
  { eapply run_strlen; [|done]. by rewrite chars_insert, decide_False. }
  fold k. unfold int_add.
  rewrite bool_decide_eq_true_2 by (unfold INT_MIN; lia).
  erewrite run_bind; [|done]. rewrite Hsz, Hsz'.
  rewrite (run_bind _ _ _ _ _ (run_malloc_gives _ _ _ _ Hgives')).
  unfold store_value. unfold mbind at 1, M_bind at 1. simpl.
  rewrite val_insert, decide_False, val_insert, decide_True by done. simpl.
  destruct (Z.eqb_spec v NULL) as [?|_]; [done|].
  unfold memcpy. unfold mbind at 1, M_bind at 1. simpl.
  unfold chars at 1. rewrite lookup_alter_ne, lookup_insert_eq by done.
  unfold chars at 1.
  rewrite lookup_alter_ne, !lookup_insert_ne by done.
  fold (chars h s). rewrite Hs.
  rewrite length_replicate, bool_decide_eq_true_2 by lia.
  unfold store_char. unfold mbind at 1, M_bind at 1. simpl.
  rewrite chars_insert, decide_True by done.
  rewrite drop_replicate.
  replace (Z.to_nat (k + 1) - Z.to_nat k)%nat with 1%nat by lia. simpl.
  rewrite length_app, length_take_le by lia. simpl.
  rewrite bool_decide_eq_true_2 by lia.
  replace (Z.to_nat k) with (length (take (Z.to_nat k) b) + 0)%nat at 1
    by (rewrite length_take_le; lia).
  rewrite insert_app_r. simpl.
  f_equal. f_equal. unfold with_element.
  rewrite alter_insert_ne, alter_insert_eq by done.
  by rewrite !insert_insert_eq.
Qed.
End insert_with.

Section splice.
Implicit Types (h : gmap Z object) (pl l : list Z).

Lemma ring_live h head l z : ring h head l → z ∈ head :: l → is_Some (nxt h z).
Proof. intros Hring. by apply (path_live _ _ _ _ z (ring_path_next _ _ _ Hring)). Qed.

Lemma ring_frame h h' head l :
  ring h head l → h' !! NULL = None →
  (∀ z, z ∈ head :: l → nxt h' z = nxt h z ∧ prv h' z = prv h z) →
  ring h' head l.
Proof.
  intros (_ & Hnd & HL) Hnull Hsame. split_and!; [done..|].
  eapply linked_frame; [| |exact HL].
  - intros z Hz. symmetry. apply Hsame.
    change (head :: l ++ [head]) with ((head :: l) ++ [head]) in Hz.
    by rewrite removelast_last in Hz.
  - intros z Hz. simpl in Hz. symmetry. apply Hsame. set_solver +Hz.
Qed.

(** [list_add] links a new node at the head of a ring, and touches no
    other node. *)
Lemma list_add_ring_frame h pl head l e :
  ring h head l → is_Some (nxt h e) → e ∉ head :: l →
  ∃ h', list_add e head (State h pl) = Ok (tt, State h' pl) ∧
        ring h' head (e :: l) ∧ payload h' = payload h ∧
        (∀ z, z ∉ head :: e :: l →
              nxt h' z = nxt h z ∧ prv h' z = prv h z).
Proof.
  intros Hring He Hfresh.
  pose proof (ring_path_next _ _ _ Hring) as [_ (first & Hfirst & _)].
  destruct Hring as (Hnull & Hnd & HL).
  apply not_elem_of_cons in Hfresh as [Heh Hel].
  pose proof Hnd as [Hhl Hndl]%NoDup_cons.
  assert (∃ C, l ++ [head] = first :: C ∧ first ≠ e ∧ (first ∉ C) ∧
               (∀ z, z ∈ C → z ∈ l ∨ z = head) ∧
               removelast (first :: C) = l) as (C & HC & Hfe & HfC & HCsub & Hrl).
  { destruct l as [|c l']; simpl in HL; destruct HL as (Hn & _).
    - exists []. rewrite Hfirst in Hn. injection Hn as ->.
      split_and!; [done|done|apply not_elem_of_nil|set_solver +|done].
    - exists (l' ++ [head]). rewrite Hfirst in Hn. injection Hn as ->.
      apply NoDup_cons in Hndl as [? ?].
      split_and!; [done|set_solver +Hel| |set_solver +|].
      + intros [?| ->%list_elem_of_singleton]%elem_of_app; [done|].
        apply Hhl, list_elem_of_here.
      + rewrite app_comm_cons. apply removelast_last. }
  simpl in HL. rewrite HC in HL. destruct HL as (_ & Hfirst' & HLC).
  assert (is_Some (prv h e)) as He' by (by apply nxt_is_Some_prv).
  destruct He as [en Hen]. destruct He' as [ep Hep].
  assert (is_Some (prv h head)) as [hp Hhp] by (apply nxt_is_Some_prv; eauto).
  eexists. split_and!.
  - unfold list_add. do 4 run_prim. run_prim.
  - split_and!; [| |].
    + eapply payload_null; [|exact Hnull]. views.
    + apply NoDup_cons. split.
      { apply not_elem_of_cons. split; [congruence|done]. }
      by apply NoDup_cons.
    + simpl. rewrite HC. split_and!; [views..|].
      eapply linked_frame; [| |exact HLC].
      * intros z Hz. rewrite Hrl in Hz.
        assert (head ≠ z) by (by intros ->).
        assert (e ≠ z) by (by intros ->). views.
      * intros z Hz. simpl in Hz.
        assert (first ≠ z) by (by intros ->).
        assert (e ≠ z).
        { intros ->. destruct (HCsub _ Hz) as [?| ->]; done. }
        views.
  - views.
  - intros z Hz.
    assert (head ≠ z) by (intros ->; apply Hz; set_solver +).
    assert (e ≠ z) by (intros ->; apply Hz; set_solver +).
    assert (first ≠ z).
    { intros ->. apply Hz.
      assert (z ∈ l ++ [head]) as Hin by (rewrite HC; set_solver +).
      set_solver +Hin. }
    split; views.
Qed.

Lemma list_add_ring h pl head l e :
  ring h head l → is_Some (nxt h e) → e ∉ head :: l →
  ∃ h', list_add e head (State h pl) = Ok (tt, State h' pl) ∧
        ring h' head (e :: l) ∧ payload h' = payload h.
Proof.
  intros Hring He Hfresh.
  destruct (list_add_ring_frame h pl head l e) as (h' & ? & ? & ? & _);
    [done..|by exists h'].
Qed.

(** [list_add_tail] links a new node at the tail of a ring. *)
Lemma list_add_tail_ring h pl head l e :
  ring h head l → is_Some (nxt h e) → e ∉ head :: l →
  ∃ h', list_add_tail e head (State h pl) = Ok (tt, State h' pl) ∧
        ring h' head (l ++ [e]) ∧ payload h' = payload h.
Proof.
  intros Hring He Hfresh.
  destruct Hring as (Hnull & Hnd & HL).
  assert (∃ A la, head :: l = A ++ [la]) as (A & la & HA).
  { destruct l as [|x l0 _] using rev_ind.
    - by exists [], head.
    - by exists (head :: l0), x. }
  assert (la ∈ head :: l) as Hla by (rewrite HA; set_solver +).
  assert (la ≠ e) by (by intros ->).
  assert (head ≠ e) by (intros ->; apply Hfresh, list_elem_of_here).
  change (head :: l ++ [head]) with ((head :: l) ++ [head]) in HL.
  rewrite HA, <- (assoc_L (++)) in HL.
  change (linked h (A ++ [la; head])) in HL.
  apply linked_snoc in HL as (HLA & Hlan & Hhp).
  assert (is_Some (prv h e)) as He' by (by apply nxt_is_Some_prv).
  destruct He as [en Hen]. destruct He' as [ep Hep].
  assert (is_Some (nxt h head)) as [hn Hhn] by (apply nxt_is_Some_prv; eauto).
  eexists. split_and!.
  - unfold list_add_tail. do 4 run_prim. run_prim.
  - split_and!.
    + eapply payload_null; [|exact Hnull]. views.
    + apply NoDup_cons in Hnd as [Hhl Hndl]. apply NoDup_cons. split.
      * intros [?| ->%list_elem_of_singleton]%elem_of_app; done.
      * apply NoDup_app. split_and!; [done| |apply NoDup_singleton].
        intros z Hz ->%list_elem_of_singleton. apply Hfresh. set_solver +Hz.
    + rewrite <- (assoc_L (++) l).
      change (head :: l ++ [e] ++ [head]) with ((head :: l) ++ [e; head]).
      rewrite HA, <- (assoc_L (++)).
      apply (linked_app _ A la [e; head]). split; [|simpl; split_and!; views].
      eapply linked_frame; [| |exact HLA].
      * intros z Hz. rewrite removelast_last in Hz.
        assert (z ∈ head :: l) by (rewrite HA; set_solver +Hz).
        assert (e ≠ z) by (by intros ->).
        assert (la ≠ z).
        { intros ->. rewrite HA in Hnd.
          apply NoDup_app in Hnd as (_ & Hd & _).
          apply (Hd z Hz), list_elem_of_here. }
        views.
      * intros z Hz.
        assert (z ∈ l) as Hzl.
        { change l with (tail (head :: l)). by rewrite HA. }
        assert (e ≠ z) by (intros ->; apply Hfresh; set_solver +Hzl).
        assert (head ≠ z).
        { intros ->. by apply NoDup_cons in Hnd as [? _]. }
        views.
  - views.
Qed.
End splice.

Section with_element.
Implicit Types (h : gmap Z object) (cs : list byte).

Lemma with_element_nxt h e v cs z :
  z ≠ e → z ≠ v →
  nxt (with_element h e v cs) z = nxt h z ∧
  prv (with_element h e v cs) z = prv h z.
Proof.
  intros. unfold with_element.
  by rewrite !nxt_insert, !prv_insert, !decide_False.
Qed.

Lemma with_element_link h e v cs :
  e ≠ v → is_Some (nxt (with_element h e v cs) e).
Proof.
  intros. unfold with_element.
  rewrite nxt_insert, decide_False, nxt_insert, decide_True by done. eauto.
Qed.

Lemma with_element_val h e v cs :
  e ≠ v → val (with_element h e v cs) e = Some v.
Proof.
  intros. unfold with_element.
  by rewrite val_insert, decide_False, val_insert, decide_True.
Qed.

Lemma with_element_chars h e v cs :
  chars (with_element h e v cs) v = Some cs.
Proof. unfold with_element. by rewrite chars_insert, decide_True. Qed.

Lemma with_element_payload h e v cs :
  payload (with_element h e v cs)
  = <[v := ObjChars cs]>
      (<[e := ObjElem (Element v (ListHead NULL NULL))]> (payload h)).
Proof. unfold with_element. by rewrite !payload_insert. Qed.
End with_element.

(** ** [q_insert_head] and [q_insert_tail]: what holds, and for which strings *)

Section insert_spec.
Context (splice : Z → Z → M unit) (place : list Z → Z → list Z).
Context (splice_ring : ∀ h pl head l e,
  ring h head l → is_Some (nxt h e) → e ∉ head :: l →
  ∃ h', splice e head (State h pl) = Ok (tt, State h' pl) ∧
        ring h' head (place l e) ∧ payload h' = payload h).
Implicit Types (h : gmap Z object) (pl l : list Z) (b : list byte).

(** The three ways an insertion into a queue can go, by the outcome of its
    two allocations, for a string whose length converted to [int] is
    [str_len]. *)
Lemma insert_with_spec h pl head s l b n :
  let str_len := to_int (Z.of_nat n) in
  ring h head l → chars h s = Some b → nul_index b = Some n →
  0 ≤ str_len ≤ Z.of_nat n → str_len + 1 ≤ INT_MAX →
  (alloc_fails h pl →
   insert_with (λ e, splice e head) s (State h pl)
   = Ok (false, State h (tail pl))) ∧
  (∀ e, alloc_gives h pl e →
        alloc_fails (<[e := junk_element]> h) (tail pl) →
        insert_with (λ e, splice e head) s (State h pl)
        = Ok (false, State h (tail (tail pl)))) ∧
  (∀ e v, alloc_gives h pl e →
          alloc_gives (<[e := junk_element]> h) (tail pl) v →
          ∃ h', insert_with (λ e, splice e head) s (State h pl)
                = Ok (true, State h' (tail (tail pl))) ∧
                ring h' head (place l e) ∧
                val h' e = Some v ∧
                chars h' v = Some (take (Z.to_nat str_len) b ++ [x00]) ∧
                payload h'
                = <[v := ObjChars (take (Z.to_nat str_len) b ++ [x00])]>
                    (<[e := ObjElem (Element v (ListHead NULL NULL))]>
                       (payload h))).
Proof.
  intros k Hring Hs Hn Hk Hmax. split_and!.
  - apply insert_with_no_element.
  - intros e. eapply insert_with_no_chars; [done..|].
    fold k. unfold INT_MIN. lia.
  - intros e v Hgives Hgives'.
    pose proof Hgives as (_ & He & Hfree).
    pose proof Hgives' as (_ & Hv & Hfree').
    apply lookup_insert_None in Hfree' as [Hfree' Hev].
    set (cs := take (Z.to_nat k) b ++ [x00]).
    assert (∀ z, z ∈ head :: l → z ≠ e ∧ z ≠ v) as Hold.
    { intros z Hz. apply (ring_live _ _ _ _ Hring) in Hz as [w Hw].
      apply nxt_Some_live in Hw as [o Ho]. split; intros ->; congruence. }
    destruct (splice_ring (with_element h e v cs) (tail (tail pl)) head l e)
      as (h' & Hrun & Hring' & Hpay).
    { apply (ring_frame h); [done| |].
      - unfold with_element. rewrite !lookup_insert_ne by done.
        by destruct Hring.
      - intros z Hz. destruct (Hold z Hz). by apply with_element_nxt. }
    { by apply with_element_link. }
    { intros Hin. by destruct (Hold e Hin). }
    exists h'. split_and!.
    + rewrite (insert_with_element _ h pl s b n e v) by done.
      fold k. fold cs. by rewrite (run_bind _ _ _ _ _ Hrun).
    + done.
    + rewrite (payload_val _ _ _ Hpay). by apply with_element_val.
    + rewrite (payload_chars _ _ _ Hpay). by apply with_element_chars.
    + rewrite Hpay. apply with_element_payload.
Qed.
End insert_spec.

Lemma to_int_small n : INT_MIN ≤ n ≤ INT_MAX → to_int n = n.
Proof.
  unfold to_int, INT_MIN, INT_MAX. intros. rewrite Z.mod_small; lia.
Qed.

Lemma q_insert_head_unfold head s :
  q_insert_head head s
  = if (head =? NULL) || (s =? NULL) then mret false
    else insert_with (λ e, list_add e head) s.
Proof. reflexivity. Qed.

Lemma q_insert_tail_unfold head s :
  q_insert_tail head s
  = if (head =? NULL) || (s =? NULL) then mret false
    else insert_with (λ e, list_add_tail e head) s.
Proof. reflexivity. Qed.

Section insert_in_range.
Context (ins : Z → Z → M bool) (splice : Z → Z → M unit)
        (place : list Z → Z → list Z).
Context (ins_unfold : ∀ head s,
  ins head s = if (head =? NULL) || (s =? NULL) then mret false
               else insert_with (λ e, splice e head) s).
Context (splice_ring : ∀ h pl head l e,
  ring h head l → is_Some (nxt h e) → e ∉ head :: l →
  ∃ h', splice e head (State h pl) = Ok (tt, State h' pl) ∧
        ring h' head (place l e) ∧ payload h' = payload h).

Lemma insert_in_range h pl head s l b n :
  ring h head l → chars h s = Some b → nul_index b = Some n →
  Z.of_nat n < INT_MAX →
  insert_outcome ins place h pl head s l b.
Proof.
  intros Hring Hs Hn Hlen.
  pose proof (ring_head_not_null _ _ _ Hring) as Hhead.
  assert (s ≠ NULL) as Hsn.
  { intros ->. apply chars_live in Hs as [? Hs]. destruct Hring as [Hnull _].
    congruence. }
  assert (to_int (Z.of_nat n) = Z.of_nat n) as Hint.
  { apply to_int_small. unfold INT_MIN. lia. }
  destruct (nul_index_spec b n Hn) as (Hnb & Hcstr & Hnonul).
  destruct (insert_with_spec splice place splice_ring h pl head s l b n)
    as (H1 & H2 & H3); [done..|rewrite Hint; lia|rewrite Hint; lia|].
  rewrite Hint, Nat2Z.id, <- Hcstr in H3.
  assert (ins head s = insert_with (λ e, splice e head) s) as Hins.
  { rewrite ins_unfold. destruct (Z.eqb_spec head NULL) as [?|_]; [done|].
    by destruct (Z.eqb_spec s NULL) as [?|_]. }
  unfold insert_outcome. rewrite Hins. split_and!; [| |done|done|].
  - by rewrite ins_unfold.
  - rewrite ins_unfold, Z.eqb_refl. by rewrite orb_true_r.
  - intros e v Hgives Hgives'.
    destruct (H3 e v Hgives Hgives') as (h' & ? & ? & Hval & Hchars & ?).
    exists h'. split_and!; [done..| |done|done|done].
    unfold str_at. rewrite Hval. simpl. rewrite Hchars. simpl.
    rewrite Hcstr in *. destruct (nul_index_app (take n b) [] Hnonul) as [-> ->].
    done.
Qed.
End insert_in_range.

(** For every string shorter than [INT_MAX] bytes both insertions do what
    their contract says: they fail exactly on an absent queue, an absent
    string or a failed allocation, and leave the heap untouched then (the
    element is released when only the second allocation fails); otherwise
    the new element owns a new array of exactly the length of the string plus
    one, holding the string, and is the first, respectively the last, node
    of the ring. *)
Lemma q_insert_head_in_range h pl head s l b n :
  ring h head l → chars h s = Some b → nul_index b = Some n →
  Z.of_nat n < INT_MAX →
  insert_outcome q_insert_head (λ l e, e :: l) h pl head s l b.
Proof.
  apply (insert_in_range q_insert_head list_add (λ l e, e :: l)).
  - apply q_insert_head_unfold.
  - intros. by apply list_add_ring.
Qed.

Lemma q_insert_tail_in_range h pl head s l b n :
  ring h head l → chars h s = Some b → nul_index b = Some n →
  Z.of_nat n < INT_MAX →
  insert_outcome q_insert_tail (λ l e, l ++ [e]) h pl head s l b.
Proof.
  apply (insert_in_range q_insert_tail list_add_tail (λ l e, l ++ [e])).
  - apply q_insert_tail_unfold.
  - intros. by apply list_add_tail_ring.
Qed.

(** ** A string that the insertions truncate *)

Lemma huge_spec : Z.of_nat huge = 2 ^ 32.
Proof. unfold huge. apply Z2Nat.id. lia. Qed.

Section truncation.
Context (n : nat) (n_spec : Z.of_nat n = 2 ^ 32).
Context (ins : Z → Z → M bool) (splice : Z → Z → M unit)
        (place : list Z → Z → list Z).
Context (ins_unfold : ∀ head s,
  ins head s = if (head =? NULL) || (s =? NULL) then mret false
               else insert_with (λ e, splice e head) s).
Context (splice_ring : ∀ h pl head l e,
  ring h head l → is_Some (nxt h e) → e ∉ head :: l →
  ∃ h', splice e head (State h pl) = Ok (tt, State h' pl) ∧
        ring h' head (place l e) ∧ payload h' = payload h).

Let long : list byte := replicate n "a"%byte ++ [x00].
Let h0 : gmap Z object := <[1000 := ObjChars long]> (mem (sample [])).

Lemma long_nul_index : nul_index long = Some n ∧ c_str long = replicate n "a"%byte.
Proof.
  unfold long.
  destruct (nul_index_app (replicate n "a"%byte) []) as [-> ->].
  - intros Hin. by apply elem_of_replicate in Hin as [? _].
  - by rewrite length_replicate.
Qed.

Lemma insert_truncates :
  strlen 1000 (State h0 [32; 33]) = Ok (2 ^ 32, State h0 [32; 33]) ∧
  ∃ h', ins 16 1000 (State h0 [32; 33]) = Ok (true, State h' []) ∧
        ring h' 16 (place [] 32) ∧
        chars h' 33 = Some [x00] ∧
        str_at h' 32 = Some [].
Proof.
  destruct long_nul_index as [Hn Hc].
  assert (chars h0 1000 = Some long) as Hs.
  { unfold h0. by rewrite chars_insert, decide_True. }
  assert (∀ p, p ≠ 1000 → h0 !! p = mem (sample []) !! p) as Hh0.
  { intros p Hp. unfold h0. by rewrite lookup_insert_ne. }
  assert (ring h0 16 []) as Hring.
  { apply (ring_frame (mem (sample []))); [compute_done|by rewrite Hh0| ].
    intros z ->%list_elem_of_singleton. unfold h0.
    by rewrite nxt_insert, prv_insert, !decide_False. }
  assert (to_int (Z.of_nat n) = 0) as Hint by (by rewrite n_spec).
  split.
  { rewrite <- n_spec. by apply (run_strlen _ _ _ long). }
  destruct (insert_with_spec splice place splice_ring h0 [32; 33] 16 1000 [] long n)
    as (_ & _ & H3); [done..|rewrite Hint; lia|by rewrite Hint|].
  destruct (H3 32 33) as (h' & Hrun & Hring' & Hval & Hchars & _).
  { split_and!; [done..|]. by rewrite Hh0. }
  { split_and!; [done..|]. by rewrite lookup_insert_ne, Hh0. }
  rewrite Hint in Hchars. simpl in Hchars.
  exists h'. split_and!; [|done|done|].
  - by rewrite ins_unfold.
  - unfold str_at. rewrite Hval. simpl. by rewrite Hchars.
Qed.
End truncation.

(** C6. For a string of [2^32] characters, with both allocations
    succeeding, [q_insert_head] and [q_insert_tail] return true and the new
    element owns an array of one byte holding the empty string: the length
    of the string is kept in an [int], where [2^32] becomes [0], so that the
    array is not sized to the string and the string is truncated. *)
Theorem q_insert_truncates :
  let h0 := <[1000 := ObjChars huge_string]> (mem (sample [])) in
  strlen 1000 (State h0 [32; 33]) = Ok (2 ^ 32, State h0 [32; 33]) ∧
  (∃ h', q_insert_head 16 1000 (State h0 [32; 33]) = Ok (true, State h' []) ∧
         ring h' 16 [32] ∧ chars h' 33 = Some [x00] ∧ str_at h' 32 = Some []) ∧
  (∃ h', q_insert_tail 16 1000 (State h0 [32; 33]) = Ok (true, State h' []) ∧
         ring h' 16 [32] ∧ chars h' 33 = Some [x00] ∧ str_at h' 32 = Some []).
Proof.
  intros h0.
  destruct (insert_truncates huge huge_spec q_insert_head list_add
              (λ l e, e :: l) q_insert_head_unfold) as [Hlen Hhead].
  { intros. by apply list_add_ring. }
  destruct (insert_truncates huge huge_spec q_insert_tail list_add_tail
              (λ l e, l ++ [e]) q_insert_tail_unfold) as [_ Htail].
  { intros. by apply list_add_tail_ring. }
  split_and!; [exact Hlen|exact Hhead|exact Htail].
Qed.

(** ** [q_delete_mid] and the removals: what the code does on every queue *)

Section unlink.
Implicit Types (h : gmap Z object) (pl l pre rest : list Z).

Lemma linked_cons h x y L :
  linked h (x :: y :: L) ↔
  nxt h x = Some y ∧ prv h y = Some x ∧ linked h (y :: L).
Proof. done. Qed.

(** [list_del] takes a node out of a ring; the fields of the node itself
    are left as they are. *)
Lemma list_del_ring h pl head pre x rest :
  ring h head (pre ++ x :: rest) →
  ∃ h', list_del x (State h pl) = Ok (tt, State h' pl) ∧
        ring h' head (pre ++ rest) ∧
        payload h' = payload h ∧
        is_Some (nxt h' x) ∧
        (∀ z, z ∉ head :: pre ++ rest →
              nxt h' z = nxt h z ∧ prv h' z = prv h z).
Proof.
  intros (Hnull & Hnd & HL).
  assert (∃ A a, head :: pre = A ++ [a]) as (A & a & HA).
  { destruct pre as [|y pre0 _] using rev_ind.
    - by exists [], head.
    - by exists (head :: pre0), y. }
  assert (∃ c C, rest ++ [head] = c :: C) as (c & C & HC).
  { destruct rest; simpl; eauto. }
  rewrite <- (assoc_L (++) pre) in HL.
  change (head :: pre ++ (x :: rest) ++ [head])
    with ((head :: pre) ++ (x :: rest) ++ [head]) in HL.
  rewrite HA in HL. simpl in HL. rewrite HC, <- (assoc_L (++)) in HL.
  apply linked_app in HL as [HLA HL]. simpl in HL.
  destruct HL as (Ha & Hx' & Hx & Hc' & HLC).
  change (head :: pre ++ x :: rest) with ((head :: pre) ++ x :: rest) in Hnd.
  rewrite HA, <- (assoc_L (++)) in Hnd.
  apply NoDup_app in Hnd as (HndA & HdA & Hnd).
  apply NoDup_cons in Hnd as [Hax Hnd]. apply NoDup_cons in Hnd as [Hxr Hndr].
  assert (a ≠ x) by (intros ->; apply Hax, list_elem_of_here).
  change (linked h (c :: C)) in HLC.
  assert (head ∈ A ++ [a]) as HhA by (rewrite <- HA; set_solver +).
  assert (head ≠ x) as Hhx.
  { intros ->. apply elem_of_app in HhA as [HhA| ->%list_elem_of_singleton].
    - apply (HdA x HhA). set_solver +.
    - done. }
  assert (c ≠ x).
  { destruct rest; simplify_eq/=; [done|]. intros ->. apply Hxr. set_solver +. }
  assert (is_Some (prv h a)) as [? ?] by (apply nxt_is_Some_prv; eauto).
  assert (is_Some (nxt h c)) as [? ?] by (apply nxt_is_Some_prv; eauto).
  eexists. split_and!.
  - unfold list_del. do 3 run_prim. run_prim.
  - split_and!.
    + eapply payload_null; [|exact Hnull]. views.
    + change (head :: pre ++ rest) with ((head :: pre) ++ rest).
      rewrite HA, <- (assoc_L (++)). apply NoDup_app. split_and!; [done| |].
      * intros z Hz. specialize (HdA z Hz). set_solver +HdA.
      * apply NoDup_cons. split; [set_solver +Hax|done].
    + rewrite <- (assoc_L (++) pre).
      change (head :: pre ++ rest ++ [head])
        with ((head :: pre) ++ rest ++ [head]).
      rewrite HA, HC, <- (assoc_L (++)).
      apply (linked_app _ A a (c :: C)). split.
      * eapply linked_frame; [| |exact HLA].
        -- intros z Hz. rewrite removelast_last in Hz.
           assert (a ≠ z).
           { intros ->. apply (HdA z Hz), list_elem_of_here. }
           views.
        -- intros z Hz.
           assert (z ∈ pre) as Hzp.
           { change pre with (tail (head :: pre)). by rewrite HA. }
           assert (c ≠ z).
           { intros ->.
             assert (z ∈ rest ++ [head]) as Hzr by (rewrite HC; set_solver +).
             apply elem_of_app in Hzr as [Hzr| ->%list_elem_of_singleton].
             - assert (z ∈ A ++ [a]) as Hza by (rewrite <- HA; set_solver +Hzp).
               apply elem_of_app in Hza as [Hza| ->%list_elem_of_singleton].
               + apply (HdA z Hza). set_solver +Hzr.
               + apply Hax. set_solver +Hzr.
             - assert (NoDup (head :: pre)) as [? _]%NoDup_cons; [|done].
               rewrite HA. apply NoDup_app. split_and!; [done| |apply NoDup_singleton].
               intros w Hw Hwa%list_elem_of_singleton. subst w.
               apply (HdA _ Hw), list_elem_of_here. }
           views.
      * apply linked_cons. split_and!; [views..|].
        eapply linked_frame; [| |exact HLC].
        -- intros z Hz.
           assert (z ∈ rest) as Hzr.
           { replace rest with (removelast (c :: C)); [done|].
             rewrite <- HC. apply removelast_last. }
           assert (a ≠ z) by (intros ->; apply Hax; set_solver +Hzr).
           views.
        -- intros z Hz. simpl in Hz.
           assert (c ≠ z).
           { intros <-. destruct rest as [|c' rest']; simplify_eq/=.
             - by apply elem_of_nil in Hz.
             - apply NoDup_cons in Hndr as [Hcr _].
               apply elem_of_app in Hz as [?|Hch%list_elem_of_singleton]; [done|].
               subst c.
               apply elem_of_app in HhA as [HhA|Hha%list_elem_of_singleton].
               + apply (HdA _ HhA). set_solver +.
               + subst a. apply Hax. set_solver +. }
           views.
  - views.
  - views.
  - intros z Hz.
    assert (z ∉ (A ++ [a]) ++ rest) as Hz'.
    { rewrite <- HA. exact Hz. }
    assert (a ≠ z) by (intros ->; apply Hz'; set_solver +).
    assert (c ≠ z).
    { intros ->. assert (z ∈ rest ++ [head]) as Hin by (rewrite HC; set_solver +).
      apply elem_of_app in Hin as [Hin|Hin%list_elem_of_singleton].
      - apply Hz'. set_solver +Hin.
      - subst z. apply Hz. set_solver +. }
    split; views.
Qed.
End unlink.

Section q_delete_mid.
Implicit Types (h : gmap Z object) (pl l ls lf pre rest : list Z).

Lemma nxt_delete h p z : p ≠ z → nxt (delete p h) z = nxt h z.
Proof. intros. unfold nxt. by rewrite lookup_delete_ne. Qed.

Lemma prv_delete h p z : p ≠ z → prv (delete p h) z = prv h z.
Proof. intros. unfold prv. by rewrite lookup_delete_ne. Qed.

Lemma q_delete_mid_loop_spec head pl h lf : ∀ ls slow fast fuel,
  path (nxt h) slow ls head → path (nxt h) fast lf head → head ∉ lf →
  (length lf < length ls)%nat → (length lf < fuel)%nat →
  ∃ s rest, tortoise ls lf = s :: rest ∧
            q_delete_mid_loop fuel head slow fast (State h pl)
            = Ok (s, State h pl).
Proof.
  induction lf as [|y|y y' lf IH] using pair_ind;
    intros ls slow fast fuel Hs Hf Hhead Hlen Hfuel;
    (destruct fuel as [|fuel]; [simpl in Hfuel; lia|]);
    (destruct ls as [|s ls]; [simpl in Hlen; lia|]);
    destruct Hs as [-> (sn & Hsn & Hs)].
  - simpl in Hf. subst fast. exists s, ls. split; [done|].
    simpl. by rewrite Z.eqb_refl.
  - destruct Hf as [-> (n & Hy & ->)].
    apply not_elem_of_cons in Hhead as [Hy' _].
    exists s, ls. split; [done|]. simpl.
    destruct (Z.eqb_spec y head) as [?|_]; [done|]. run_prim.
    by rewrite Z.eqb_refl.
  - destruct Hf as [-> (n & Hy & [-> (n' & Hy' & Hf)])].
    apply not_elem_of_cons in Hhead as [Hyh Hhead].
    apply not_elem_of_cons in Hhead as [Hyh' Hhead].
    destruct (IH ls sn n' fuel) as (s' & rest & Ht & Hrun);
      [done|done|done|simpl in *; lia|simpl in *; lia|].
    exists s', rest. split; [done|]. simpl q_delete_mid_loop.
    destruct (Z.eqb_spec y head) as [?|_]; [done|]. run_prim.
    destruct (Z.eqb_spec y' head) as [?|_]; [done|]. do 2 run_prim.
    exact Hrun.
Qed.

(** X14. On every non-empty queue of [n] elements [q_delete_mid] unlinks
    and releases the element at index [(n - 1) / 2], with its string, and
    returns true; the rest of the ring is relinked around it, and every
    other object keeps its payload. *)
Lemma q_delete_mid_spec h pl head l fuel :
  queue h head l → l ≠ [] → (length l < fuel)%nat →
  ∃ pre m rest v h',
    l = pre ++ m :: rest ∧
    (length l - 1 = 2 * length pre ∨ length l - 1 = 2 * length pre + 1)%nat ∧
    val h m = Some v ∧
    q_delete_mid fuel head (State h pl) = Ok (true, State h' pl) ∧
    ring h' head (pre ++ rest) ∧
    h' !! m = None ∧ h' !! v = None ∧
    (∀ p, p ≠ m → p ≠ v → erase_link <$> h' !! p = erase_link <$> h !! p).
Proof.
  intros [Hring Hstr] Hne Hfuel.
  pose proof (ring_head_not_null _ _ _ Hring) as Hhead.
  pose proof (ring_nil_iff _ _ _ Hring) as Hnil.
  pose proof (ring_path_next _ _ _ Hring) as [_ (first & Hfirst & Hpath)].
  pose proof Hring as (Hnull & Hnd & _).
  apply NoDup_cons in Hnd as [Hhl Hndl].
  destruct l as [|x l0]; [done|].
  destruct (tortoise_split l0 (x :: l0))
    as (pre & m & rest & Hl & Htort & Hlen); [simpl; lia|].
  pose proof Hpath as [-> (n & Hx & Hpath0)].
  destruct (q_delete_mid_loop_spec head pl h l0 (x :: l0) x n fuel)
    as (m' & rest' & Htort' & Hloop);
    [done|done|set_solver +Hhl|simpl; lia|simpl in *; lia|].
  rewrite Htort in Htort'. injection Htort' as <- <-.
  rewrite Hl in Hring, Hstr, Hndl, Hhl.
  destruct (list_del_ring h pl head pre m rest Hring)
    as (h1 & Hdel & Hring1 & Hpay1 & Hm1 & _).
  assert (is_Some (str_at h m)) as [sm Hsm].
  { rewrite Forall_forall in Hstr. apply Hstr. set_solver +. }
  unfold str_at in Hsm.
  destruct (val h m) as [v|] eqn:Hval; [simpl in Hsm|done].
  destruct (chars h v) as [b|] eqn:Hchars; [clear Hsm|done].
  assert (v ≠ NULL ∧ v ≠ m ∧ nxt h1 v = None) as (Hvn & Hvm & Hvl).
  { unfold chars in Hchars. unfold val in Hval. split_and!.
    - intros ->. by rewrite Hnull in Hchars.
    - intros ->. by destruct (h !! m) as [[]|].
    - apply eq_None_not_Some. intros Hs.
      apply (payload_is_link h1 h) in Hs as [w Hw]; [|done].
      unfold nxt in Hw. by destruct (h !! v) as [[]|]. }
  assert (m ∉ head :: pre ++ rest) as Hmout.
  { apply NoDup_app in Hndl as (_ & Hd & [Hmr _]%NoDup_cons).
    intros [->|[Hin|Hin]%elem_of_app]%elem_of_cons.
    - apply Hhl. set_solver +.
    - apply (Hd m Hin). set_solver +.
    - done. }
  assert (m ≠ NULL) as Hmn.
  { destruct Hm1 as [w Hw]. eapply nxt_not_null; [|exact Hw].
    by destruct Hring1. }
  exists pre, m, rest, v, (delete m (delete v h1)). split_and!.
  - done.
  - simpl. rewrite Nat.sub_0_r. exact Hlen.
  - done.
  - unfold q_delete_mid. destruct (Z.eqb_spec head NULL) as [?|_]; [done|].
    rewrite (run_bind _ _ _ _ _ (run_list_empty _ _ _ _ Hfirst)).
    destruct (Z.eqb_spec x head) as [->|_].
    { destruct Hhl. rewrite <- Hl. set_solver +. }
    do 2 run_prim. rewrite (run_bind _ _ _ _ _ Hloop).
    rewrite (run_bind _ _ _ _ _ Hdel).
    unfold q_release_element. rewrite run_assoc.
    erewrite run_bind; last first.
    { apply run_load_value. by rewrite (payload_val _ _ _ Hpay1). }
    rewrite run_assoc. erewrite run_bind; last first.
    { apply run_free; [done|]. apply (chars_live _ _ b).
      by rewrite (payload_chars _ _ _ Hpay1). }
    erewrite run_bind; last first.
    { apply run_free; [done|].
      rewrite lookup_delete_ne by done. destruct Hm1 as [w Hw].
      by eapply nxt_Some_live. }
    done.
  - apply (ring_frame h1); [done| |].
    + rewrite !lookup_delete_ne by done. by destruct Hring1.
    + intros z Hz.
      assert (m ≠ z) by (by intros ->).
      assert (v ≠ z).
      { intros ->. apply (ring_live _ _ _ _ Hring1) in Hz as [w Hw]. congruence. }
      by rewrite !nxt_delete, !prv_delete.
  - apply lookup_delete_eq.
  - rewrite lookup_delete_ne by done. apply lookup_delete_eq.
  - intros p Hpm Hpv. rewrite !lookup_delete_ne by done.
    by apply payload_lookup.
Qed.
End q_delete_mid.

Section q_remove.
Implicit Types (h : gmap Z object) (pl l : list Z) (b d : list byte).

(** X15. [q_delete_mid] returns false and changes nothing on an absent
    queue and on an empty one. *)
Lemma q_delete_mid_false fuel h pl head :
  q_delete_mid fuel NULL (State h pl) = Ok (false, State h pl) ∧
  (ring h head [] →
   q_delete_mid fuel head (State h pl) = Ok (false, State h pl)).
Proof.
  split; [done|]. intros Hring.
  pose proof (ring_head_not_null _ _ _ Hring) as Hhead.
  assert (nxt h head = Some head) as Hfirst by (by apply (ring_nil_iff _ _ _ Hring)).
  unfold q_delete_mid. destruct (Z.eqb_spec head NULL) as [?|_]; [done|].
  rewrite (run_bind _ _ _ _ _ (run_list_empty _ _ _ _ Hfirst)).
  by rewrite Z.eqb_refl.
Qed.

(** The copy into [sp] when it stays inside the array of the string. *)
Lemma copy_removed_in_bounds h pl e sp bufsize v b d :
  h !! NULL = None →
  val h e = Some v → chars h v = Some b → chars h sp = Some d →
  1 ≤ bufsize ≤ Z.of_nat (length d) → bufsize < SIZE_MODULUS →
  bufsize - 1 ≤ Z.of_nat (length b) →
  copy_removed e sp bufsize (State h pl)
  = Ok (tt, State (<[sp := ObjChars (take (Z.to_nat (bufsize - 1)) b ++
                                     x00 :: drop (Z.to_nat bufsize) d)]> h) pl).
Proof.
  intros Hnull Hv Hb Hd Hsize Hmod Hlen.
  assert (sp ≠ NULL) as Hsp.
  { intros ->. apply chars_live in Hd as [? ?]. congruence. }
  assert (to_size_t (bufsize - 1) = bufsize - 1) as Hsz.
  { unfold to_size_t. apply Z.mod_small. lia. }
  unfold copy_removed. destruct (Z.eqb_spec sp NULL) as [?|_]; [done|].
  run_prim. rewrite Hsz.
  unfold memcpy. unfold mbind at 1, M_bind at 1. simpl. rewrite Hd, Hb.
  rewrite bool_decide_eq_true_2 by lia.
  unfold store_char. simpl. rewrite chars_insert, decide_True by done.
  rewrite length_app, length_take_le, length_drop by lia.
  rewrite bool_decide_eq_true_2 by lia.
  rewrite insert_insert_eq. do 4 f_equal.
  replace (Z.to_nat (bufsize - 1))
    with (length (take (Z.to_nat (bufsize - 1)) b) + 0)%nat at 1
    by (rewrite length_take_le; lia).
  rewrite insert_app_r. f_equal.
  replace (Z.to_nat bufsize) with (S (Z.to_nat (bufsize - 1))) by lia.
  destruct (drop (Z.to_nat (bufsize - 1)) d) as [|c d'] eqn:Hdrop.
  { apply (f_equal length) in Hdrop. rewrite length_drop in Hdrop.
    simpl in Hdrop. lia. }
  simpl. f_equal.
  replace (S (Z.to_nat (bufsize - 1))) with (Z.to_nat (bufsize - 1) + 1)%nat
    by lia.
  by rewrite <- drop_drop, Hdrop.
Qed.

(** The copy into [sp] when [bufsize - 1], as a [size_t], exceeds the size
    of the array of the string: the behaviour is undefined. *)
Lemma copy_removed_overread h pl e sp bufsize v b :
  val h e = Some v → chars h v = Some b → sp ≠ NULL →
  Z.of_nat (length b) < to_size_t (bufsize - 1) →
  copy_removed e sp bufsize (State h pl) = Fault.
Proof.
  intros Hv Hb Hsp Hlen.
  unfold copy_removed. destruct (Z.eqb_spec sp NULL) as [?|_]; [done|].
  run_prim. unfold memcpy. unfold mbind at 1, M_bind at 1. simpl.
  rewrite Hb. destruct (chars h sp) as [d|]; [|done].
  rewrite bool_decide_eq_false_2; [done|]. lia.
Qed.

(** The string read back from [sp] after a copy in bounds: the removed
    string, cut to [bufsize - 1] characters. *)
Lemma c_str_copied b : ∀ n k r,
  nul_index b = Some k → (n ≤ length b)%nat →
  c_str (take n b ++ x00 :: r) = take n (c_str b).
Proof.
  induction b as [|c b IH]; intros n k r; simpl; [done|].
  destruct (byte_eqb_spec c x00) as [->|Hc].
  - intros _ _. by destruct n.
  - destruct (nul_index b) as [k'|] eqn:Hk'; [|done]. intros _ Hn.
    destruct n as [|n]; simpl; [done|].
    destruct (byte_eqb_spec c x00) as [?|_]; [done|].
    f_equal. apply (IH n k'); [done|lia].
Qed.

(** [q_remove_head] and [q_remove_tail] with no buffer: the element at the
    head, respectively at the tail, is unlinked and returned; no object is
    released or changed. *)
Lemma q_remove_no_copy h pl head e l bufsize :
  (ring h head (e :: l) →
   ∃ h', q_remove_head head NULL bufsize (State h pl) = Ok (e, State h' pl) ∧
         ring h' head l ∧ payload h' = payload h) ∧
  (ring h head (l ++ [e]) →
   ∃ h', q_remove_tail head NULL bufsize (State h pl) = Ok (e, State h' pl) ∧
         ring h' head l ∧ payload h' = payload h).
Proof.
  split; intros Hring;
    pose proof (ring_head_not_null _ _ _ Hring) as Hhead;
    pose proof (ring_nil_iff _ _ _ Hring) as Hnil;
    pose proof (ring_path_next _ _ _ Hring) as [_ (first & Hfirst & Hpath)].
  - destruct (list_del_ring h pl head [] e l Hring) as (h' & Hdel & Hring' & Hpay & _).
    exists h'. split_and!; [|done..].
    unfold q_remove_head. destruct (Z.eqb_spec head NULL) as [?|_]; [done|].
    rewrite (run_bind _ _ _ _ _ (run_list_empty _ _ _ _ Hfirst)).
    destruct Hpath as [-> _].
    destruct (Z.eqb_spec e head) as [->|_].
    { destruct Hring as (_ & [Hh _]%NoDup_cons & _). destruct Hh. set_solver +. }
    run_prim. by rewrite (run_bind _ _ _ _ _ Hdel).
  - replace (l ++ [e]) with (l ++ e :: []) in Hring by done.
    destruct (list_del_ring h pl head l e [] Hring) as (h' & Hdel & Hring' & Hpay & _).
    rewrite app_nil_r in Hring'.
    exists h'. split_and!; [|done..].
    unfold q_remove_tail. destruct (Z.eqb_spec head NULL) as [?|_]; [done|].
    rewrite (run_bind _ _ _ _ _ (run_list_empty _ _ _ _ Hfirst)).
    destruct (Z.eqb_spec first head) as [->|_].
    { assert (l ++ [e] = []) by (by apply Hnil). by destruct l. }
    destruct Hring as (_ & _ & HL).
    change (head :: (l ++ [e]) ++ [head]) with ((head :: l ++ [e]) ++ [head]) in HL.
    rewrite app_comm_cons, <- (assoc_L (++)) in HL.
    apply linked_snoc in HL as (_ & _ & Hlast).
    run_prim. by rewrite (run_bind _ _ _ _ _ Hdel).
Qed.

(** What both removals do after the emptiness test, on the node [e] they
    picked, when the copy stays in bounds. *)
Lemma unlink_copy_in_bounds h pl head pre e rest sp bufsize v b d :
  ring h head (pre ++ e :: rest) →
  val h e = Some v → chars h v = Some b → chars h sp = Some d →
  1 ≤ bufsize ≤ Z.of_nat (length d) → bufsize < SIZE_MODULUS →
  bufsize - 1 ≤ Z.of_nat (length b) →
  let copied := take (Z.to_nat (bufsize - 1)) b ++
                x00 :: drop (Z.to_nat bufsize) d in
  ∃ h', (list_del e;; copy_removed e sp bufsize;; mret e) (State h pl)
        = Ok (e, State h' pl) ∧
        ring h' head (pre ++ rest) ∧
        chars h' sp = Some copied ∧
        payload h' = <[sp := ObjChars copied]> (payload h).
Proof.
  intros Hring Hv Hb Hd Hsize Hmod Hlen copied.
  destruct (list_del_ring h pl head pre e rest Hring)
    as (h1 & Hdel & Hring1 & Hpay1 & _).
  pose proof Hring1 as (Hnull1 & _).
  assert (sp ≠ NULL) as Hsp.
  { intros ->. apply chars_live in Hd as [? ?]. destruct Hring. congruence. }
  exists (<[sp := ObjChars copied]> h1). split_and!.
  - rewrite (run_bind _ _ _ _ _ Hdel).
    erewrite run_bind; [done|].
    apply (copy_removed_in_bounds _ _ _ _ _ v b d); try done.
    + by rewrite (payload_val _ _ _ Hpay1).
    + by rewrite (payload_chars _ _ _ Hpay1).
    + by rewrite (payload_chars _ _ _ Hpay1).
  - apply (ring_frame h1); [done|by rewrite lookup_insert_ne|].
    intros z Hz. apply (ring_live _ _ _ _ Hring1) in Hz as [w Hw].
    assert (sp ≠ z).
    { intros ->. rewrite <- (payload_chars _ _ z Hpay1) in Hd.
      unfold nxt in Hw. unfold chars in Hd. by destruct (h1 !! z) as [[]|]. }
    by rewrite nxt_insert, prv_insert, !decide_False.
  - by rewrite chars_insert, decide_True.
  - by rewrite payload_insert, Hpay1.
Qed.

(** ... and when it does not. *)
Lemma unlink_copy_overread h pl head pre e rest sp bufsize v b :
  ring h head (pre ++ e :: rest) →
  val h e = Some v → chars h v = Some b → sp ≠ NULL →
  Z.of_nat (length b) < to_size_t (bufsize - 1) →
  (list_del e;; copy_removed e sp bufsize;; mret e) (State h pl) = Fault.
Proof.
  intros Hring Hv Hb Hsp Hlen.
  destruct (list_del_ring h pl head pre e rest Hring)
    as (h1 & Hdel & _ & Hpay1 & _).
  rewrite (run_bind _ _ _ _ _ Hdel).
  unfold mbind at 1, M_bind at 1.
  rewrite (copy_removed_overread _ _ _ _ _ v b); try done.
  - by rewrite (payload_val _ _ _ Hpay1).
  - by rewrite (payload_chars _ _ _ Hpay1).
Qed.

Lemma q_remove_head_unfold h pl head e l sp bufsize :
  ring h head (e :: l) →
  q_remove_head head sp bufsize (State h pl)
  = (list_del e;; copy_removed e sp bufsize;; mret e) (State h pl).
Proof.
  intros Hring.
  pose proof (ring_head_not_null _ _ _ Hring) as Hhead.
  pose proof (ring_path_next _ _ _ Hring) as [_ (first & Hfirst & [-> _])].
  unfold q_remove_head. destruct (Z.eqb_spec head NULL) as [?|_]; [done|].
  rewrite (run_bind _ _ _ _ _ (run_list_empty _ _ _ _ Hfirst)).
  destruct (Z.eqb_spec e head) as [->|_].
  { destruct Hring as (_ & [Hh _]%NoDup_cons & _). destruct Hh. set_solver +. }
  by run_prim.
Qed.

Lemma q_remove_tail_unfold h pl head e l sp bufsize :
  ring h head (l ++ [e]) →
  q_remove_tail head sp bufsize (State h pl)
  = (list_del e;; copy_removed e sp bufsize;; mret e) (State h pl).
Proof.
  intros Hring.
  pose proof (ring_head_not_null _ _ _ Hring) as Hhead.
  pose proof (ring_nil_iff _ _ _ Hring) as Hnil.
  pose proof (ring_path_next _ _ _ Hring) as [_ (first & Hfirst & _)].
  unfold q_remove_tail. destruct (Z.eqb_spec head NULL) as [?|_]; [done|].
  rewrite (run_bind _ _ _ _ _ (run_list_empty _ _ _ _ Hfirst)).
  destruct (Z.eqb_spec first head) as [->|_].
  { assert (l ++ [e] = []) by (by apply Hnil). by destruct l. }
  destruct Hring as (_ & _ & HL).
  change (head :: (l ++ [e]) ++ [head]) with ((head :: l ++ [e]) ++ [head]) in HL.
  rewrite app_comm_cons, <- (assoc_L (++)) in HL.
  apply linked_snoc in HL as (_ & _ & Hlast).
  by run_prim.
Qed.

(** X12. With a buffer, when [bufsize - 1] is at most the size of the array
    of the removed string, both removals unlink the element, release nothing,
    and leave in [sp] the first [bufsize - 1] bytes of that array and a
    terminator: read as a string, the removed string cut to [bufsize - 1]
    characters. *)
Lemma q_remove_in_bounds h pl head e l sp bufsize v b d k :
  val h e = Some v → chars h v = Some b → nul_index b = Some k →
  chars h sp = Some d →
  1 ≤ bufsize ≤ Z.of_nat (length d) → bufsize < SIZE_MODULUS →
  bufsize - 1 ≤ Z.of_nat (length b) →
  let copied := take (Z.to_nat (bufsize - 1)) b ++
                x00 :: drop (Z.to_nat bufsize) d in
  c_str copied = take (Z.to_nat (bufsize - 1)) (c_str b) ∧
  (ring h head (e :: l) →
   ∃ h', q_remove_head head sp bufsize (State h pl) = Ok (e, State h' pl) ∧
         ring h' head l ∧ chars h' sp = Some copied ∧
         payload h' = <[sp := ObjChars copied]> (payload h)) ∧
  (ring h head (l ++ [e]) →
   ∃ h', q_remove_tail head sp bufsize (State h pl) = Ok (e, State h' pl) ∧
         ring h' head l ∧ chars h' sp = Some copied ∧
         payload h' = <[sp := ObjChars copied]> (payload h)).
Proof.
  intros Hv Hb Hk Hd Hsize Hmod Hlen copied. split_and!.
  - apply (c_str_copied b _ k); [done|lia].
  - intros Hring. rewrite (q_remove_head_unfold _ _ _ _ _ _ _ Hring).
    by apply (unlink_copy_in_bounds h pl head [] e l sp bufsize v b d).
  - intros Hring. rewrite (q_remove_tail_unfold _ _ _ _ _ _ _ Hring).
    destruct (unlink_copy_in_bounds h pl head l e [] sp bufsize v b d)
      as (h' & ? & Hr & ? & ?); [done..|].
    rewrite app_nil_r in Hr. by exists h'.
Qed.

(** X13. With a buffer, when [bufsize - 1] converted to [size_t] exceeds
    the size of the array of the removed string, the behaviour of both
    removals is undefined: the copy reads past the end of the array, also
    when [bufsize] is 0. *)
Lemma q_remove_overread_any h pl head e l sp bufsize v b :
  val h e = Some v → chars h v = Some b → sp ≠ NULL →
  Z.of_nat (length b) < to_size_t (bufsize - 1) →
  (ring h head (e :: l) →
   q_remove_head head sp bufsize (State h pl) = Fault) ∧
  (ring h head (l ++ [e]) →
   q_remove_tail head sp bufsize (State h pl) = Fault).
Proof.
  intros Hv Hb Hsp Hlen. split; intros Hring.
  - rewrite (q_remove_head_unfold _ _ _ _ _ _ _ Hring).
    by apply (unlink_copy_overread h pl head [] e l sp bufsize v b).
  - rewrite (q_remove_tail_unfold _ _ _ _ _ _ _ Hring).
    by apply (unlink_copy_overread h pl head l e [] sp bufsize v b).
Qed.
End q_remove.

(** ** [q_delete_dup]: what the code does on every queue *)

Section two_rings.
Implicit Types (h : gmap Z object) (pl l pre rest G : list Z).

Lemma ring_nxt h head pre x rest :
  ring h head (pre ++ x :: rest) → nxt h x = Some (hd head rest).
Proof.
  intros (_ & _ & HL). rewrite <- (assoc_L (++) pre) in HL.
  change (head :: pre ++ (x :: rest) ++ [head])
    with ((head :: pre) ++ x :: (rest ++ [head])) in HL.
  apply linked_app in HL as [_ HL]. by destruct rest; destruct HL.
Qed.

Lemma link_not_chars h a : is_Some (nxt h a) → is_Some (chars h a) → False.
Proof.
  unfold nxt, chars. destruct (h !! a) as [[]|]; simpl;
    intros [? ?] [? ?]; done.
Qed.

(** [list_move] takes a node out of one ring and links it at the head of
    another. *)
Lemma list_move_rings h pl head pre x rest gc G :
  ring h head (pre ++ x :: rest) → ring h gc G →
  (∀ z, z ∈ gc :: G → z ∉ head :: pre ++ x :: rest) →
  ∃ h', list_move x gc (State h pl) = Ok (tt, State h' pl) ∧
        ring h' head (pre ++ rest) ∧ ring h' gc (x :: G) ∧
        payload h' = payload h ∧
        (∀ z, z ∉ head :: pre ++ x :: rest → z ∉ gc :: G →
              nxt h' z = nxt h z ∧ prv h' z = prv h z).
Proof.
  intros Hring Hgc Hdisj.
  destruct (list_del_ring h pl head pre x rest Hring)
    as (h1 & Hdel & Hring1 & Hpay1 & Hx1 & Hf1).
  assert (∀ z, z ∈ head :: pre ++ rest → z ∈ head :: pre ++ x :: rest) as Hsub.
  { intros z. set_solver +. }
  assert (x ∉ head :: pre ++ rest) as Hxout.
  { destruct Hring as (_ & Hnd & _). apply NoDup_cons in Hnd as [Hh Hnd].
    apply NoDup_app in Hnd as (_ & Hd & [Hxr _]%NoDup_cons).
    intros [E|[Hin|Hin]%elem_of_app]%elem_of_cons.
    - apply Hh. set_solver +E.
    - apply (Hd x Hin). set_solver +.
    - done. }
  assert (ring h1 gc G) as Hgc1.
  { apply (ring_frame h); [done|by destruct Hring1|].
    intros z Hz. apply Hf1. intros Hin. by apply (Hdisj z Hz), Hsub. }
  destruct (list_add_ring_frame h1 pl gc G x)
    as (h2 & Hadd & Hgc2 & Hpay2 & Hf2); [done|done| |].
  { intros Hin. apply (Hdisj x Hin). set_solver +. }
  exists h2. split_and!.
  - unfold list_move. by rewrite (run_bind _ _ _ _ _ Hdel).
  - apply (ring_frame h1); [done|by destruct Hgc2|].
    intros z Hz. apply Hf2.
    intros [E|[E|Hin]%elem_of_cons]%elem_of_cons.
    + apply (Hdisj z); [set_solver +E|by apply Hsub].
    + by subst.
    + apply (Hdisj z); [set_solver +Hin|by apply Hsub].
  - done.
  - by rewrite Hpay2.
  - intros z Hz Hzg.
    destruct (Hf2 z) as [-> ->].
    { intros [E|[E|Hin]%elem_of_cons]%elem_of_cons.
      - apply Hzg. set_solver +E.
      - apply Hz. set_solver +E.
      - apply Hzg. set_solver +Hin. }
    apply Hf1. intros Hin. by apply Hz, Hsub.
Qed.
End two_rings.

Section dedup_loop.
Context (k : Z → list byte).
Implicit Types (h : gmap Z object) (pl l pre rest G : list Z).

Lemma dedup_walk_step sd x y t :
  dedup_walk k sd (x :: y :: t)
  = if decide (k x = k y) then dedup_walk k true (y :: t)
    else if sd then dedup_walk k false (y :: t)
    else x :: dedup_walk k false (y :: t).
Proof. done. Qed.

Lemma dedup_gone_step sd x y t :
  dedup_gone k sd (x :: y :: t)
  = if decide (k x = k y) then x :: dedup_gone k true (y :: t)
    else if sd then x :: dedup_gone k false (y :: t)
    else dedup_gone k false (y :: t).
Proof. done. Qed.

Lemma q_delete_dup_loop_spec pl head gc : ∀ rest pre G sd h next fuel,
  ring h head (pre ++ rest) → ring h gc G →
  (∀ z, z ∈ gc :: G → z ∉ head :: pre ++ rest) →
  keys_at k h rest →
  next = hd head (tail rest) →
  (length rest < fuel)%nat →
  ∃ h', q_delete_dup_loop fuel head gc sd (hd head rest) next (State h pl)
          = Ok (tt, State h' pl) ∧
        ring h' head (pre ++ dedup_walk k sd rest) ∧
        ring h' gc (reverse (dedup_gone k sd rest) ++ G) ∧
        payload h' = payload h ∧
        (∀ z, z ∉ head :: pre ++ rest → z ∉ gc :: G →
              nxt h' z = nxt h z ∧ prv h' z = prv h z).
Proof.
  induction rest as [|x rest IH]; intros pre G sd h next fuel
    Hring Hgc Hdisj Hk -> Hfuel;
    (destruct fuel as [|fuel]; [simpl in Hfuel; lia|]).
  { exists h. simpl. rewrite Z.eqb_refl. by rewrite app_nil_r in *. }
  assert (x ≠ head) as Hxh.
  { destruct Hring as (_ & [Hh _]%NoDup_cons & _). intros ->.
    apply Hh. set_solver +. }
  destruct rest as [|y t].
  { exists h. simpl. destruct (Z.eqb_spec x head) as [?|_]; [done|].
    rewrite Z.eqb_refl. done. }
  assert (y ≠ head) as Hyh.
  { destruct Hring as (_ & [Hh _]%NoDup_cons & _). intros ->.
    apply Hh. set_solver +. }
  assert (ring h head ((pre ++ [x]) ++ y :: t)) as Hring'.
  { by rewrite <- (assoc_L (++) pre). }
  pose proof (ring_nxt _ _ _ _ _ Hring') as Hny.
  assert (keys_at k h (y :: t)) as Hk'.
  { intros a Ha. apply Hk. set_solver +Ha. }
  destruct (run_strcmp h pl x y (k x) (k y))
    as (vx & vy & c & Hvx & Hvy & Hcmp & _ & Hc).
  { apply Hk. set_solver +. }
  { apply Hk. set_solver +. }
  destruct (list_move_rings h pl head pre x (y :: t) gc G Hring Hgc Hdisj)
    as (h1 & Hmove & Hring1 & Hgc1 & Hpay1 & Hf1).
  assert (∀ z, z ∈ gc :: x :: G → z ∉ head :: pre ++ y :: t) as Hdisj1.
  { intros z [E|[E|Hz]%elem_of_cons]%elem_of_cons.
    - intros Hin. apply (Hdisj z); [set_solver +E|set_solver +Hin].
    - subst z. destruct Hring as (_ & Hnd & _).
      apply NoDup_cons in Hnd as [Hh Hnd].
      apply NoDup_app in Hnd as (_ & Hd & [Hxr _]%NoDup_cons).
      intros [E|[Hin|Hin]%elem_of_app]%elem_of_cons; [done| |done].
      apply (Hd x Hin). set_solver +.
    - intros Hin. apply (Hdisj z); [set_solver +Hz|set_solver +Hin]. }
  assert (∃ h', q_delete_dup_loop fuel head gc (bool_decide (k x = k y)) y
                  (hd head t) (State h1 pl) = Ok (tt, State h' pl) ∧
            ring h' head (pre ++ dedup_walk k (bool_decide (k x = k y)) (y :: t)) ∧
            ring h' gc (reverse (x :: dedup_gone k (bool_decide (k x = k y)) (y :: t)) ++ G) ∧
            payload h' = payload h ∧
            (∀ z, z ∉ head :: pre ++ x :: y :: t → z ∉ gc :: G →
                  nxt h' z = nxt h z ∧ prv h' z = prv h z)) as Hmoved.
  { destruct (IH pre (x :: G) (bool_decide (k x = k y)) h1 (hd head t) fuel)
      as (h' & Hrun & Hr & Hg & Hp & Hf); [done|done|done| |done|simpl in *; lia|].
    { by apply (keys_at_payload k h). }
    exists h'. split_and!; [done|done| |congruence|].
    - by rewrite reverse_cons, <- (assoc_L (++)).
    - intros z Hz Hzg. destruct (Hf z) as [-> ->].
      + intros Hin. apply Hz. set_solver +Hin.
      + intros [E|[E|Hin]%elem_of_cons]%elem_of_cons.
        * apply Hzg. set_solver +E.
        * apply Hz. set_solver +E.
        * apply Hzg. set_solver +Hin.
      + by apply Hf1. }
  cbn [hd tail q_delete_dup_loop].
  destruct (Z.eqb_spec x head) as [?|_]; [done|].
  destruct (Z.eqb_spec y head) as [?|_]; [done|].
  rewrite (run_bind _ _ _ _ _ (run_load_value _ _ _ _ Hvx)).
  rewrite (run_bind _ _ _ _ _ (run_load_value _ _ _ _ Hvy)).
  rewrite (run_bind _ _ _ _ _ Hcmp).
  rewrite dedup_walk_step, dedup_gone_step.
  destruct (Z.eqb_spec c 0) as [Hc0|Hc0].
  - apply Hc in Hc0. rewrite !decide_True by done.
    rewrite bool_decide_eq_true_2 in Hmoved by done.
    rewrite run_assoc, (run_bind _ _ _ _ _ Hmove).
    erewrite run_bind; [|reflexivity].
    erewrite run_bind; [|apply run_load_next; by apply (ring_nxt _ _ pre _ _ Hring1)].
    exact Hmoved.
  - rewrite !decide_False by (by rewrite <- Hc).
    rewrite bool_decide_eq_false_2 in Hmoved by (by rewrite <- Hc).
    destruct sd.
    + rewrite run_assoc, (run_bind _ _ _ _ _ Hmove).
      erewrite run_bind; [|reflexivity].
      erewrite run_bind; [|apply run_load_next; by apply (ring_nxt _ _ pre _ _ Hring1)].
      exact Hmoved.
    + erewrite run_bind; [|reflexivity].
      erewrite run_bind; [|apply run_load_next; exact Hny].
      destruct (IH (pre ++ [x]) G false h (hd head t) fuel)
        as (h' & Hrun & Hr & Hg & Hp & Hf); [done|done| |done|done|simpl in *; lia|].
      { intros z Hz Hin. apply (Hdisj z Hz). set_solver +Hin. }
      exists h'. split_and!; [done| |done|done|].
      * by rewrite <- (assoc_L (++) pre) in Hr.
      * intros z Hz Hzg. apply Hf; [|done].
        intros Hin. apply Hz. set_solver +Hin.
Qed.
End dedup_loop.

(** ** [q_free]: every element and its string are released *)

Section q_free.
Implicit Types (h : gmap Z object) (pl l G : list Z).

Lemma obj_ext h h' p :
  payload h = payload h' → nxt h p = nxt h' p → prv h p = prv h' p →
  h !! p = h' !! p.
Proof.
  intros E Hn Hp. apply (payload_lookup _ _ p) in E. unfold nxt, prv in *.
  destruct (h !! p) as [[[]|[? []]|]|], (h' !! p) as [[[]|[? []]|]|];
    simplify_eq/=; done.
Qed.

Lemma val_delete h p z : p ≠ z → val (delete p h) z = val h z.
Proof. intros. unfold val. by rewrite lookup_delete_ne. Qed.

Lemma chars_delete h p z : p ≠ z → chars (delete p h) z = chars h z.
Proof. intros. unfold chars. by rewrite lookup_delete_ne. Qed.

Lemma chars_is_live h p : is_Some (chars h p) → is_Some (h !! p).
Proof. intros [b Hb]. by apply (chars_live _ _ b). Qed.

Lemma nxt_live h p : is_Some (nxt h p) → is_Some (h !! p).
Proof. unfold nxt. destruct (h !! p); [eauto|by intros [? ?]]. Qed.

Lemma owns_alt h l :
  owns h l ↔
  Forall (λ a, ∃ v, val h a = Some v ∧ is_Some (chars h v)) l ∧
  NoDup (value_of h <$> l).
Proof.
  unfold owns. f_equiv. apply Forall_proper; [|done]. intros a. split.
  - intros [[v Hv] Hc]. exists v. unfold value_of in Hc. by rewrite Hv in Hc.
  - intros (v & Hv & Hc). unfold value_of. rewrite Hv. eauto.
Qed.

Lemma owns_value h l a :
  owns h l → a ∈ l →
  val h a = Some (value_of h a) ∧ is_Some (chars h (value_of h a)).
Proof.
  intros [Hall _]%owns_alt Ha. rewrite Forall_forall in Hall.
  destruct (Hall a Ha) as (v & Hv & Hc). unfold value_of. by rewrite Hv.
Qed.

(** What an owned array is not: a node of a ring. *)
Lemma owns_not_link h l a z :
  owns h l → a ∈ l → is_Some (nxt h z) → z ≠ value_of h a.
Proof.
  intros Ho Ha Hz ->. destruct (owns_value _ _ _ Ho Ha) as [_ Hc].
  by apply (link_not_chars h (value_of h a)).
Qed.

Lemma q_free_loop_spec pl gc : ∀ G h tmp fuel,
  ring h gc G → owns h G → tmp = hd gc (tail G) → (length G < fuel)%nat →
  ∃ h', q_free_loop fuel gc (hd gc G) tmp (State h pl) = Ok (tt, State h' pl) ∧
        ring h' gc [] ∧
        (∀ z, z ∈ G ++ (value_of h <$> G) → h' !! z = None) ∧
        (∀ z, z ∉ gc :: G ++ (value_of h <$> G) → h' !! z = h !! z).
Proof.
  induction G as [|x G IH]; intros h tmp fuel Hring Hown -> Hfuel;
    (destruct fuel as [|fuel]; [simpl in Hfuel; lia|]).
  { exists h. simpl. rewrite Z.eqb_refl. split_and!; [done..| |done].
    by intros z ?%elem_of_nil. }
  assert (x ≠ gc) as Hxg.
  { destruct Hring as (_ & [Hh _]%NoDup_cons & _). intros ->.
    apply Hh. set_solver +. }
  pose proof Hring as (Hnull & [_ [HxG HndG]%NoDup_cons]%NoDup_cons & _).
  destruct (owns_value _ _ x Hown) as [Hvx Hcx]; [set_solver +|].
  set (v := value_of h x) in *.
  destruct (list_del_ring h pl gc [] x G Hring)
    as (h1 & Hdel & Hring1 & Hpay1 & Hx1 & Hf1).
  simpl in Hring1.
  assert (is_Some (nxt h x)) as Hxlink.
  { apply (ring_live h gc (x :: G)); [done|set_solver +]. }
  assert (v ≠ x) as Hvx_ne.
  { intros E. apply (link_not_chars h x); [done|by rewrite <- E]. }
  assert (v ≠ NULL) as Hvnull.
  { intros E. rewrite E in Hcx. apply chars_is_live in Hcx.
    rewrite Hnull in Hcx. by destruct Hcx. }
  assert (x ≠ NULL) as Hxnull.
  { intros E. rewrite E in Hxlink. apply nxt_live in Hxlink.
    rewrite Hnull in Hxlink. by destruct Hxlink. }
  set (h2 := delete x (delete v h1)).
  assert (q_release_element x (State h1 pl) = Ok (tt, State h2 pl)) as Hrel.
  { unfold q_release_element.
    erewrite run_bind; [|apply run_load_value; by rewrite (payload_val _ _ _ Hpay1)].
    erewrite run_bind; [|apply run_free; [done|]].
    2:{ apply chars_is_live. by rewrite (payload_chars _ _ _ Hpay1). }
    apply run_free; [done|]. rewrite lookup_delete_ne by done.
    by apply nxt_live. }
  assert (∀ z, z ∈ gc :: G → z ≠ x ∧ z ≠ v) as Hout.
  { intros z Hz. split.
    - intros ->. apply elem_of_cons in Hz as [?|?]; done.
    - apply (owns_not_link h (x :: G) x); [done|set_solver +|].
      apply (ring_live h gc (x :: G)); [done|set_solver +Hz]. }
  assert (ring h2 gc G) as Hring2.
  { apply (ring_frame h1); [done| |].
    - unfold h2. rewrite !lookup_delete_ne by done. by destruct Hring1.
    - intros z Hz. destruct (Hout z Hz) as [? ?].
      unfold h2. by rewrite !nxt_delete, !prv_delete. }
  assert (∀ a, a ∈ G → value_of h2 a = value_of h a) as Hval2.
  { intros a Ha. destruct (Hout a) as [? ?]; [set_solver +Ha|].
    unfold value_of, h2. rewrite !val_delete by done.
    by rewrite (payload_val _ _ _ Hpay1). }
  assert (value_of h2 <$> G = value_of h <$> G) as Hvals.
  { apply list_fmap_ext. intros i a Ha. apply Hval2.
    by apply list_elem_of_lookup_2 in Ha. }
  apply owns_alt in Hown as [Hall Hnd]. rewrite fmap_cons in Hnd.
  apply NoDup_cons in Hnd as [HvG HndV]. fold v in HvG.
  apply Forall_cons in Hall as [_ Hall].
  assert (owns h2 G) as Hown2.
  { apply owns_alt. split; [|by rewrite Hvals].
    rewrite Forall_forall in *. intros a Ha.
    destruct (Hall a Ha) as (va & Hva & Hca).
    destruct (Hout a) as [? ?]; [set_solver +Ha|].
    exists va. unfold h2. rewrite !val_delete by done.
    rewrite (payload_val _ _ _ Hpay1). split; [done|].
    assert (va = value_of h a) as Eva by (unfold value_of; by rewrite Hva).
    rewrite !chars_delete, (payload_chars _ _ _ Hpay1); [done| |].
    - intros E. apply HvG. rewrite E, Eva. by apply list_elem_of_fmap_2.
    - intros E. apply (link_not_chars h x); [done|by rewrite E]. }
  destruct (IH h2 (hd gc (tail G)) fuel Hring2 Hown2 eq_refl)
    as (h' & Hrun & Hring' & Hgone & Hkeep); [simpl in Hfuel; lia|].
  rewrite Hvals in Hgone, Hkeep.
  assert (x ∉ value_of h <$> G) as HxV.
  { intros (a & E & Ha)%list_elem_of_fmap.
    apply (link_not_chars h x); [done|].
    rewrite Forall_forall in Hall. destruct (Hall a Ha) as (va & Hva & Hca).
    rewrite E. unfold value_of. by rewrite Hva. }
  assert (v ∉ gc :: G) as HvG'.
  { intros Hin. by destruct (Hout v Hin). }
  exists h'. split_and!.
  - cbn [hd tail q_free_loop].
    destruct (Z.eqb_spec x gc) as [?|_]; [done|].
    rewrite (run_bind _ _ _ _ _ Hdel), (run_bind _ _ _ _ _ Hrel).
    assert (nxt h2 (hd gc G) = Some (hd gc (tail G))) as Hsecond.
    { destruct G as [|y G'].
      - simpl. by apply (ring_nil_iff h2 gc []).
      - apply (ring_nxt h2 gc [] y G' Hring2). }
    by rewrite (run_bind _ _ _ _ _ (run_load_next _ _ _ _ Hsecond)).
  - done.
  - intros z Hz.
    destruct (decide (z ∈ G ++ (value_of h <$> G))) as [Hin|Hnin];
      [by apply Hgone|].
    rewrite Hkeep.
    + assert (z = x ∨ z = v) as [->| ->] by set_solver +Hz Hnin.
      * unfold h2. by rewrite lookup_delete_eq.
      * unfold h2. rewrite lookup_delete_ne by done. by rewrite lookup_delete_eq.
    + intros [->|Hin]%elem_of_cons; [|done].
      assert (gc = x ∨ gc = v) as [E|E] by set_solver +Hz Hnin; [done|].
      apply HvG'. rewrite <- E. set_solver +.
  - intros z Hz. rewrite Hkeep by set_solver +Hz.
    unfold h2. rewrite !lookup_delete_ne by set_solver +Hz.
    symmetry. apply obj_ext; [done|..]; symmetry; apply Hf1; set_solver +Hz.
Qed.

Lemma q_free_spec fuel pl h gc G :
  ring h gc G → owns h G → (length G < fuel)%nat →
  ∃ h', q_free fuel gc (State h pl) = Ok (tt, State h' pl) ∧
        (∀ z, z ∈ gc :: G ++ (value_of h <$> G) → h' !! z = None) ∧
        (∀ z, z ∉ gc :: G ++ (value_of h <$> G) → h' !! z = h !! z).
Proof.
  intros Hring Hown Hfuel.
  destruct (q_free_loop_spec pl gc G h (hd gc (tail G)) fuel Hring Hown eq_refl
              Hfuel) as (h' & Hrun & Hring' & Hgone & Hkeep).
  pose proof (ring_head_not_null _ _ _ Hring) as Hnull.
  exists (delete gc h'). split_and!.
  - unfold q_free. destruct (Z.eqb_spec gc NULL) as [?|_]; [done|].
    assert (nxt h gc = Some (hd gc G)) as Hfirst.
    { destruct G as [|y G']; [by apply (ring_nil_iff h gc [])|].
      destruct Hring as (_ & _ & HL). by destruct HL. }
    assert (nxt h (hd gc G) = Some (hd gc (tail G))) as Hsecond.
    { destruct G as [|y G']; [exact Hfirst|].
      apply (ring_nxt h gc [] y G' Hring). }
    rewrite (run_bind _ _ _ _ _ (run_load_next _ _ _ _ Hfirst)).
    rewrite (run_bind _ _ _ _ _ (run_load_next _ _ _ _ Hsecond)).
    rewrite (run_bind _ _ _ _ _ Hrun).
    apply run_free; [done|]. apply nxt_live.
    apply (ring_live h' gc []); [done|set_solver +].
  - intros z [->|Hz]%elem_of_cons; [by rewrite lookup_delete_eq|].
    destruct (decide (gc = z)) as [->|?]; [by rewrite lookup_delete_eq|].
    rewrite lookup_delete_ne by done. by apply Hgone.
  - intros z Hz. rewrite lookup_delete_ne by set_solver +Hz. by apply Hkeep.
Qed.
End q_free.

(** ** The walk of [q_delete_dup] as a function on lists, and the whole function *)

Section dedup_pure.
Context (k : Z → list byte).
Implicit Types (l : list Z) (sd : bool).

(** Every node is either kept or moved to the scratch ring. *)
Lemma dedup_split l : ∀ sd, dedup_walk k sd l ++ dedup_gone k sd l ≡ₚ l.
Proof.
  induction l as [|x [|y t] IH]; intros sd; [done..|].
  rewrite dedup_walk_step, dedup_gone_step.
  destruct (decide (k x = k y)); [|destruct sd].
  - rewrite <- (Permutation_middle (dedup_walk k true (y :: t))).
    apply Permutation_skip, IH.
  - rewrite <- (Permutation_middle (dedup_walk k false (y :: t))).
    apply Permutation_skip, IH.
  - apply (Permutation_skip x), IH.
Qed.

(** The last node is never examined: it stays, whatever it holds. *)
Lemma dedup_walk_last l : ∀ sd, last (dedup_walk k sd l) = last l.
Proof.
  induction l as [|x [|y t] IH]; intros sd; [done..|].
  rewrite dedup_walk_step, last_cons_cons.
  destruct (decide (k x = k y)); [|destruct sd]; [by rewrite IH..|].
  specialize (IH false). destruct (dedup_walk k false (y :: t)) eqn:E.
  - rewrite last_cons in IH. by destruct (last t).
  - by rewrite last_cons_cons.
Qed.

(** A queue without equal neighbours is left as it is. *)
Lemma dedup_walk_distinct l :
  (∀ i x y, l !! i = Some x → l !! S i = Some y → k x ≠ k y) →
  dedup_walk k false l = l ∧ dedup_gone k false l = [].
Proof.
  induction l as [|x [|y t] IH]; intros Hd; [done..|].
  rewrite dedup_walk_step, dedup_gone_step.
  assert (k x ≠ k y) as Hxy by (by apply (Hd 0%nat)).
  rewrite !decide_False by done.
  destruct IH as [-> ->]; [|done].
  intros i a b Ha Hb. by apply (Hd (S i)).
Qed.
End dedup_pure.

Section str_at_frame.
Implicit Types (h : gmap Z object) (pl l : list Z).

Lemma str_at_frame h h' a :
  val h' a = val h a → (∀ v, val h a = Some v → chars h' v = chars h v) →
  str_at h' a = str_at h a.
Proof.
  intros Hv Hc. unfold str_at. rewrite Hv.
  destruct (val h a) as [v|]; [simpl|done]. by rewrite Hc.
Qed.
End str_at_frame.

(** ** Ownership of the strings, and what keeps it *)

Section owned.
Implicit Types (h : gmap Z object) (pl l : list Z).

Lemma val_payload h z : val (payload h) z = val h z.
Proof.
  unfold val, payload. rewrite lookup_fmap. by destruct (h !! z) as [[]|].
Qed.

Lemma chars_payload h z : chars (payload h) z = chars h z.
Proof.
  unfold chars, payload. rewrite lookup_fmap. by destruct (h !! z) as [[]|].
Qed.

Lemma owns_perm h l l' : l ≡ₚ l' → owns h l → owns h l'.
Proof. intros Hp [Hall Hnd]. split; by rewrite <- Hp. Qed.

Lemma owns_app_l h l1 l2 : owns h (l1 ++ l2) → owns h l1.
Proof.
  intros [Hall Hnd]. apply Forall_app in Hall as [Hall _].
  rewrite fmap_app in Hnd. by apply NoDup_app in Hnd as (Hnd & _).
Qed.

(** The elements [l] keep their strings, and own them, in every heap that
    gives them the same [value] pointers and the same arrays. *)
Lemma owned_frame h h' l :
  Forall (λ a, is_Some (str_at h a)) l → owns h l →
  (∀ a, a ∈ l → val h' a = val h a) →
  (∀ a, a ∈ l → chars h' (value_of h a) = chars h (value_of h a)) →
  Forall (λ a, is_Some (str_at h' a)) l ∧ owns h' l ∧
  ∀ a, a ∈ l → str_at h' a = str_at h a.
Proof.
  intros Hstr Hown Hval Hchars.
  assert (∀ a, a ∈ l → value_of h' a = value_of h a) as Hvo.
  { intros a Ha. unfold value_of. by rewrite Hval. }
  assert (∀ a, a ∈ l → str_at h' a = str_at h a) as Heq.
  { intros a Ha. apply str_at_frame; [by apply Hval|].
    intros v Hv. specialize (Hchars a Ha). unfold value_of in Hchars.
    by rewrite Hv in Hchars. }
  split_and!; [|split|done].
  - rewrite Forall_forall in *. intros a Ha. rewrite Heq by done. by apply Hstr.
  - destruct Hown as [Hall _]. rewrite Forall_forall in *. intros a Ha.
    rewrite Hval, Hvo, Hchars by done. by apply Hall.
  - destruct Hown as [_ Hnd].
    replace (value_of h' <$> l) with (value_of h <$> l); [done|].
    apply list_fmap_ext. intros i a Ha. symmetry. apply Hvo.
    by apply list_elem_of_lookup_2 in Ha.
Qed.
End owned.

Section q_delete_dup.
Implicit Types (h : gmap Z object) (pl l : list Z).

(** [q_delete_dup] on a non-empty queue whose elements own their
    strings, when the scratch ring can be allocated: the queue is left with
    the nodes [dedup_walk] keeps, holding the strings they held; the other
    nodes, their strings and the scratch ring are released. *)
Lemma q_delete_dup_spec fuel h pl head l gc :
  queue h head l → owns h l → l ≠ [] → alloc_gives h pl gc →
  (length l < fuel)%nat →
  ∃ h', q_delete_dup fuel head (State h pl) = Ok (true, State h' (tail pl)) ∧
        queue h' head (dedup_walk (key h) false l) ∧
        owns h' (dedup_walk (key h) false l) ∧
        (∀ a, a ∈ dedup_walk (key h) false l → str_at h' a = str_at h a) ∧
        (∀ z, z ∈ gc :: dedup_gone (key h) false l
                     ++ (value_of h <$> dedup_gone (key h) false l) →
              h' !! z = None) ∧
        (∀ z, z ∉ gc :: dedup_gone (key h) false l
                     ++ (value_of h <$> dedup_gone (key h) false l) →
              erase_link <$> h' !! z = erase_link <$> h !! z) ∧
        (∀ z, z ∉ head :: l →
              z ∉ gc :: (value_of h <$> dedup_gone (key h) false l) →
              h' !! z = h !! z).
Proof.
  intros Hq Hown Hne Hgc Hfuel.
  pose proof Hq as [Hring Hstr].
  pose proof (ring_head_not_null _ _ _ Hring) as Hhead.
  pose proof Hgc as (_ & Hgcnull & Hgcfree).
  pose proof Hring as (Hnull & Hnd & _).
  set (kept := dedup_walk (key h) false l).
  set (gone := dedup_gone (key h) false l).
  assert (kept ++ gone ≡ₚ l) as Hsplit by apply dedup_split.
  assert (∀ z, z ∈ gone → z ∈ l) as Hgl.
  { intros z Hz. rewrite <- Hsplit. set_solver +Hz. }
  assert (∀ z, z ∈ kept → z ∈ l) as Hkl.
  { intros z Hz. rewrite <- Hsplit. set_solver +Hz. }
  assert (∀ z, z ∈ kept → z ∉ gone) as Hkg.
  { apply NoDup_cons in Hnd as [_ Hndl]. rewrite <- Hsplit in Hndl.
    by apply NoDup_app in Hndl as (_ & ? & _). }
  assert (∀ z, z ∈ head :: l → z ≠ gc) as Hlive.
  { intros z Hz ->. apply (ring_live _ _ _ _ Hring), nxt_live in Hz.
    rewrite Hgcfree in Hz. by destruct Hz. }
  (* the scratch ring *)
  set (h0 := set_prev (set_next
               (<[gc := ObjHead (ListHead junk_ptr junk_ptr)]> h) gc gc) gc gc).
  assert (q_new (State h pl) = Ok (gc, State h0 (tail pl))) as Hnew.
  { unfold q_new, malloc_list_head.
    rewrite (run_bind _ _ _ _ _ (run_malloc_gives _ _ _ _ Hgc)).
    destruct (Z.eqb_spec gc NULL) as [?|_]; [done|].
    unfold INIT_LIST_HEAD. rewrite run_assoc.
    erewrite run_bind; [|apply run_store_next].
    2:{ rewrite nxt_insert, decide_True by done. by eexists. }
    erewrite run_bind; [|apply run_store_prev].
    2:{ rewrite prv_set_next, prv_insert, decide_True by done. by eexists. }
    done. }
  assert (∀ z, z ≠ gc → h0 !! z = h !! z) as Hh0.
  { intros z Hz. unfold h0, set_prev, set_next.
    by rewrite !lookup_alter_ne, lookup_insert_ne. }
  assert (nxt h0 gc = Some gc ∧ prv h0 gc = Some gc) as [Hn0 Hp0].
  { unfold h0. split.
    - rewrite nxt_set_prev, nxt_set_next_eq; [done|].
      rewrite nxt_insert, decide_True by done. by eexists.
    - rewrite prv_set_prev_eq; [done|].
      rewrite prv_set_next, prv_insert, decide_True by done. by eexists. }
  assert (h0 !! NULL = None) as Hnull0 by (by rewrite Hh0).
  assert (ring h0 gc []) as Hring0g.
  { split_and!; [done|apply NoDup_singleton|by simpl]. }
  assert (ring h0 head l) as Hring0.
  { apply (ring_frame h); [done..|]. intros z Hz.
    unfold nxt, prv. by rewrite (Hh0 z (Hlive z Hz)). }
  assert (∀ z, val h0 z = val h z ∧ chars h0 z = chars h z) as Hsame0.
  { intros z. destruct (decide (z = gc)) as [->|Hz].
    - unfold val, chars. rewrite Hgcfree.
      unfold h0, set_prev, set_next.
      rewrite !lookup_alter, !decide_True by done.
      by rewrite lookup_insert_eq.
    - unfold val, chars. by rewrite (Hh0 z Hz). }
  assert (∀ a, str_at h0 a = str_at h a) as Hstr0.
  { intros a. apply str_at_frame; [apply Hsame0|]. intros v _. apply Hsame0. }
  (* the walk *)
  destruct l as [|x t]; [done|].
  destruct (q_delete_dup_loop_spec (key h) (tail pl) head gc (x :: t) [] []
              false h0 (hd head t) fuel) as (h1 & Hloop & Hring1 & Hgc1 & Hpay1 & Hf1);
    [done|done| | |done|done|].
  { intros z [->|[]%elem_of_nil]%elem_of_cons Hin. by apply (Hlive gc). }
  { intros a Ha. rewrite Hstr0. by apply (queue_keys_at h head (x :: t)). }
  fold kept in Hring1. fold gone in Hgc1. simpl in Hring1.
  rewrite app_nil_r in Hgc1.
  assert (∀ z, val h1 z = val h z ∧ chars h1 z = chars h z) as Hsame1.
  { intros z. rewrite (payload_val _ _ z Hpay1), (payload_chars _ _ z Hpay1).
    apply Hsame0. }
  assert (∀ a, value_of h1 a = value_of h a) as Hval1.
  { intros a. unfold value_of. by destruct (Hsame1 a) as [-> _]. }
  assert (value_of h1 <$> reverse gone = reverse (value_of h <$> gone)) as Hvals.
  { rewrite fmap_reverse. f_equal. apply list_fmap_ext. intros ? ? _. apply Hval1. }
  pose proof Hown as [Hall HndV]%owns_alt.
  rewrite <- Hsplit, fmap_app in HndV.
  apply NoDup_app in HndV as (_ & HdisjV & HndVg).
  assert (owns h1 (reverse gone)) as Hown1.
  { apply owns_alt. split.
    - rewrite Forall_forall in *. intros a Ha%elem_of_reverse%Hgl.
      destruct (Hall a Ha) as (v & Hv & Hc). exists v.
      by destruct (Hsame1 a) as [-> _], (Hsame1 v) as [_ ->].
    - rewrite Hvals. by rewrite reverse_Permutation. }
  destruct (q_free_spec fuel (tail pl) h1 gc (reverse gone) Hgc1 Hown1)
    as (h2 & Hfree & Hreleased & Hkept).
  { rewrite length_reverse. apply Permutation_length in Hsplit.
    rewrite length_app in Hsplit. lia. }
  rewrite Hvals in Hreleased, Hkept.
  assert (∀ z, z ∈ gc :: reverse gone ++ reverse (value_of h <$> gone)
               ↔ z ∈ gc :: gone ++ (value_of h <$> gone)) as Hset.
  { intros z. rewrite !elem_of_cons, !elem_of_app, !elem_of_reverse. done. }
  assert (∀ z, z ∈ head :: kept →
               z ∉ gc :: gone ++ (value_of h <$> gone)) as Hnodes.
  { intros z Hz [E|[Hin|Hin]%elem_of_app]%elem_of_cons.
    - apply (Hlive z); [|done].
      apply elem_of_cons in Hz as [?|?%Hkl]; set_solver.
    - apply elem_of_cons in Hz as [->|Hz]; [|by apply (Hkg z)].
      apply NoDup_cons in Hnd as [Hh _]. by apply Hh, Hgl.
    - apply list_elem_of_fmap in Hin as (a & -> & Ha).
      apply (owns_not_link h (x :: t) a (value_of h a)); [done|by apply Hgl| |done].
      apply (ring_live h head (x :: t)); [done|].
      apply elem_of_cons in Hz as [?|?%Hkl]; set_solver. }
  assert (∀ a, a ∈ kept → val h2 a = val h a) as Hvalk.
  { intros a Ha. transitivity (val h1 a); [|apply Hsame1].
    unfold val. rewrite Hkept; [done|]. rewrite Hset. apply Hnodes.
    set_solver +Ha. }
  assert (∀ a, a ∈ kept →
            chars h2 (value_of h a) = chars h (value_of h a)) as Hchk.
  { intros a Ha. transitivity (chars h1 (value_of h a)); [|apply Hsame1].
    unfold chars. rewrite Hkept; [done|]. rewrite Hset.
    destruct (owns_value h (x :: t) a Hown (Hkl a Ha)) as [_ Hc].
    intros [E|[Hin|Hin]%elem_of_app]%elem_of_cons.
    - rewrite E in Hc. apply chars_is_live in Hc. rewrite Hgcfree in Hc.
      by destruct Hc.
    - apply (link_not_chars h (value_of h a)); [|done].
      apply (ring_live h head (x :: t)); [done|]. apply Hgl in Hin.
      set_solver +Hin.
    - apply (HdisjV (value_of h a)); [|done]. by apply list_elem_of_fmap_2. }
  destruct (owned_frame h h2 kept) as (Hstrk & Hownk & Hstr2); [| |done|done|].
  { rewrite Forall_forall in *. intros a Ha. by apply Hstr, Hkl. }
  { apply (owns_app_l h kept gone), (owns_perm h (x :: t)); [|done].
    by rewrite Hsplit. }
  exists h2. split_and!.
  - unfold q_delete_dup. destruct (Z.eqb_spec head NULL) as [?|_]; [done|].
    assert (nxt h head = Some x) as Hfirst.
    { destruct Hring as (_ & _ & HL). by destruct HL. }
    rewrite (run_bind _ _ _ _ _ (run_list_empty _ _ _ _ Hfirst)).
    destruct (Z.eqb_spec x head) as [E|_].
    { apply NoDup_cons in Hnd as [Hh _]. destruct Hh. set_solver +E. }
    rewrite (run_bind _ _ _ _ _ Hnew).
    destruct (Z.eqb_spec gc NULL) as [?|_]; [done|].
    erewrite run_bind; [|apply run_load_next].
    2:{ destruct Hring0 as (_ & _ & HL). by destruct HL. }
    erewrite run_bind; [|apply run_load_next; apply (ring_nxt h0 head [] x t Hring0)].
    rewrite (run_bind _ _ _ _ _ Hloop), (run_bind _ _ _ _ _ Hfree). done.
  - split.
    + apply (ring_frame h1); [done| |].
      * destruct (decide (NULL ∈ gc :: reverse gone ++ reverse (value_of h <$> gone)))
          as [Hin|Hout]; [by apply Hreleased|].
        rewrite Hkept by done. by destruct Hring1.
      * intros z Hz. unfold nxt, prv. rewrite Hkept; [done|].
        rewrite Hset. by apply Hnodes.
    + done.
  - done.
  - done.
  - intros z Hz. apply Hreleased. by rewrite Hset.
  - intros z Hz. rewrite Hkept by (by rewrite Hset).
    rewrite (payload_lookup h1 h0 z Hpay1).
    destruct (decide (z = gc)) as [->|Hzg]; [|by rewrite Hh0].
    destruct Hz. set_solver +.
  - intros z Hz Hzv. rewrite Hkept.
    + rewrite <- Hh0 by set_solver +Hzv. apply obj_ext; [done|..]; apply Hf1.
      * done.
      * set_solver +Hzv.
      * done.
      * set_solver +Hzv.
    + rewrite Hset. intros [E|[Hin|Hin]%elem_of_app]%elem_of_cons.
      * apply Hzv. set_solver +E.
      * apply Hz. apply Hgl in Hin. set_solver +Hin.
      * apply Hzv. set_solver +Hin.
Qed.
End q_delete_dup.

(** ** [q_delete_dup] against its contract *)

Section dedup_contract.
Context (k : Z → list byte).
Implicit Types (l P : list Z) (sd : bool).

Lemma occurrences_app l1 l2 v :
  occurrences k (l1 ++ l2) v = (occurrences k l1 v + occurrences k l2 v)%nat.
Proof. unfold occurrences. by rewrite filter_app, length_app. Qed.

Lemma occurrences_cons x l v :
  occurrences k (x :: l) v
  = ((if decide (k x = v) then 1 else 0) + occurrences k l v)%nat.
Proof. unfold occurrences. rewrite filter_cons. by case_decide. Qed.

Lemma occurrences_mid P x l :
  occurrences k (P ++ x :: l) (k x)
  = S (occurrences k P (k x) + occurrences k l (k x)).
Proof.
  rewrite occurrences_app, occurrences_cons.
  rewrite (decide_True (P := k x = k x)) by done. lia.
Qed.

Lemma occurrences_pos l v :
  (0 < occurrences k l v)%nat ↔ ∃ a, a ∈ l ∧ k a = v.
Proof.
  unfold occurrences. split.
  - destruct (filter _ l) as [|a f] eqn:E; [simpl; lia|]. intros _.
    assert (a ∈ filter (λ b, k b = v) l) as Ha by (rewrite E; set_solver +).
    apply list_elem_of_filter in Ha as [? ?]. eauto.
  - intros (a & Ha & Hv).
    assert (a ∈ filter (λ b, k b = v) l) as Hin by (by apply list_elem_of_filter).
    destruct (filter _ l); [by apply elem_of_nil in Hin|simpl; lia].
Qed.

Lemma occurrences_zero l v :
  occurrences k l v = 0%nat ↔ ∀ a, a ∈ l → k a ≠ v.
Proof.
  split.
  - intros E a Ha Hv. assert (0 < occurrences k l v)%nat; [|lia].
    apply occurrences_pos. eauto.
  - intros Hn. destruct (occurrences k l v) eqn:E; [done|].
    assert (0 < occurrences k l v)%nat as (a & Ha & Hv)%occurrences_pos by lia.
    by destruct (Hn a Ha).
Qed.

(** In a sorted list, equal strings sit between equal strings. *)
Lemma sorted_between P x l z :
  StronglySorted (le_by k) (P ++ x :: l) → z ∈ l → le_by k z x → k z = k x.
Proof.
  intros Hs Hz Hzx. apply StronglySorted_app_1_r in Hs.
  apply StronglySorted_cons in Hs as [Hall _]. rewrite Forall_forall in Hall.
  apply lex_leb_antisym; [done|]. by apply Hall.
Qed.

Lemma sorted_before P x l p :
  StronglySorted (le_by k) (P ++ x :: l) → p ∈ P → le_by k p x.
Proof.
  intros Hs Hp.
  apply (StronglySorted_app_1_elem_of _ _ _ _ _ Hs); [done|set_solver +].
Qed.

(** On a sorted queue the walk keeps the nodes whose string occurs once
    and, when the queue ends on a duplicate, its last node as well. *)
Lemma dedup_walk_sorted_gen l : ∀ P sd,
  StronglySorted (le_by k) (P ++ l) →
  (∀ x t, l = x :: t → sd = true ↔ (0 < occurrences k P (k x))%nat) →
  dedup_walk k sd l
  = filter (λ a, occurrences k (P ++ l) (k a) = 1%nat) l
    ++ (if ends_dup k sd l then option_list (last l) else []).
Proof.
  induction l as [|x [|y t] IH]; intros P sd Hs Hsd; [done| |].
  - specialize (Hsd x [] eq_refl). simpl.
    rewrite filter_cons, filter_nil, occurrences_mid.
    unfold occurrences at 2. simpl.
    destruct sd.
    + rewrite decide_False; [done|]. destruct Hsd as [Hsd _].
      specialize (Hsd eq_refl). lia.
    + rewrite decide_True; [done|].
      destruct (occurrences k P (k x)) eqn:E; [done|].
      assert (false = true) by (apply Hsd; lia). done.
  - specialize (Hsd x (y :: t) eq_refl).
    assert (StronglySorted (le_by k) ((P ++ [x]) ++ y :: t)) as Hs'
      by (by rewrite <- (assoc_L (++))).
    specialize (IH (P ++ [x]) (bool_decide (k x = k y)) Hs').
    rewrite <- (assoc_L (++)) in IH.
    change ([x] ++ y :: t) with (x :: y :: t) in IH.
    assert (le_by k x y) as Hxy.
    { apply StronglySorted_app_1_r in Hs.
      apply StronglySorted_cons in Hs as [Hall _]. rewrite Forall_forall in Hall.
      apply Hall. set_solver +. }
    lapply IH; [clear IH; intros IH|].
    2:{ intros ? ? [= <- <-]. rewrite bool_decide_eq_true. split.
        - intros E. rewrite occurrences_app, occurrences_cons.
          rewrite (decide_True (P := k x = k y)) by done. lia.
        - intros (p & [Hp| ->%list_elem_of_singleton]%elem_of_app & E)
            %occurrences_pos; [|done].
          apply lex_leb_antisym; [done|]. unfold le_by in *. rewrite <- E.
          by apply (sorted_before P x (y :: t) p). }
    rewrite dedup_walk_step, filter_cons.
    change (ends_dup k sd (x :: y :: t))
      with (ends_dup k (bool_decide (k x = k y)) (y :: t)).
    rewrite last_cons_cons.
    rewrite occurrences_mid.
    assert (occurrences k (y :: t) (k x) = 0%nat ↔ k x ≠ k y) as Hafter.
    { rewrite occurrences_zero. split.
      - intros Hn E. apply (Hn y); [set_solver +|done].
      - intros Hn z Hz E. apply Hn. symmetry.
        apply elem_of_cons in Hz as [->|Hz]; [done|].
        rewrite <- E. symmetry.
        apply (sorted_between (P ++ [x]) y t z).
        + by rewrite <- (assoc_L (++)).
        + done.
        + unfold le_by in *. by rewrite E. }
    destruct (decide (k x = k y)) as [E|E].
    + rewrite bool_decide_eq_true_2 in * by done. rewrite IH.
      rewrite decide_False; [done|].
      assert (occurrences k (y :: t) (k x) ≠ 0%nat) by (rewrite Hafter; tauto).
      lia.
    + rewrite bool_decide_eq_false_2 in * by done. rewrite !IH.
      apply Hafter in E. rewrite E. destruct sd.
      * rewrite decide_False; [done|]. destruct Hsd as [Hsd _].
        specialize (Hsd eq_refl). lia.
      * rewrite decide_True; [done|].
        destruct (occurrences k P (k x)) eqn:E'; [done|].
        assert (false = true) by (apply Hsd; lia). done.
Qed.

Lemma dedup_walk_sorted l :
  StronglySorted (le_by k) l →
  dedup_walk k false l
  = occurs_once k l ++ (if ends_dup k false l then option_list (last l) else []).
Proof.
  intros Hs. apply (dedup_walk_sorted_gen l []); [done|].
  intros x t _. unfold occurrences. simpl. split; [done|lia].
Qed.
End dedup_contract.

(** X16. [q_delete_dup] on a sorted queue: the nodes whose string occurs
    once stay, and so does the last node when it repeats the one before it;
    the nodes that stay hold the strings they held. *)
Lemma q_delete_dup_sorted fuel h pl head l gc :
  queue h head l → owns h l → l ≠ [] → alloc_gives h pl gc →
  (length l < fuel)%nat → StronglySorted (str_le h) l →
  ∃ h', q_delete_dup fuel head (State h pl) = Ok (true, State h' (tail pl)) ∧
        queue h' head
          (occurs_once (key h) l
           ++ (if ends_dup (key h) false l then option_list (last l) else [])) ∧
        (∀ a, a ∈ l → is_Some (h' !! a) → str_at h' a = str_at h a).
Proof.
  intros Hq Hown Hne Hgc Hfuel Hs.
  destruct (q_delete_dup_spec fuel h pl head l gc Hq Hown Hne Hgc Hfuel)
    as (h' & Hrun & Hq' & _ & Hstr & Hgone & _).
  exists h'. split_and!; [done| |].
  - by rewrite <- dedup_walk_sorted.
  - intros a Ha Hlive.
    pose proof (dedup_split (key h) l false) as Hsplit.
    rewrite <- Hsplit in Ha. apply elem_of_app in Ha as [Ha|Ha]; [by apply Hstr|].
    rewrite Hgone in Hlive by set_solver +Ha. by destruct Hlive.
Qed.

(** On the queue ["a"; "a"; "b"; "c"; "c"] only ["b"] occurs once, the queue
    ends on a duplicate, and the node of the last ["c"] stays with the one
    of ["b"]. *)
Lemma q_delete_dup_sorted_witness :
  let s := sample [1000; 1000; 1001; 1002; 1002] in
  let l := [32; 48; 64; 80; 96] in
  queue (mem s) 16 l ∧ owns (mem s) l ∧ alloc_gives (mem s) (pool s) 112 ∧
  StronglySorted (str_le (mem s)) l ∧
  occurs_once (key (mem s)) l = [64] ∧ ends_dup (key (mem s)) false l = true ∧
  ∃ h', q_delete_dup 7 16 (State (mem s) (pool s)) = Ok (true, State h' (tail (pool s))) ∧
        queue h' 16 [64; 96].
Proof.
  intros s l.
  assert (queue (mem s) 16 l) as Hq by compute_done.
  assert (owns (mem s) l) as Hown by compute_done.
  assert (alloc_gives (mem s) (pool s) 112) as Hgc by compute_done.
  assert (StronglySorted (str_le (mem s)) l) as Hs by compute_done.
  assert (occurs_once (key (mem s)) l = [64]) as Honce by (by vm_compute).
  assert (ends_dup (key (mem s)) false l = true) as Hend by (by vm_compute).
  split_and!; [done..|].
  destruct (q_delete_dup_sorted 7 (mem s) (pool s) 16 l 112)
    as (h' & Hrun & Hq' & _); [done|done|done|done|simpl; lia|done|].
  rewrite Honce, Hend in Hq'. exists h'. split; [exact Hrun|exact Hq'].
Defined.

(** * The rest of [queue.c], and how its functions compose *)

(** ** A ring fixes the links of its nodes *)

Section ring_links.
Implicit Types (h : gmap Z object) (pl l : list Z).

Lemma linked_mid h A x y B :
  linked h (A ++ x :: y :: B) → nxt h x = Some y ∧ prv h y = Some x.
Proof. intros [_ HL]%linked_app. by destruct HL as (? & ? & _). Qed.

Lemma cons_snoc (x : Z) A : ∃ A' w, x :: A = A' ++ [w].
Proof.
  revert x. induction A as [|y A IH]; intros x.
  - by exists [], x.
  - destruct (IH y) as (A' & w & ->). by exists (x :: A'), w.
Qed.

Lemma ring_next_of h head l z :
  ring h head l → z ∈ head :: l →
  ∃ A y B, head :: l ++ [head] = A ++ z :: y :: B.
Proof.
  intros _ (A & B & E)%list_elem_of_split.
  change (head :: l ++ [head]) with ((head :: l) ++ [head]). rewrite E.
  rewrite <- (assoc_L (++)). simpl.
  destruct B as [|y B]; [by exists A, head, []|].
  by exists A, y, (B ++ [head]).
Qed.

Lemma ring_prev_of h head l z :
  ring h head l → z ∈ head :: l →
  ∃ A w B, head :: l ++ [head] = A ++ w :: z :: B.
Proof.
  intros _ [->|Hz]%elem_of_cons.
  - destruct (cons_snoc head l) as (A' & w & E). exists A', w, [].
    change (head :: l ++ [head]) with ((head :: l) ++ [head]).
    by rewrite E, <- (assoc_L (++)).
  - apply list_elem_of_split in Hz as (A & B & ->).
    destruct (cons_snoc head A) as (A' & w & E). exists A', w, (B ++ [head]).
    rewrite <- (assoc_L (++)), app_comm_cons, E, <- (assoc_L (++)). done.
Qed.

(** Two heaps in which the same nodes form the same ring give these nodes
    the same links. *)
Lemma ring_links h h' head l z :
  ring h head l → ring h' head l → z ∈ head :: l →
  nxt h' z = nxt h z ∧ prv h' z = prv h z.
Proof.
  intros Hr Hr' Hz. split.
  - destruct (ring_next_of _ _ _ _ Hr Hz) as (A & y & B & E).
    destruct Hr as (_ & _ & HL), Hr' as (_ & _ & HL'). rewrite E in HL, HL'.
    apply linked_mid in HL as [-> _]. by apply linked_mid in HL' as [-> _].
  - destruct (ring_prev_of _ _ _ _ Hr Hz) as (A & w & B & E).
    destruct Hr as (_ & _ & HL), Hr' as (_ & _ & HL'). rewrite E in HL, HL'.
    apply linked_mid in HL as [_ ->]. by apply linked_mid in HL' as [_ ->].
Qed.

Lemma obj_ext_at h h' p :
  erase_link <$> h !! p = erase_link <$> h' !! p →
  nxt h p = nxt h' p → prv h p = prv h' p → h !! p = h' !! p.
Proof.
  intros E Hn Hp. unfold nxt, prv in *.
  destruct (h !! p) as [[[]|[? []]|]|], (h' !! p) as [[[]|[? []]|]|];
    simplify_eq/=; done.
Qed.

(** An operation that keeps the payload, the ring and the links outside
    the ring has left the heap as it was. *)
Lemma ring_heap_eq h h' head l :
  ring h head l → ring h' head l → payload h' = payload h →
  (∀ z, z ∉ head :: l → nxt h' z = nxt h z ∧ prv h' z = prv h z) →
  h' = h.
Proof.
  intros Hr Hr' Hpay Hout. apply heap_ext; [done|..]; intros p;
    (destruct (decide (p ∈ head :: l)) as [Hp|Hp];
     [by apply (ring_links h h' head l)|by apply Hout]).
Qed.
End ring_links.

(** ** [q_size] *)

Section q_size.
Implicit Types (h : gmap Z object) (pl l R : list Z).

Lemma q_size_loop_spec pl head h R : ∀ pos size fuel,
  path (nxt h) pos R head → head ∉ R →
  INT_MIN ≤ size → size + Z.of_nat (length R) ≤ INT_MAX →
  (length R < fuel)%nat →
  q_size_loop fuel head pos size (State h pl)
  = Ok (size + Z.of_nat (length R), State h pl).
Proof.
  induction R as [|x R IH]; intros pos size fuel Hpath Hhead Hlo Hhi Hfuel;
    (destruct fuel as [|fuel]; [simpl in Hfuel; lia|]); simpl in Hpath.
  - subst pos. simpl. rewrite Z.eqb_refl. by rewrite Z.add_0_r.
  - destruct Hpath as [-> (n & Hn & Hpath)].
    apply not_elem_of_cons in Hhead as [Hxh HhR].
    cbn [q_size_loop]. destruct (Z.eqb_spec x head) as [?|_]; [done|].
    unfold int_add. rewrite bool_decide_eq_true_2.
    2:{ rewrite length_cons in Hhi. lia. }
    erewrite run_bind; [|reflexivity].
    rewrite (run_bind _ _ _ _ _ (run_load_next _ _ _ _ Hn)).
    rewrite (IH n (size + 1) fuel); [| done..| | |].
    + f_equal. f_equal. rewrite length_cons. lia.
    + lia.
    + rewrite length_cons in Hhi. lia.
    + simpl in Hfuel. lia.
Qed.
End q_size.

Lemma q_size_ring h pl head l fuel :
  ring h head l → (length l < fuel)%nat → Z.of_nat (length l) ≤ INT_MAX →
  q_size fuel head (State h pl) = Ok (Z.of_nat (length l), State h pl).
Proof.
  intros Hring Hfuel Hmax.
  pose proof (ring_head_not_null _ _ _ Hring) as Hhead.
  pose proof (ring_nil_iff _ _ _ Hring) as Hnil.
  pose proof (ring_path_next _ _ _ Hring) as [_ (first & Hfirst & Hpath)].
  unfold q_size. destruct (Z.eqb_spec head NULL) as [?|_]; [done|].
  rewrite (run_bind _ _ _ _ _ (run_list_empty _ _ _ _ Hfirst)).
  destruct (Z.eqb_spec first head) as [->|Hne].
  { by rewrite (proj1 Hnil Hfirst). }
  rewrite (run_bind _ _ _ _ _ (run_load_next _ _ _ _ Hfirst)).
  rewrite (q_size_loop_spec pl head h l first 0 fuel); [done|done| |done..].
  by destruct Hring as (_ & [Hh _]%NoDup_cons & _).
Qed.

(** X1. [q_size] returns the number of elements of the queue and changes
    nothing, for every queue of at most [INT_MAX] elements, the empty one
    included; on an absent queue it returns 0. *)
Theorem q_size_length h pl head l fuel :
  ring h head l → (length l < fuel)%nat → Z.of_nat (length l) ≤ INT_MAX →
  q_size fuel head (State h pl) = Ok (Z.of_nat (length l), State h pl) ∧
  q_size fuel NULL (State h pl) = Ok (0, State h pl).
Proof.
  intros Hring Hfuel Hmax. split; [|done].
  by apply q_size_ring.
Qed.

Lemma q_size_length_witness :
  let s := sample [1000; 1001; 1002] in
  ring (mem s) 16 [32; 48; 64] ∧ (3 < 4)%nat ∧ 3 ≤ INT_MAX ∧
  q_size 4 16 (State (mem s) (pool s)) = Ok (3, State (mem s) (pool s)) ∧
  q_size 4 NULL (State (mem s) (pool s)) = Ok (0, State (mem s) (pool s)).
Proof.
  intros s. split; [compute_done|]. split; [lia|]. split; [done|].
  apply (q_size_length (mem s) (pool s) 16 [32; 48; 64] 4);
    [compute_done|simpl; lia|done].
Defined.

(** ** [q_new] and [q_free] *)

Section q_new.
Implicit Types (h : gmap Z object) (pl l : list Z).

Lemma run_fault {A B} (m : M A) (k : A → M B) s :
  m s = Fault → (m ≫= k) s = Fault.
Proof. intros E. unfold mbind, M_bind. by rewrite E. Qed.

(** A successful [q_new]: the new object is its own successor and
    predecessor. *)
Lemma q_new_gives h pl gc :
  alloc_gives h pl gc →
  q_new (State h pl)
  = Ok (gc, State (<[gc := ObjHead (ListHead gc gc)]> h) (tail pl)).
Proof.
  intros Hgc. pose proof Hgc as (_ & Hnull & _).
  unfold q_new, malloc_list_head.
  rewrite (run_bind _ _ _ _ _ (run_malloc_gives _ _ _ _ Hgc)).
  destruct (Z.eqb_spec gc NULL) as [?|_]; [done|].
  unfold INIT_LIST_HEAD. rewrite run_assoc.
  erewrite run_bind; [|apply run_store_next].
  2:{ rewrite nxt_insert, decide_True by done. by eexists. }
  erewrite run_bind; [|apply run_store_prev].
  2:{ rewrite prv_set_next, prv_insert, decide_True by done. by eexists. }
  unfold set_prev, set_next. by rewrite !alter_insert_eq.
Qed.

Lemma q_new_fails h pl :
  alloc_fails h pl → q_new (State h pl) = Ok (NULL, State h (tail pl)).
Proof.
  intros Hfail. unfold q_new, malloc_list_head.
  by rewrite (run_bind _ _ _ _ _ (run_malloc_fails _ _ _ Hfail)).
Qed.

Lemma ring_new h gc :
  h !! NULL = None → gc ≠ NULL →
  ring (<[gc := ObjHead (ListHead gc gc)]> h) gc [].
Proof.
  intros Hnull Hgc. split_and!.
  - by rewrite lookup_insert_ne.
  - apply NoDup_singleton.
  - simpl. by rewrite nxt_insert, prv_insert, !decide_True.
Qed.
End q_new.

(** X2. [q_new] returns [NULL] and leaves the heap as it is when the
    allocation fails; otherwise it returns the new object, which is an empty
    ring (its own successor and predecessor), and no other object is
    touched. *)
Theorem q_new_empty_ring h pl :
  (alloc_fails h pl → q_new (State h pl) = Ok (NULL, State h (tail pl))) ∧
  (∀ gc, alloc_gives h pl gc → h !! NULL = None →
     ∃ h', q_new (State h pl) = Ok (gc, State h' (tail pl)) ∧
           ring h' gc [] ∧ ∀ z, z ≠ gc → h' !! z = h !! z).
Proof.
  split.
  - apply q_new_fails.
  - intros gc Hgc Hnull. eexists. split; [by apply q_new_gives|].
    split; [apply ring_new; [done|by destruct Hgc as (_ & ? & _)]|].
    intros z Hz. by rewrite lookup_insert_ne.
Qed.

Lemma q_new_empty_ring_witness :
  let s := sample_init in
  (alloc_fails (mem s) [] ∧
   q_new (State (mem s) []) = Ok (NULL, State (mem s) [])) ∧
  alloc_gives (mem s) (pool s) 16 ∧ mem s !! NULL = None ∧
  ∃ h', q_new (State (mem s) (pool s)) = Ok (16, State h' (tail (pool s))) ∧
        ring h' 16 [] ∧ ∀ z, z ≠ 16 → h' !! z = mem s !! z.
Proof.
  intros s.
  pose proof (q_new_empty_ring (mem s) []) as [Hfail _].
  pose proof (q_new_empty_ring (mem s) (pool s)) as [_ Hgives].
  split; [split; [done|by apply Hfail]|].
  split; [compute_done|]. split; [compute_done|].
  apply Hgives; compute_done.
Defined.

(** X3. [q_free] releases the queue handle, every element of the queue and
    the string of every element, and touches no other object, for every
    queue whose elements own their strings; afterwards the handle is
    dangling (using it is undefined).  On an absent queue it does nothing. *)
Theorem q_free_releases h pl head l fuel :
  ring h head l → owns h l → (length l < fuel)%nat →
  q_free fuel NULL (State h pl) = Ok (tt, State h pl) ∧
  ∃ h', q_free fuel head (State h pl) = Ok (tt, State h' pl) ∧
        (∀ z, z ∈ head :: l ++ (value_of h <$> l) → h' !! z = None) ∧
        (∀ z, z ∉ head :: l ++ (value_of h <$> l) → h' !! z = h !! z) ∧
        q_size fuel head (State h' pl) = Fault.
Proof.
  intros Hring Hown Hfuel. split; [done|].
  destruct (q_free_spec fuel pl h head l Hring Hown Hfuel)
    as (h' & Hrun & Hgone & Hkept).
  exists h'. split_and!; [done..|].
  pose proof (ring_head_not_null _ _ _ Hring) as Hhead.
  unfold q_size. destruct (Z.eqb_spec head NULL) as [?|_]; [done|].
  apply run_fault. unfold list_empty. apply run_fault.
  unfold load_next, nxt. simpl. rewrite Hgone; [done|]. set_solver +.
Qed.

Lemma q_free_releases_witness :
  let s := sample [1000; 1001] in
  ring (mem s) 16 [32; 48] ∧ owns (mem s) [32; 48] ∧ (2 < 3)%nat ∧
  q_free 3 NULL (State (mem s) (pool s)) = Ok (tt, State (mem s) (pool s)) ∧
  ∃ h', q_free 3 16 (State (mem s) (pool s)) = Ok (tt, State h' (pool s)) ∧
        (∀ z, z ∈ 16 :: [32; 48] ++ (value_of (mem s) <$> [32; 48]) →
              h' !! z = None) ∧
        (∀ z, z ∉ 16 :: [32; 48] ++ (value_of (mem s) <$> [32; 48]) →
              h' !! z = mem s !! z) ∧
        q_size 3 16 (State h' (pool s)) = Fault.
Proof.
  intros s. split; [compute_done|]. split; [compute_done|]. split; [lia|].
  apply (q_free_releases (mem s) (pool s) 16 [32; 48] 3);
    [compute_done|compute_done|simpl; lia].
Defined.

(** X4. A queue that is created and freed at once leaves the heap exactly
    as it was, whether the allocation succeeds or not: [q_free] accepts the
    [NULL] that a failed [q_new] returns. *)
Theorem q_new_free h pl fuel :
  (0 < fuel)%nat →
  (q_new ≫= q_free fuel) (State h pl) = Ok (tt, State h (tail pl)).
Proof.
  intros Hfuel. destruct fuel as [|fuel]; [lia|].
  destruct pl as [|p pl].
  { by rewrite (run_bind _ _ _ _ _ (q_new_fails h [] I)). }
  destruct (decide (p ≠ NULL ∧ h !! p = None)) as [[Hp Hfree]|Hno].
  - rewrite (run_bind _ _ _ _ _ (q_new_gives h (p :: pl) p (conj eq_refl (conj Hp Hfree)))).
    unfold q_free. destruct (Z.eqb_spec p NULL) as [?|_]; [done|].
    assert (nxt (<[p := ObjHead (ListHead p p)]> h) p = Some p) as Hn
      by (by rewrite nxt_insert, decide_True).
    rewrite !(run_bind _ _ _ _ _ (run_load_next _ _ _ _ Hn)).
    cbn [q_free_loop]. rewrite Z.eqb_refl.
    erewrite run_bind; [|reflexivity].
    rewrite run_free; [|done|by rewrite lookup_insert_eq].
    by rewrite delete_insert_id.
  - assert (alloc_fails h (p :: pl)) as Hfail.
    { simpl. destruct (decide (p = NULL)); [by left|right].
      destruct (h !! p) eqn:E; [done|by destruct Hno]. }
    by rewrite (run_bind _ _ _ _ _ (q_new_fails h (p :: pl) Hfail)).
Qed.

Lemma q_new_free_witness :
  (0 < 1)%nat ∧
  (q_new ≫= q_free 1) (State (mem sample_init) (pool sample_init))
  = Ok (tt, State (mem sample_init) (tail (pool sample_init))).
Proof.
  split; [lia|].
  apply (q_new_free (mem sample_init) (pool sample_init) 1). lia.
Defined.

(** ** The insertions keep the queue and the ownership of its strings *)

Section insert_owned.
Context (ins : Z → Z → M bool) (place : list Z → Z → list Z).
Context (place_perm : ∀ l e, place l e ≡ₚ e :: l).
Implicit Types (h : gmap Z object) (pl l : list Z).

Lemma insert_owned h pl head s l b e v :
  insert_outcome ins place h pl head s l b →
  queue h head l → owns h l →
  alloc_gives h pl e → alloc_gives (<[e := junk_element]> h) (tail pl) v →
  ∃ h', ins head s (State h pl) = Ok (true, State h' (tail (tail pl))) ∧
        queue h' head (place l e) ∧ owns h' (place l e) ∧
        str_at h' e = Some (c_str b) ∧
        (∀ a, a ∈ l → str_at h' a = str_at h a) ∧
        (∀ z, z ≠ e → z ≠ v →
              erase_link <$> h' !! z = erase_link <$> h !! z).
Proof.
  intros (_ & _ & _ & _ & Hout) [Hring Hstr] Hown He Hv.
  destruct (Hout e v He Hv) as (h' & Hrun & Hring' & Hse & Hve & Hce & Hpay).
  destruct He as (_ & _ & Hefree), Hv as (_ & _ & Hvfree).
  assert (v ≠ e) as Hve_ne.
  { intros ->. by rewrite lookup_insert_eq in Hvfree. }
  rewrite lookup_insert_ne in Hvfree by done.
  assert (∀ z, z ≠ e → z ≠ v →
            erase_link <$> h' !! z = erase_link <$> h !! z) as Hsame.
  { intros z Hze Hzv. rewrite <- !lookup_fmap.
    change (payload h' !! z = payload h !! z).
    by rewrite Hpay, !lookup_insert_ne. }
  assert (∀ z, is_Some (h !! z) → val h' z = val h z ∧ chars h' z = chars h z)
    as Hlive.
  { intros z Hz.
    assert (z ≠ e) by (intros ->; rewrite Hefree in Hz; by destruct Hz).
    assert (z ≠ v) by (intros ->; rewrite Hvfree in Hz; by destruct Hz).
    specialize (Hsame z ltac:(done) ltac:(done)). unfold val, chars.
    destruct (h' !! z) as [[]|], (h !! z) as [[]|]; simplify_eq/=;
      first [by destruct Hz|split; congruence]. }
  destruct (owned_frame h h' l Hstr Hown) as (Hstr' & Hown' & Heq).
  { intros a Ha. apply Hlive, nxt_live, (ring_live h head l); [done|].
    set_solver +Ha. }
  { intros a Ha. apply Hlive, chars_is_live.
    by destruct (owns_value h l a Hown Ha). }
  exists h'. split_and!; [done| | |done|done|done].
  - split; [done|]. rewrite place_perm. apply Forall_cons. split; [|done].
    by rewrite Hse.
  - apply (owns_perm h' (e :: l)); [by rewrite place_perm|].
    assert (value_of h' e = v) as Hvo by (unfold value_of; by rewrite Hve).
    destruct Hown' as [Hall Hnd]. split.
    + apply Forall_cons. split; [|done]. rewrite Hvo, Hve, Hce. eauto.
    + rewrite fmap_cons, Hvo. apply NoDup_cons. split; [|done].
      intros (a & E & Ha)%list_elem_of_fmap.
      assert (val h' a = val h a) as Hvala.
      { apply Hlive, nxt_live, (ring_live h head l); [done|set_solver +Ha]. }
      destruct (owns_value h l a Hown Ha) as [_ Hca].
      apply chars_is_live in Hca.
      replace (value_of h a) with v in Hca.
      2:{ rewrite E. unfold value_of. by rewrite Hvala. }
      rewrite Hvfree in Hca. by destruct Hca.
Qed.
End insert_owned.

Section insert_then.
Implicit Types (h : gmap Z object) (pl l : list Z) (b : list byte).

Lemma str_at_payload h a : str_at (payload h) a = str_at h a.
Proof.
  unfold str_at. rewrite val_payload. destruct (val h a) as [v|]; [simpl|done].
  by rewrite chars_payload.
Qed.

(** The strings of a heap stay when two new objects are added to it. *)
Lemma str_at_fresh h h' e v E C a :
  payload h' = <[v := C]> (<[e := E]> (payload h)) →
  h !! e = None → h !! v = None →
  is_Some (str_at h a) → str_at h' a = str_at h a.
Proof.
  intros Hpay He Hv [s Hs].
  rewrite <- (str_at_payload h'), Hpay, <- (str_at_payload h).
  unfold str_at in Hs. destruct (val h a) as [va|] eqn:Hva; [|done].
  simpl in Hs. destruct (chars h va) as [ca|] eqn:Hca; [|done].
  assert (a ≠ e ∧ a ≠ v) as [? ?].
  { split; intros ->; unfold val in Hva; by rewrite ?He, ?Hv in Hva. }
  assert (va ≠ e ∧ va ≠ v) as [? ?].
  { split; intros ->; unfold chars in Hca; by rewrite ?He, ?Hv in Hca. }
  apply str_at_frame.
  - unfold val. by rewrite !lookup_insert_ne.
  - intros w Hw. rewrite val_payload, Hva in Hw. injection Hw as <-.
    unfold chars. by rewrite !lookup_insert_ne.
Qed.

(** After an insertion and a removal that leave the nodes [l] in the
    ring, whatever their order, every node of the queue is as it was. *)
Lemma ring_restored h h2 head l e v E C :
  ring h head l → ring h2 head l →
  payload h2 = <[v := C]> (<[e := E]> (payload h)) →
  h !! e = None → h !! v = None →
  ∀ z, z ∈ head :: l → h2 !! z = h !! z.
Proof.
  intros Hr Hr2 Hpay He Hv z Hz.
  pose proof (nxt_live _ _ (ring_live h head l z Hr Hz)) as Hlive.
  assert (z ≠ e) by (intros ->; rewrite He in Hlive; by destruct Hlive).
  assert (z ≠ v) by (intros ->; rewrite Hv in Hlive; by destruct Hlive).
  destruct (ring_links h2 h head l z Hr2 Hr Hz) as [Hn Hp].
  apply obj_ext_at; [|done..].
  rewrite <- !lookup_fmap. change (payload h2 !! z = payload h !! z).
  by rewrite Hpay, !lookup_insert_ne.
Qed.
End insert_then.

(** X5. For every string shorter than [INT_MAX] both insertions do what
    their contract says: they return false, and leave the heap as it was,
    on an absent queue, an absent string or a failed allocation (the element
    is released when only the allocation of its array fails); when both
    allocations succeed they return true, the new element is the first,
    respectively the last, node of the ring and holds the string in a new
    array of exactly its length plus one, and nothing else changes. *)
Theorem q_insert_in_range h pl head s l b n :
  ring h head l → chars h s = Some b → nul_index b = Some n →
  Z.of_nat n < INT_MAX →
  insert_outcome q_insert_head (λ l e, e :: l) h pl head s l b ∧
  insert_outcome q_insert_tail (λ l e, l ++ [e]) h pl head s l b.
Proof.
  intros Hring Hs Hn Hlen. split.
  - by apply (q_insert_head_in_range h pl head s l b n).
  - by apply (q_insert_tail_in_range h pl head s l b n).
Qed.

Lemma q_insert_in_range_witness :
  let s := sample [1000; 1001] in
  let b := list_byte_of_string "c" ++ [x00] in
  ring (mem s) 16 [32; 48] ∧ chars (mem s) 1002 = Some b ∧
  nul_index b = Some 1%nat ∧ Z.of_nat 1 < INT_MAX ∧
  insert_outcome q_insert_head (λ l e, e :: l) (mem s) (pool s) 16 1002 [32; 48] b ∧
  insert_outcome q_insert_tail (λ l e, l ++ [e]) (mem s) (pool s) 16 1002 [32; 48] b.
Proof.
  intros s b. split; [compute_done|]. split; [by vm_compute|].
  split; [by vm_compute|]. split; [done|].
  apply (q_insert_in_range (mem s) (pool s) 16 1002 [32; 48] b 1);
    [compute_done|by vm_compute|by vm_compute|done].
Defined.

(** X6. The insertions keep the invariant of the queue: after a successful
    [q_insert_head] or [q_insert_tail] of a string shorter than [INT_MAX]
    into a queue whose elements own their strings, the nodes still form a
    queue, with the new element first, respectively last; every element,
    the new one included, owns its string; the new element holds the
    inserted string and the other elements hold the strings they held. *)
Theorem q_insert_keeps_owned h pl head s l b n e v :
  queue h head l → owns h l →
  chars h s = Some b → nul_index b = Some n → Z.of_nat n < INT_MAX →
  alloc_gives h pl e → alloc_gives (<[e := junk_element]> h) (tail pl) v →
  (∃ h', q_insert_head head s (State h pl) = Ok (true, State h' (tail (tail pl))) ∧
         queue h' head (e :: l) ∧ owns h' (e :: l) ∧
         str_at h' e = Some (c_str b) ∧
         ∀ a, a ∈ l → str_at h' a = str_at h a) ∧
  (∃ h', q_insert_tail head s (State h pl) = Ok (true, State h' (tail (tail pl))) ∧
         queue h' head (l ++ [e]) ∧ owns h' (l ++ [e]) ∧
         str_at h' e = Some (c_str b) ∧
         ∀ a, a ∈ l → str_at h' a = str_at h a).
Proof.
  intros Hq Hown Hs Hn Hlen He Hv. pose proof Hq as [Hring _]. split.
  - destruct (insert_owned q_insert_head (λ l e, e :: l) (λ _ _, reflexivity _)
                h pl head s l b e v) as (h' & ? & ? & ? & ? & ? & _); [|done..|].
    + by apply (q_insert_head_in_range h pl head s l b n).
    + by exists h'.
  - destruct (insert_owned q_insert_tail (λ l e, l ++ [e])
                (λ l e, symmetry (Permutation_cons_append l e))
                h pl head s l b e v) as (h' & ? & ? & ? & ? & ? & _); [|done..|].
    + by apply (q_insert_tail_in_range h pl head s l b n).
    + by exists h'.
Qed.

Lemma q_insert_keeps_owned_witness :
  let s := sample [1000; 1001] in
  let b := list_byte_of_string "c" ++ [x00] in
  queue (mem s) 16 [32; 48] ∧ owns (mem s) [32; 48] ∧
  chars (mem s) 1002 = Some b ∧ nul_index b = Some 1%nat ∧
  Z.of_nat 1 < INT_MAX ∧
  alloc_gives (mem s) (pool s) 64 ∧
  alloc_gives (<[64 := junk_element]> (mem s)) (tail (pool s)) 65 ∧
  (∃ h', q_insert_head 16 1002 (State (mem s) (pool s))
         = Ok (true, State h' (tail (tail (pool s)))) ∧
         queue h' 16 (64 :: [32; 48]) ∧ owns h' (64 :: [32; 48]) ∧
         str_at h' 64 = Some (c_str b) ∧
         ∀ a, a ∈ [32; 48] → str_at h' a = str_at (mem s) a) ∧
  (∃ h', q_insert_tail 16 1002 (State (mem s) (pool s))
         = Ok (true, State h' (tail (tail (pool s)))) ∧
         queue h' 16 ([32; 48] ++ [64]) ∧ owns h' ([32; 48] ++ [64]) ∧
         str_at h' 64 = Some (c_str b) ∧
         ∀ a, a ∈ [32; 48] → str_at h' a = str_at (mem s) a).
Proof.
  intros s b. split; [compute_done|]. split; [compute_done|].
  split; [by vm_compute|]. split; [by vm_compute|]. split; [done|].
  split; [compute_done|]. split; [compute_done|].
  apply (q_insert_keeps_owned (mem s) (pool s) 16 1002 [32; 48] b 1 64 65);
    [compute_done|compute_done|by vm_compute|by vm_compute|done
    |compute_done|compute_done].
Defined.

(** ** Insertion followed by removal *)

Section insert_remove.
Implicit Types (h : gmap Z object) (pl l : list Z) (b : list byte).

Lemma alloc_two_fresh h pl e v :
  alloc_gives h pl e → alloc_gives (<[e := junk_element]> h) (tail pl) v →
  h !! e = None ∧ h !! v = None.
Proof.
  intros (_ & _ & He) (_ & _ & Hv). split; [done|].
  apply lookup_insert_None in Hv. by destruct Hv.
Qed.

Lemma cons_removelast (e : Z) l :
  e :: l = removelast (e :: l) ++ [default e (last l)].
Proof.
  revert e. induction l as [|x l IH]; intros e; [done|].
  change (removelast (e :: x :: l)) with (e :: removelast (x :: l)).
  rewrite <- app_comm_cons. f_equal. rewrite (IH x) at 1. do 2 f_equal.
  rewrite last_cons. by destruct (last l).
Qed.

Lemma snoc_hd_tail (e : Z) l : l ++ [e] = hd e l :: tail (l ++ [e]).
Proof. by destruct l. Qed.
End insert_remove.

(** X7. An element inserted at one end and removed at the same end: after
    [q_insert_head] then [q_remove_head], and after [q_insert_tail] then
    [q_remove_tail] (with no buffer), the removed element is the inserted
    one, it holds the inserted string and is not released, and the sentinel
    and every node of the queue are exactly as they were before. *)
Theorem q_insert_remove_same_end h pl head s l b n e v bufsize :
  ring h head l →
  chars h s = Some b → nul_index b = Some n → Z.of_nat n < INT_MAX →
  alloc_gives h pl e → alloc_gives (<[e := junk_element]> h) (tail pl) v →
  (∃ h1 h2,
     q_insert_head head s (State h pl) = Ok (true, State h1 (tail (tail pl))) ∧
     q_remove_head head NULL bufsize (State h1 (tail (tail pl)))
     = Ok (e, State h2 (tail (tail pl))) ∧
     ring h2 head l ∧ (∀ z, z ∈ head :: l → h2 !! z = h !! z) ∧
     str_at h2 e = Some (c_str b)) ∧
  (∃ h1 h2,
     q_insert_tail head s (State h pl) = Ok (true, State h1 (tail (tail pl))) ∧
     q_remove_tail head NULL bufsize (State h1 (tail (tail pl)))
     = Ok (e, State h2 (tail (tail pl))) ∧
     ring h2 head l ∧ (∀ z, z ∈ head :: l → h2 !! z = h !! z) ∧
     str_at h2 e = Some (c_str b)).
Proof.
  intros Hring Hs Hn Hlen He Hv.
  destruct (alloc_two_fresh h pl e v He Hv) as [Hefree Hvfree]. split.
  - destruct (q_insert_head_in_range h pl head s l b n Hring Hs Hn Hlen)
      as (_ & _ & _ & _ & Hout).
    destruct (Hout e v He Hv) as (h1 & Hrun & Hring1 & Hse & _ & _ & Hpay1).
    destruct (proj1 (q_remove_no_copy h1 (tail (tail pl)) head e l bufsize) Hring1)
      as (h2 & Hrun2 & Hring2 & Hpay2).
    exists h1, h2. split_and!; [done..| |].
    + eapply (ring_restored h h2 head l e v); [done..|by rewrite Hpay2|done|done].
    + by rewrite (payload_str_at h2 h1).
  - destruct (q_insert_tail_in_range h pl head s l b n Hring Hs Hn Hlen)
      as (_ & _ & _ & _ & Hout).
    destruct (Hout e v He Hv) as (h1 & Hrun & Hring1 & Hse & _ & _ & Hpay1).
    destruct (proj2 (q_remove_no_copy h1 (tail (tail pl)) head e l bufsize) Hring1)
      as (h2 & Hrun2 & Hring2 & Hpay2).
    exists h1, h2. split_and!; [done..| |].
    + eapply (ring_restored h h2 head l e v); [done..|by rewrite Hpay2|done|done].
    + by rewrite (payload_str_at h2 h1).
Qed.

Lemma q_insert_remove_same_end_witness :
  let s := sample [1000; 1001] in
  let b := list_byte_of_string "c" ++ [x00] in
  let pl' := tail (tail (pool s)) in
  ring (mem s) 16 [32; 48] ∧
  chars (mem s) 1002 = Some b ∧ nul_index b = Some 1%nat ∧
  Z.of_nat 1 < INT_MAX ∧
  alloc_gives (mem s) (pool s) 64 ∧
  alloc_gives (<[64 := junk_element]> (mem s)) (tail (pool s)) 65 ∧
  (∃ h1 h2,
     q_insert_head 16 1002 (State (mem s) (pool s)) = Ok (true, State h1 pl') ∧
     q_remove_head 16 NULL 0 (State h1 pl') = Ok (64, State h2 pl') ∧
     ring h2 16 [32; 48] ∧ (∀ z, z ∈ 16 :: [32; 48] → h2 !! z = mem s !! z) ∧
     str_at h2 64 = Some (c_str b)) ∧
  (∃ h1 h2,
     q_insert_tail 16 1002 (State (mem s) (pool s)) = Ok (true, State h1 pl') ∧
     q_remove_tail 16 NULL 0 (State h1 pl') = Ok (64, State h2 pl') ∧
     ring h2 16 [32; 48] ∧ (∀ z, z ∈ 16 :: [32; 48] → h2 !! z = mem s !! z) ∧
     str_at h2 64 = Some (c_str b)).
Proof.
  intros s b pl'. split; [compute_done|]. split; [by vm_compute|].
  split; [by vm_compute|]. split; [done|].
  split; [compute_done|]. split; [compute_done|].
  apply (q_insert_remove_same_end (mem s) (pool s) 16 1002 [32; 48] b 1 64 65 0);
    [compute_done|by vm_compute|by vm_compute|done|compute_done|compute_done].
Defined.

(** X8. The queue discipline: after [q_insert_tail], [q_remove_head] returns
    the element that was first before the insertion (the new element if the
    queue was empty) and leaves the others in their order with the new
    element last; after [q_insert_head], [q_remove_tail] returns the element
    that was last and leaves the new element first.  Every element holds the
    string it held, the new one the inserted string. *)
Theorem q_insert_remove_other_end h pl head s l b n e v bufsize :
  queue h head l →
  chars h s = Some b → nul_index b = Some n → Z.of_nat n < INT_MAX →
  alloc_gives h pl e → alloc_gives (<[e := junk_element]> h) (tail pl) v →
  (∃ h1 h2,
     q_insert_tail head s (State h pl) = Ok (true, State h1 (tail (tail pl))) ∧
     q_remove_head head NULL bufsize (State h1 (tail (tail pl)))
     = Ok (hd e l, State h2 (tail (tail pl))) ∧
     ring h2 head (tail (l ++ [e])) ∧
     str_at h2 e = Some (c_str b) ∧ ∀ a, a ∈ l → str_at h2 a = str_at h a) ∧
  (∃ h1 h2,
     q_insert_head head s (State h pl) = Ok (true, State h1 (tail (tail pl))) ∧
     q_remove_tail head NULL bufsize (State h1 (tail (tail pl)))
     = Ok (default e (last l), State h2 (tail (tail pl))) ∧
     ring h2 head (removelast (e :: l)) ∧
     str_at h2 e = Some (c_str b) ∧ ∀ a, a ∈ l → str_at h2 a = str_at h a).
Proof.
  intros [Hring Hstr] Hs Hn Hlen He Hv.
  destruct (alloc_two_fresh h pl e v He Hv) as [Hefree Hvfree].
  rewrite Forall_forall in Hstr. split.
  - destruct (q_insert_tail_in_range h pl head s l b n Hring Hs Hn Hlen)
      as (_ & _ & _ & _ & Hout).
    destruct (Hout e v He Hv) as (h1 & Hrun & Hring1 & Hse & _ & _ & Hpay1).
    rewrite (snoc_hd_tail e l) in Hring1.
    destruct (proj1 (q_remove_no_copy h1 (tail (tail pl)) head (hd e l)
                       (tail (l ++ [e])) bufsize) Hring1)
      as (h2 & Hrun2 & Hring2 & Hpay2).
    exists h1, h2. split_and!; [done..|by rewrite (payload_str_at h2 h1)|].
    intros a Ha. eapply (str_at_fresh h h2 e v); [by rewrite Hpay2|done..|].
    by apply Hstr.
  - destruct (q_insert_head_in_range h pl head s l b n Hring Hs Hn Hlen)
      as (_ & _ & _ & _ & Hout).
    destruct (Hout e v He Hv) as (h1 & Hrun & Hring1 & Hse & _ & _ & Hpay1).
    rewrite (cons_removelast e l) in Hring1.
    destruct (proj2 (q_remove_no_copy h1 (tail (tail pl)) head (default e (last l))
                       (removelast (e :: l)) bufsize) Hring1)
      as (h2 & Hrun2 & Hring2 & Hpay2).
    exists h1, h2. split_and!; [done..|by rewrite (payload_str_at h2 h1)|].
    intros a Ha. eapply (str_at_fresh h h2 e v); [by rewrite Hpay2|done..|].
    by apply Hstr.
Qed.

Lemma q_insert_remove_other_end_witness :
  let s := sample [1000; 1001] in
  let b := list_byte_of_string "c" ++ [x00] in
  let pl' := tail (tail (pool s)) in
  queue (mem s) 16 [32; 48] ∧
  chars (mem s) 1002 = Some b ∧ nul_index b = Some 1%nat ∧
  Z.of_nat 1 < INT_MAX ∧
  alloc_gives (mem s) (pool s) 64 ∧
  alloc_gives (<[64 := junk_element]> (mem s)) (tail (pool s)) 65 ∧
  (∃ h1 h2,
     q_insert_tail 16 1002 (State (mem s) (pool s)) = Ok (true, State h1 pl') ∧
     q_remove_head 16 NULL 0 (State h1 pl') = Ok (32, State h2 pl') ∧
     ring h2 16 [48; 64] ∧
     str_at h2 64 = Some (c_str b) ∧
     ∀ a, a ∈ [32; 48] → str_at h2 a = str_at (mem s) a) ∧
  (∃ h1 h2,
     q_insert_head 16 1002 (State (mem s) (pool s)) = Ok (true, State h1 pl') ∧
     q_remove_tail 16 NULL 0 (State h1 pl') = Ok (48, State h2 pl') ∧
     ring h2 16 [64; 32] ∧
     str_at h2 64 = Some (c_str b) ∧
     ∀ a, a ∈ [32; 48] → str_at h2 a = str_at (mem s) a).
Proof.
  intros s b pl'. split; [compute_done|]. split; [by vm_compute|].
  split; [by vm_compute|]. split; [done|].
  split; [compute_done|]. split; [compute_done|].
  apply (q_insert_remove_other_end (mem s) (pool s) 16 1002 [32; 48] b 1 64 65 0);
    [compute_done|by vm_compute|by vm_compute|done|compute_done|compute_done].
Defined.

(** X9. A successful insertion at either end makes the queue one element
    longer: [q_size] then returns the former number of elements plus one. *)
Theorem q_size_after_insert h pl head s l b n e v fuel :
  ring h head l →
  chars h s = Some b → nul_index b = Some n → Z.of_nat n < INT_MAX →
  alloc_gives h pl e → alloc_gives (<[e := junk_element]> h) (tail pl) v →
  (length l + 1 < fuel)%nat → Z.of_nat (length l) < INT_MAX →
  (∃ h', q_insert_head head s (State h pl) = Ok (true, State h' (tail (tail pl))) ∧
         q_size fuel head (State h' (tail (tail pl)))
         = Ok (Z.of_nat (length l) + 1, State h' (tail (tail pl)))) ∧
  (∃ h', q_insert_tail head s (State h pl) = Ok (true, State h' (tail (tail pl))) ∧
         q_size fuel head (State h' (tail (tail pl)))
         = Ok (Z.of_nat (length l) + 1, State h' (tail (tail pl)))).
Proof.
  intros Hring Hs Hn Hlen He Hv Hfuel Hmax. split.
  - destruct (q_insert_head_in_range h pl head s l b n Hring Hs Hn Hlen)
      as (_ & _ & _ & _ & Hout).
    destruct (Hout e v He Hv) as (h' & Hrun & Hring' & _).
    exists h'. split; [done|].
    rewrite (q_size_ring h' _ head (e :: l) fuel Hring'); simpl; [|lia..].
    do 2 f_equal. lia.
  - destruct (q_insert_tail_in_range h pl head s l b n Hring Hs Hn Hlen)
      as (_ & _ & _ & _ & Hout).
    destruct (Hout e v He Hv) as (h' & Hrun & Hring' & _).
    exists h'. split; [done|].
    rewrite (q_size_ring h' _ head (l ++ [e]) fuel Hring');
      rewrite ?length_app; simpl; [|lia..].
    do 2 f_equal. lia.
Qed.

Lemma q_size_after_insert_witness :
  let s := sample [1000; 1001] in
  let b := list_byte_of_string "c" ++ [x00] in
  let pl' := tail (tail (pool s)) in
  ring (mem s) 16 [32; 48] ∧
  chars (mem s) 1002 = Some b ∧ nul_index b = Some 1%nat ∧
  Z.of_nat 1 < INT_MAX ∧
  alloc_gives (mem s) (pool s) 64 ∧
  alloc_gives (<[64 := junk_element]> (mem s)) (tail (pool s)) 65 ∧
  (2 + 1 < 4)%nat ∧ Z.of_nat 2 < INT_MAX ∧
  (∃ h', q_insert_head 16 1002 (State (mem s) (pool s)) = Ok (true, State h' pl') ∧
         q_size 4 16 (State h' pl') = Ok (Z.of_nat 2 + 1, State h' pl')) ∧
  (∃ h', q_insert_tail 16 1002 (State (mem s) (pool s)) = Ok (true, State h' pl') ∧
         q_size 4 16 (State h' pl') = Ok (Z.of_nat 2 + 1, State h' pl')).
Proof.
  intros s b pl'. split; [compute_done|]. split; [by vm_compute|].
  split; [by vm_compute|]. split; [done|].
  split; [compute_done|]. split; [compute_done|]. split; [lia|]. split; [done|].
  apply (q_size_after_insert (mem s) (pool s) 16 1002 [32; 48] b 1 64 65 4);
    [compute_done|by vm_compute|by vm_compute|done|compute_done|compute_done
    |simpl; lia|done].
Defined.

(** ** Removal, and the release of what was removed *)

Section release.
Implicit Types (h : gmap Z object) (pl l pre rest : list Z).

Lemma owns_cons_inv h e l : owns h (e :: l) → owns h l.
Proof.
  intros [Hall Hnd]. apply Forall_cons in Hall as [_ Hall].
  rewrite fmap_cons in Hnd. apply NoDup_cons in Hnd as [_ Hnd]. done.
Qed.

(** An element that was unlinked from a queue whose elements own their
    strings can be released: its string and itself are freed, the queue
    keeps its elements and their strings, and a second release is
    undefined. *)
Lemma release_unlinked h h1 pl head pre e rest :
  queue h head (pre ++ e :: rest) → owns h (pre ++ e :: rest) →
  ring h1 head (pre ++ rest) → payload h1 = payload h →
  ∃ h2, q_release_element e (State h1 pl) = Ok (tt, State h2 pl) ∧
        queue h2 head (pre ++ rest) ∧ owns h2 (pre ++ rest) ∧
        (∀ a, a ∈ pre ++ rest → str_at h2 a = str_at h a) ∧
        h2 !! e = None ∧ h2 !! value_of h e = None ∧
        (∀ z, z ≠ e → z ≠ value_of h e → h2 !! z = h1 !! z) ∧
        q_release_element e (State h2 pl) = Fault.
Proof.
  intros [Hring Hstr] Hown Hring1 Hpay.
  assert (e ∈ pre ++ e :: rest) as He by set_solver +.
  destruct (owns_value h _ e Hown He) as [Hve Hce].
  set (v := value_of h e) in *.
  assert (is_Some (nxt h e)) as Helink.
  { apply (ring_live h head (pre ++ e :: rest)); [done|set_solver +]. }
  pose proof Hring as (Hnull & Hnd & _).
  pose proof Hring1 as (Hnull1 & _).
  assert (e ∉ head :: pre ++ rest) as Heout.
  { apply NoDup_cons in Hnd as [Hh Hnd].
    apply NoDup_app in Hnd as (_ & Hd & [Her _]%NoDup_cons).
    intros [E|[Hin|Hin]%elem_of_app]%elem_of_cons; [|by apply (Hd e Hin); left|done].
    apply Hh. set_solver +E. }
  assert (v ≠ e) as Hve_ne.
  { intros E. apply (link_not_chars h e); [done|by rewrite <- E]. }
  assert (v ≠ NULL) as Hvnull.
  { intros E. rewrite E in Hce. apply chars_is_live in Hce.
    rewrite Hnull in Hce. by destruct Hce. }
  assert (e ≠ NULL) as Henull.
  { intros E. rewrite E in Helink. apply nxt_live in Helink.
    rewrite Hnull in Helink. by destruct Helink. }
  set (h2 := delete e (delete v h1)).
  assert (q_release_element e (State h1 pl) = Ok (tt, State h2 pl)) as Hrel.
  { unfold q_release_element.
    erewrite run_bind; [|apply run_load_value; by rewrite (payload_val _ _ _ Hpay)].
    erewrite run_bind; [|apply run_free; [done|]].
    2:{ apply chars_is_live. by rewrite (payload_chars _ _ _ Hpay). }
    apply run_free; [done|]. rewrite lookup_delete_ne by done.
    apply nxt_live. by apply (payload_is_link h h1). }
  assert (∀ z, z ∈ head :: pre ++ rest → z ≠ e ∧ z ≠ v) as Hout.
  { intros z Hz. split; [by intros ->|].
    apply (owns_not_link h (pre ++ e :: rest) e); [done..|].
    apply (ring_live h head (pre ++ e :: rest)); [done|set_solver +Hz]. }
  assert (ring h2 head (pre ++ rest)) as Hring2.
  { apply (ring_frame h1); [done| |].
    - unfold h2. by rewrite !lookup_delete_ne.
    - intros z Hz. destruct (Hout z Hz) as [? ?].
      unfold h2. by rewrite !nxt_delete, !prv_delete. }
  assert (owns h (pre ++ rest)) as Hown'.
  { apply (owns_cons_inv h e), (owns_perm h (pre ++ e :: rest)); [|done].
    by rewrite Permutation_middle. }
  destruct (owned_frame h h2 (pre ++ rest)) as (Hstr2 & Hown2 & Heq); [|done| | |].
  { rewrite Forall_forall in *. intros a Ha. apply Hstr. set_solver +Ha. }
  { intros a Ha. destruct (Hout a) as [? ?]; [set_solver +Ha|].
    unfold h2. rewrite !val_delete by done. by apply payload_val. }
  { intros a Ha. unfold h2.
    destruct Hown as [_ HndV].
    rewrite !chars_delete, (payload_chars _ _ _ Hpay); [done| |].
    - rewrite <- Permutation_middle, fmap_cons in HndV.
      apply NoDup_cons in HndV as [Hv _]. intros E. apply Hv. fold v. rewrite E.
      by apply list_elem_of_fmap_2.
    - intros E. apply (link_not_chars h e); [done|]. rewrite E.
      by destruct (owns_value h _ a Hown' Ha). }
  exists h2. split_and!; [done|by split|done..| | | |].
  - unfold h2. by rewrite lookup_delete_eq.
  - unfold h2. rewrite lookup_delete_ne by done. by rewrite lookup_delete_eq.
  - intros z ? ?. unfold h2. by rewrite !lookup_delete_ne.
  - unfold q_release_element. apply run_fault.
    unfold load_value, val, h2. simpl. by rewrite lookup_delete_eq.
Qed.
End release.

(** X10. Removing an element and releasing it with [q_release_element]
    deletes it: for every queue whose elements own their strings, after
    [q_remove_head] (or [q_remove_tail]) with no buffer and
    [q_release_element] of the result, the element and its string are freed,
    the other elements form the queue, in their order, and own the strings
    they held.  Releasing the element a second time is undefined. *)
Theorem q_remove_release h pl head e l bufsize :
  (queue h head (e :: l) → owns h (e :: l) →
   ∃ h1 h2,
     q_remove_head head NULL bufsize (State h pl) = Ok (e, State h1 pl) ∧
     q_release_element e (State h1 pl) = Ok (tt, State h2 pl) ∧
     queue h2 head l ∧ owns h2 l ∧ (∀ a, a ∈ l → str_at h2 a = str_at h a) ∧
     h2 !! e = None ∧ h2 !! value_of h e = None ∧
     q_release_element e (State h2 pl) = Fault) ∧
  (queue h head (l ++ [e]) → owns h (l ++ [e]) →
   ∃ h1 h2,
     q_remove_tail head NULL bufsize (State h pl) = Ok (e, State h1 pl) ∧
     q_release_element e (State h1 pl) = Ok (tt, State h2 pl) ∧
     queue h2 head l ∧ owns h2 l ∧ (∀ a, a ∈ l → str_at h2 a = str_at h a) ∧
     h2 !! e = None ∧ h2 !! value_of h e = None ∧
     q_release_element e (State h2 pl) = Fault).
Proof.
  split; intros Hq Hown; pose proof Hq as [Hring _].
  - destruct (proj1 (q_remove_no_copy h pl head e l bufsize) Hring)
      as (h1 & Hrun & Hring1 & Hpay).
    destruct (release_unlinked h h1 pl head [] e l Hq Hown Hring1 Hpay)
      as (h2 & ? & ? & ? & ? & ? & ? & _ & ?).
    by exists h1, h2.
  - destruct (proj2 (q_remove_no_copy h pl head e l bufsize) Hring)
      as (h1 & Hrun & Hring1 & Hpay).
    destruct (release_unlinked h h1 pl head l e [] Hq Hown)
      as (h2 & ? & Hq2 & Hown2 & Hstr2 & ? & ? & _ & ?);
      [by rewrite app_nil_r|done|].
    rewrite app_nil_r in Hq2, Hown2, Hstr2. by exists h1, h2.
Qed.

Lemma q_remove_release_witness :
  let s := sample [1000; 1001; 1002] in
  (queue (mem s) 16 (32 :: [48; 64]) ∧ owns (mem s) (32 :: [48; 64]) ∧
   ∃ h1 h2,
     q_remove_head 16 NULL 0 (State (mem s) (pool s)) = Ok (32, State h1 (pool s)) ∧
     q_release_element 32 (State h1 (pool s)) = Ok (tt, State h2 (pool s)) ∧
     queue h2 16 [48; 64] ∧ owns h2 [48; 64] ∧
     (∀ a, a ∈ [48; 64] → str_at h2 a = str_at (mem s) a) ∧
     h2 !! 32 = None ∧ h2 !! value_of (mem s) 32 = None ∧
     q_release_element 32 (State h2 (pool s)) = Fault) ∧
  (queue (mem s) 16 ([32; 48] ++ [64]) ∧ owns (mem s) ([32; 48] ++ [64]) ∧
   ∃ h1 h2,
     q_remove_tail 16 NULL 0 (State (mem s) (pool s)) = Ok (64, State h1 (pool s)) ∧
     q_release_element 64 (State h1 (pool s)) = Ok (tt, State h2 (pool s)) ∧
     queue h2 16 [32; 48] ∧ owns h2 [32; 48] ∧
     (∀ a, a ∈ [32; 48] → str_at h2 a = str_at (mem s) a) ∧
     h2 !! 64 = None ∧ h2 !! value_of (mem s) 64 = None ∧
     q_release_element 64 (State h2 (pool s)) = Fault).
Proof.
  intros s.
  assert (queue (mem s) 16 [32; 48; 64]) as Hq by compute_done.
  assert (owns (mem s) [32; 48; 64]) as Hown by compute_done.
  split; (split; [exact Hq|]; split; [exact Hown|]).
  - exact (proj1 (q_remove_release (mem s) (pool s) 16 32 [48; 64] 0) Hq Hown).
  - exact (proj2 (q_remove_release (mem s) (pool s) 16 64 [32; 48] 0) Hq Hown).
Defined.

(** X11. [q_remove_head] and [q_remove_tail] return [NULL] and change
    nothing on an absent queue and on an empty one, whatever buffer is
    given.  With no buffer, on a non-empty queue they unlink the first,
    respectively the last, element and return it: the element is not
    released and still holds its string, the other elements form the queue,
    and no string is copied or changed. *)
Theorem q_remove_no_buffer h pl head e l sp bufsize :
  q_remove_head NULL sp bufsize (State h pl) = Ok (NULL, State h pl) ∧
  q_remove_tail NULL sp bufsize (State h pl) = Ok (NULL, State h pl) ∧
  (ring h head [] →
   q_remove_head head sp bufsize (State h pl) = Ok (NULL, State h pl) ∧
   q_remove_tail head sp bufsize (State h pl) = Ok (NULL, State h pl)) ∧
  (queue h head (e :: l) →
   ∃ h', q_remove_head head NULL bufsize (State h pl) = Ok (e, State h' pl) ∧
         queue h' head l ∧ str_at h' e = str_at h e ∧ payload h' = payload h) ∧
  (queue h head (l ++ [e]) →
   ∃ h', q_remove_tail head NULL bufsize (State h pl) = Ok (e, State h' pl) ∧
         queue h' head l ∧ str_at h' e = str_at h e ∧ payload h' = payload h).
Proof.
  split_and!; [done|done| | |].
  - intros Hring.
    pose proof (ring_head_not_null _ _ _ Hring) as Hhead.
    assert (nxt h head = Some head) as Hfirst by (by apply (ring_nil_iff _ _ _ Hring)).
    unfold q_remove_head, q_remove_tail.
    destruct (Z.eqb_spec head NULL) as [?|_]; [done|].
    rewrite !(run_bind _ _ _ _ _ (run_list_empty _ _ _ _ Hfirst)).
    by rewrite Z.eqb_refl.
  - intros [Hring Hstr].
    destruct (proj1 (q_remove_no_copy h pl head e l bufsize) Hring)
      as (h' & Hrun & Hring' & Hpay).
    exists h'. split_and!; [done| |by apply payload_str_at|done].
    split; [done|]. apply Forall_cons in Hstr as [_ Hstr].
    rewrite Forall_forall in *. intros a Ha.
    rewrite (payload_str_at h' h) by done. by apply Hstr.
  - intros [Hring Hstr].
    destruct (proj2 (q_remove_no_copy h pl head e l bufsize) Hring)
      as (h' & Hrun & Hring' & Hpay).
    exists h'. split_and!; [done| |by apply payload_str_at|done].
    split; [done|]. apply Forall_app in Hstr as [Hstr _].
    rewrite Forall_forall in *. intros a Ha.
    rewrite (payload_str_at h' h) by done. by apply Hstr.
Qed.

Lemma q_remove_no_buffer_witness :
  let s := sample [1000; 1001; 1002] in
  let e := final q_new sample_init in
  (ring (mem e) 16 [] ∧
   q_remove_head 16 1000 8 (State (mem e) (pool e)) = Ok (NULL, State (mem e) (pool e)) ∧
   q_remove_tail 16 1000 8 (State (mem e) (pool e)) = Ok (NULL, State (mem e) (pool e))) ∧
  (queue (mem s) 16 (32 :: [48; 64]) ∧
   ∃ h', q_remove_head 16 NULL 0 (State (mem s) (pool s)) = Ok (32, State h' (pool s)) ∧
         queue h' 16 [48; 64] ∧ str_at h' 32 = str_at (mem s) 32 ∧
         payload h' = payload (mem s)) ∧
  (queue (mem s) 16 ([32; 48] ++ [64]) ∧
   ∃ h', q_remove_tail 16 NULL 0 (State (mem s) (pool s)) = Ok (64, State h' (pool s)) ∧
         queue h' 16 [32; 48] ∧ str_at h' 64 = str_at (mem s) 64 ∧
         payload h' = payload (mem s)).
Proof.
  intros s e.
  assert (ring (mem e) 16 []) as He by compute_done.
  assert (queue (mem s) 16 [32; 48; 64]) as Hq by compute_done.
  pose proof (q_remove_no_buffer (mem e) (pool e) 16 0 [] 1000 8)
    as (_ & _ & Hempty & _).
  pose proof (q_remove_no_buffer (mem s) (pool s) 16 32 [48; 64] NULL 0)
    as (_ & _ & _ & Hhead & _).
  pose proof (q_remove_no_buffer (mem s) (pool s) 16 64 [32; 48] NULL 0)
    as (_ & _ & _ & _ & Htail).
  split; [split; [exact He|exact (Hempty He)]|].
  split; (split; [exact Hq|]); [exact (Hhead Hq)|exact (Htail Hq)].
Defined.

(** ** [q_delete_dup] on queues that need not be sorted *)

(** X17. [q_delete_dup] compares neighbours only.  On every non-empty queue
    whose elements own their strings, sorted or not, when the scratch ring
    can be allocated it returns true and keeps the nodes that the walk
    [dedup_walk] keeps: a node goes when it holds the string of the next
    node or of the node before it, and the last node always stays.  The
    nodes that stay form the queue, hold the strings they held and own
    them; the other nodes, their strings and the scratch ring are
    released. *)
Theorem q_delete_dup_neighbours fuel h pl head l gc :
  queue h head l → owns h l → l ≠ [] → alloc_gives h pl gc →
  (length l < fuel)%nat →
  ∃ h', q_delete_dup fuel head (State h pl) = Ok (true, State h' (tail pl)) ∧
        queue h' head (dedup_walk (key h) false l) ∧
        owns h' (dedup_walk (key h) false l) ∧
        last (dedup_walk (key h) false l) = last l ∧
        (∀ a, a ∈ dedup_walk (key h) false l → str_at h' a = str_at h a) ∧
        (∀ z, z ∈ gc :: dedup_gone (key h) false l
                     ++ (value_of h <$> dedup_gone (key h) false l) →
              h' !! z = None).
Proof.
  intros Hq Hown Hne Hgc Hfuel.
  destruct (q_delete_dup_spec fuel h pl head l gc Hq Hown Hne Hgc Hfuel)
    as (h' & Hrun & Hq' & Hown' & Hstr & Hgone & _).
  exists h'. split_and!; [done..| |done|done].
  apply dedup_walk_last.
Qed.

Lemma q_delete_dup_neighbours_witness :
  let s := sample [1000; 1001; 1001; 1000; 1000] in
  let l := [32; 48; 64; 80; 96] in
  queue (mem s) 16 l ∧ owns (mem s) l ∧ l ≠ [] ∧
  alloc_gives (mem s) (pool s) 112 ∧ (length l < 7)%nat ∧
  ∃ h', q_delete_dup 7 16 (State (mem s) (pool s))
        = Ok (true, State h' (tail (pool s))) ∧
        queue h' 16 (dedup_walk (key (mem s)) false l) ∧
        owns h' (dedup_walk (key (mem s)) false l) ∧
        last (dedup_walk (key (mem s)) false l) = last l ∧
        (∀ a, a ∈ dedup_walk (key (mem s)) false l →
              str_at h' a = str_at (mem s) a) ∧
        (∀ z, z ∈ 112 :: dedup_gone (key (mem s)) false l
                     ++ (value_of (mem s) <$> dedup_gone (key (mem s)) false l) →
              h' !! z = None).
Proof.
  intros s l. split; [compute_done|]. split; [compute_done|].
  split; [done|]. split; [compute_done|]. split; [simpl; lia|].
  apply (q_delete_dup_neighbours 7 (mem s) (pool s) 16 l 112);
    [compute_done|compute_done|done|compute_done|simpl; lia].
Defined.

(** X18. On a queue in which no two neighbours hold the same string,
    [q_delete_dup] returns true and leaves the heap exactly as it was: the
    scratch ring it allocates is released again, and only the allocator has
    moved on. *)
Theorem q_delete_dup_distinct fuel h pl head l gc :
  queue h head l → owns h l → l ≠ [] → alloc_gives h pl gc →
  (length l < fuel)%nat →
  (∀ i x y, l !! i = Some x → l !! S i = Some y → key h x ≠ key h y) →
  q_delete_dup fuel head (State h pl) = Ok (true, State h (tail pl)).
Proof.
  intros Hq Hown Hne Hgc Hfuel Hdist.
  destruct (q_delete_dup_spec fuel h pl head l gc Hq Hown Hne Hgc Hfuel)
    as (h' & Hrun & [Hring' _] & _ & _ & Hgone & Herase & Hframe).
  destruct (dedup_walk_distinct (key h) l Hdist) as [Hkept Hnone].
  rewrite Hkept in Hring'. rewrite Hnone in Hgone, Herase, Hframe.
  simpl in Hgone, Herase, Hframe.
  destruct Hq as [Hring _]. destruct Hgc as (_ & _ & Hfree).
  replace h' with h in Hrun; [done|]. apply map_eq. intros z. symmetry.
  destruct (decide (z = gc)) as [->|Hz].
  { rewrite Hfree. apply Hgone. set_solver +. }
  assert (z ∉ [gc]) as Hz' by set_solver +Hz.
  destruct (decide (z ∈ head :: l)) as [Hin|Hout]; [|by apply Hframe].
  destruct (ring_links h h' head l z Hring Hring' Hin) as [Hn Hp].
  apply obj_ext_at; [by apply Herase|done..].
Qed.

Lemma q_delete_dup_distinct_witness :
  let s := sample [1000; 1001; 1000] in
  let l := [32; 48; 64] in
  queue (mem s) 16 l ∧ owns (mem s) l ∧ l ≠ [] ∧
  alloc_gives (mem s) (pool s) 80 ∧ (length l < 4)%nat ∧
  (∀ i x y, l !! i = Some x → l !! S i = Some y →
            key (mem s) x ≠ key (mem s) y) ∧
  q_delete_dup 4 16 (State (mem s) (pool s))
  = Ok (true, State (mem s) (tail (pool s))).
Proof.
  intros s l.
  assert (∀ i x y, l !! i = Some x → l !! S i = Some y →
                   key (mem s) x ≠ key (mem s) y) as Hdist.
  { intros [|[|i]] x y Hx Hy; simplify_eq/=; by vm_compute. }
  split; [compute_done|]. split; [compute_done|].
  split; [done|]. split; [compute_done|]. split; [simpl; lia|].
  split; [exact Hdist|].
  apply (q_delete_dup_distinct 4 (mem s) (pool s) 16 l 80);
    [compute_done|compute_done|done|compute_done|simpl; lia|exact Hdist].
Defined.

(** X19. [q_delete_dup] returns false on an absent queue and true on an
    empty one, and in both cases it changes nothing and allocates
    nothing. *)
Theorem q_delete_dup_nothing fuel h pl head :
  q_delete_dup fuel NULL (State h pl) = Ok (false, State h pl) ∧
  (ring h head [] →
   q_delete_dup fuel head (State h pl) = Ok (true, State h pl)).
Proof.
  split; [done|]. intros Hring.
  pose proof (ring_head_not_null _ _ _ Hring) as Hhead.
  assert (nxt h head = Some head) as Hfirst by (by apply (ring_nil_iff _ _ _ Hring)).
  unfold q_delete_dup. destruct (Z.eqb_spec head NULL) as [?|_]; [done|].
  rewrite (run_bind _ _ _ _ _ (run_list_empty _ _ _ _ Hfirst)).
  by rewrite Z.eqb_refl.
Qed.

Lemma q_delete_dup_nothing_witness :
  let e := final q_new sample_init in
  ring (mem e) 16 [] ∧
  q_delete_dup 1 NULL (State (mem e) (pool e)) = Ok (false, State (mem e) (pool e)) ∧
  q_delete_dup 1 16 (State (mem e) (pool e)) = Ok (true, State (mem e) (pool e)).
Proof.
  intros e. assert (ring (mem e) 16 []) as He by compute_done.
  pose proof (q_delete_dup_nothing 1 (mem e) (pool e) 16) as [Hnull Hempty].
  split; [exact He|]. split; [exact Hnull|exact (Hempty He)].
Defined.

(** ** [q_swap] twice, [q_sort] twice, and [q_sort] before [q_delete_dup] *)

Section swap_twice.
Implicit Types (h : gmap Z object) (pl l : list Z).

Lemma swap_pairs_involutive {A} (l : list A) : swap_pairs (swap_pairs l) = l.
Proof. induction l as [|x|x y l IH] using pair_ind; simpl; congruence. Qed.

Lemma q_swap_ring h pl head l fuel :
  ring h head l → (length l < fuel)%nat →
  ∃ h', q_swap fuel head (State h pl) = Ok (tt, State h' pl) ∧
        ring h' head (swap_pairs l) ∧ payload h' = payload h.
Proof.
  intros Hring Hfuel.
  pose proof (ring_head_not_null _ _ _ Hring) as Hhead.
  pose proof (ring_nil_iff _ _ _ Hring) as Hnil.
  pose proof (ring_path_next _ _ _ Hring) as [_ (first & Hfirst & _)].
  pose proof Hring as (Hnull & Hnd & HL).
  unfold q_swap. destruct (Z.eqb_spec head NULL) as [?|_]; [done|].
  rewrite (run_bind _ _ _ _ _ (run_list_empty _ _ _ _ Hfirst)).
  destruct (Z.eqb_spec first head) as [->|Hne].
  { assert (l = []) as -> by (by apply Hnil). by exists h. }
  destruct (q_swap_loop_spec head pl l [] [] head h fuel)
    as (h' & Hrun & HL' & Hpay); [done..|].
  exists h'. split_and!; [done| |done].
  split_and!; [by eapply payload_null| |done].
  by rewrite swap_pairs_perm.
Qed.
End swap_twice.

Section sort_twice.
Context (k : Z → list byte).
Implicit Types (h : gmap Z object) (pl l : list Z).

(** A sorted list has one sorted arrangement that keeps the order of the
    nodes of equal key: itself. *)
Lemma sorted_stable_unique l : ∀ l',
  StronglySorted (le_by k) l → StronglySorted (le_by k) l' →
  l ≡ₚ l' → same_order_by k l l' → l' = l.
Proof.
  induction l as [|x t IH]; intros l' Hs Hs' Hperm Hsame.
  { by apply Permutation_nil_l in Hperm. }
  destruct l' as [|y t']; [by apply Permutation_nil_r in Hperm|].
  apply StronglySorted_cons in Hs as [Hx Hs].
  apply StronglySorted_cons in Hs' as [Hy Hs'].
  rewrite Forall_forall in Hx, Hy.
  assert (k x = k y) as Hk.
  { apply lex_leb_antisym.
    - assert (y ∈ x :: t) as [->|Hin]%elem_of_cons
        by (rewrite Hperm; set_solver +); [apply lex_leb_refl|by apply Hx].
    - assert (x ∈ y :: t') as [->|Hin]%elem_of_cons
        by (rewrite <- Hperm; set_solver +); [apply lex_leb_refl|by apply Hy]. }
  pose proof (Hsame (k x)) as Hf. rewrite !filter_cons in Hf.
  rewrite decide_True in Hf by done. rewrite (decide_True (P := k x = k x)) in Hf by done.
  injection Hf as -> Hf. f_equal. apply IH; [done..| |].
  - by apply Permutation_cons_inv in Hperm.
  - intros v. specialize (Hsame v). rewrite !filter_cons in Hsame.
    case_decide; [by injection Hsame|done].
Qed.

(** [q_sort] leaves a sorted queue, and the whole heap, as it is. *)
Lemma q_sort_fix h pl head l fuel :
  ring h head l → keys_at k h l → StronglySorted (le_by k) l →
  (length l + 1 < fuel)%nat →
  q_sort fuel head (State h pl) = Ok (tt, State h pl).
Proof.
  intros Hring Hk Hs Hfuel.
  destruct (q_sort_spec k pl h head l fuel Hring Hk Hfuel)
    as (h' & l' & Hrun & Hring' & Hs' & Hperm & Hsame & Hpay & _ & Hout).
  assert (l' = l) as ->.
  { apply sorted_stable_unique; [done| |done..].
    apply Sorted_StronglySorted; [apply le_by_trans|done]. }
  by rewrite (ring_heap_eq h h' head l Hring Hring' Hpay Hout) in Hrun.
Qed.
End sort_twice.

(** X21. [q_sort] is idempotent: a second [q_sort] leaves the heap that the
    first one produced exactly as it is; and on a queue that is sorted
    already, [q_sort] changes nothing at all. *)
Theorem q_sort_idempotent h pl head l fuel :
  queue h head l → (length l + 1 < fuel)%nat →
  ∃ h',
    q_sort fuel head (State h pl) = Ok (tt, State h' pl) ∧
    q_sort fuel head (State h' pl) = Ok (tt, State h' pl) ∧
    (StronglySorted (str_le h) l → h' = h).
Proof.
  intros Hq Hfuel. pose proof Hq as [Hring _].
  pose proof (queue_keys_at h head l Hq) as Hk.
  destruct (q_sort_spec (key h) pl h head l fuel Hring Hk Hfuel)
    as (h' & l' & Hrun & Hring' & Hs' & Hperm & Hsame & Hpay & _ & Hout).
  exists h'. split_and!; [done| |].
  - apply (q_sort_fix (key h) h' pl head l' fuel); [done| | |].
    + apply (keys_at_payload (key h) h); [done|].
      intros a Ha. apply Hk. by rewrite Hperm.
    + apply Sorted_StronglySorted; [apply le_by_trans|done].
    + apply Permutation_length in Hperm. lia.
  - intros Hs.
    pose proof (q_sort_fix (key h) h pl head l fuel Hring Hk Hs Hfuel) as Hfix.
    congruence.
Qed.

Lemma q_sort_idempotent_witness :
  let s := sample [1002; 1000; 1001] in
  queue (mem s) 16 [32; 48; 64] ∧ (3 + 1 < 6)%nat ∧
  ∃ h',
    q_sort 6 16 (State (mem s) (pool s)) = Ok (tt, State h' (pool s)) ∧
    q_sort 6 16 (State h' (pool s)) = Ok (tt, State h' (pool s)) ∧
    (StronglySorted (str_le (mem s)) [32; 48; 64] → h' = mem s).
Proof.
  intros s. split; [compute_done|]. split; [lia|].
  apply (q_sort_idempotent (mem s) (pool s) 16 [32; 48; 64] 6);
    [compute_done|simpl; lia].
Defined.

Section sort_then_dedup.
Implicit Types (h : gmap Z object) (pl l : list Z) (k : Z → list byte).

Lemma owns_payload h h' l : payload h' = payload h → owns h l → owns h' l.
Proof.
  intros Hpay Hown.
  assert (∀ a, value_of h' a = value_of h a) as Hvo.
  { intros a. unfold value_of. by rewrite (payload_val h' h). }
  destruct Hown as [Hall Hnd]. split.
  - rewrite Forall_forall in *. intros a Ha.
    rewrite Hvo, (payload_val h' h), (payload_chars h' h) by done.
    by apply Hall.
  - replace (value_of h' <$> l) with (value_of h <$> l); [done|].
    apply list_fmap_ext. intros i a _. by rewrite Hvo.
Qed.

Lemma dedup_walk_ext k k' l :
  (∀ a, k a = k' a) → ∀ sd, dedup_walk k sd l = dedup_walk k' sd l.
Proof.
  intros E. induction l as [|x [|y t] IH]; intros sd; [done..|].
  rewrite !dedup_walk_step, !E, !IH. done.
Qed.

Lemma dedup_walk_sublist k l : ∀ sd, dedup_walk k sd l `sublist_of` l.
Proof.
  induction l as [|x [|y t] IH]; intros sd; [done..|].
  rewrite dedup_walk_step. destruct (decide (k x = k y)); [|destruct sd].
  - apply sublist_cons, IH.
  - apply sublist_cons, IH.
  - apply sublist_skip, IH.
Qed.

Lemma StronglySorted_sublist (R : relation Z) l1 l2 :
  l1 `sublist_of` l2 → StronglySorted R l2 → StronglySorted R l1.
Proof.
  induction 1 as [|x l1 l2 Hsub IH|x l1 l2 Hsub IH]; [done|..];
    intros [Hall Hs]%StronglySorted_cons; [|by apply IH].
  apply StronglySorted_cons. split; [|by apply IH].
  rewrite Forall_forall in *. intros a Ha. apply Hall.
  by apply (elem_of_sublist l1 l2).
Qed.

Lemma occurrences_perm k l l' v :
  l ≡ₚ l' → occurrences k l v = occurrences k l' v.
Proof. intros Hp. unfold occurrences. by rewrite Hp. Qed.

Lemma occurs_once_perm k l l' a :
  l ≡ₚ l' → a ∈ occurs_once k l ↔ a ∈ occurs_once k l'.
Proof.
  intros Hp. unfold occurs_once. rewrite !list_elem_of_filter.
  by rewrite (occurrences_perm k l l' _ Hp), Hp.
Qed.
End sort_then_dedup.

(** X22. [q_sort] followed by [q_delete_dup], the use that the comment of
    [q_delete_dup] asks for, on any non-empty queue whose elements own their
    strings: the queue is left with the elements whose string occurs once in
    the queue, in ascending order, and with the last element of the sorted
    queue as well when it repeats the one before it.  The elements that stay
    hold the strings they held and own them. *)
Theorem q_sort_delete_dup h pl head l gc fuel :
  queue h head l → owns h l → l ≠ [] → alloc_gives h pl gc →
  (length l + 1 < fuel)%nat →
  ∃ h1 l1 h2,
    q_sort fuel head (State h pl) = Ok (tt, State h1 pl) ∧
    queue h1 head l1 ∧ stable_perm h l l1 ∧ StronglySorted (str_le h) l1 ∧
    q_delete_dup fuel head (State h1 pl) = Ok (true, State h2 (tail pl)) ∧
    (∀ a, a ∈ occurs_once (key h) l1 ↔ a ∈ occurs_once (key h) l) ∧
    ∃ kept,
      kept = occurs_once (key h) l1
             ++ (if ends_dup (key h) false l1 then option_list (last l1) else []) ∧
      queue h2 head kept ∧ owns h2 kept ∧
      StronglySorted (str_le h) kept ∧
      ∀ a, a ∈ kept → str_at h2 a = str_at h a.
Proof.
  intros Hq Hown Hne Hgc Hfuel.
  destruct (q_sort_queue h pl head l fuel Hq Hfuel)
    as (h1 & l1 & Hrun1 & Hq1 & Hs1 & [Hperm Hstab] & Hpay1).
  assert (∀ a, key h1 a = key h a) as Hkey.
  { intros a. by apply payload_key. }
  assert (StronglySorted (str_le h) l1) as Hs.
  { apply (StronglySorted_ext (str_le h1)); [|done].
    intros a b. unfold str_le, le_by. by rewrite !Hkey. }
  assert (owns h1 l1) as Hown1.
  { apply (owns_perm h1 l); [done|]. by apply (owns_payload h). }
  assert (alloc_gives h1 pl gc) as Hgc1.
  { destruct Hgc as (? & ? & Hfree). split_and!; [done..|].
    pose proof (payload_lookup h1 h gc Hpay1) as E. rewrite Hfree in E.
    by destruct (h1 !! gc). }
  assert (l1 ≠ []) as Hne1.
  { intros ->. by apply Permutation_nil_r in Hperm. }
  destruct (q_delete_dup_spec fuel h1 pl head l1 gc Hq1 Hown1 Hne1 Hgc1)
    as (h2 & Hrun2 & Hq2 & Hown2 & Hstr2 & _).
  { apply Permutation_length in Hperm. lia. }
  rewrite (dedup_walk_ext (key h1) (key h) l1 Hkey) in Hq2, Hown2, Hstr2.
  rewrite (dedup_walk_sorted (key h) l1 Hs) in Hq2, Hown2, Hstr2.
  exists h1, l1, h2. split_and!; [done..| |].
  { intros a. apply occurs_once_perm. by symmetry. }
  eexists. split; [reflexivity|]. split_and!; [done..| |].
  - rewrite <- (dedup_walk_sorted (key h) l1 Hs).
    apply (StronglySorted_sublist _ _ l1); [apply dedup_walk_sublist|done].
  - intros a Ha. rewrite (Hstr2 a Ha). by apply payload_str_at.
Qed.

Lemma q_sort_delete_dup_witness :
  let s := sample [1002; 1000; 1001; 1000; 1002] in
  let l := [32; 48; 64; 80; 96] in
  queue (mem s) 16 l ∧ owns (mem s) l ∧ l ≠ [] ∧
  alloc_gives (mem s) (pool s) 112 ∧ (length l + 1 < 8)%nat ∧
  ∃ h1 l1 h2,
    q_sort 8 16 (State (mem s) (pool s)) = Ok (tt, State h1 (pool s)) ∧
    queue h1 16 l1 ∧ stable_perm (mem s) l l1 ∧
    StronglySorted (str_le (mem s)) l1 ∧
    q_delete_dup 8 16 (State h1 (pool s)) = Ok (true, State h2 (tail (pool s))) ∧
    (∀ a, a ∈ occurs_once (key (mem s)) l1 ↔ a ∈ occurs_once (key (mem s)) l) ∧
    ∃ kept,
      kept = occurs_once (key (mem s)) l1
             ++ (if ends_dup (key (mem s)) false l1
                 then option_list (last l1) else []) ∧
      queue h2 16 kept ∧ owns h2 kept ∧
      StronglySorted (str_le (mem s)) kept ∧
      ∀ a, a ∈ kept → str_at h2 a = str_at (mem s) a.
Proof.
  intros s l. split; [compute_done|]. split; [compute_done|].
  split; [done|]. split; [compute_done|]. split; [simpl; lia|].
  apply (q_sort_delete_dup (mem s) (pool s) 16 l 112 8);
    [compute_done|compute_done|done|compute_done|simpl; lia].
Defined.

(** ** [merge] and [merge_sort] on [NULL]-terminated chains *)

Section chains_sorted.
Implicit Types (h : gmap Z object) (pl l : list Z).

Lemma strings_keys_at h l :
  Forall (λ a, is_Some (str_at h a)) l → keys_at (key h) h l.
Proof.
  rewrite Forall_forall. intros Hs a Ha. destruct (Hs a Ha) as [v Hv].
  unfold key. by rewrite Hv.
Qed.
End chains_sorted.

(** X23. [merge] of two sorted chains of distinct nodes returns the first
    node of one sorted chain that holds the nodes of both: among the nodes
    of equal string those of the first chain come first, and each chain
    keeps its own order.  Only [next] fields of the nodes of the two chains
    change.  Either chain may be empty ([NULL]). *)
Theorem merge_sorted_chains h pl L1 L2 l1 l2 fuel :
  h !! NULL = None → chain h L1 l1 → chain h L2 l2 → NoDup (l1 ++ l2) →
  Forall (λ a, is_Some (str_at h a)) (l1 ++ l2) →
  StronglySorted (str_le h) l1 → StronglySorted (str_le h) l2 →
  (length l1 + length l2 < fuel)%nat →
  ∃ h' first l',
    merge fuel L1 L2 (State h pl) = Ok (first, State h' pl) ∧
    chain h' first l' ∧
    StronglySorted (str_le h) l' ∧ l' ≡ₚ l1 ++ l2 ∧
    (∀ v, filter (λ a, key h a = v) l'
          = filter (λ a, key h a = v) l1 ++ filter (λ a, key h a = v) l2) ∧
    payload h' = payload h ∧
    (∀ z, prv h' z = prv h z) ∧
    (∀ z, z ∉ l1 ++ l2 → nxt h' z = nxt h z).
Proof.
  intros Hnull H1 H2 Hnd Hstr Hs1 Hs2 Hfuel.
  destruct (merge_with_spec (key h) Z.lor pl Z.lor_0_l Z.lor_0_r fuel l1 l2 h
              NULL PtrHead L1 L2)
    as (h' & p & first & Hrun & Hholds & _ & Hchain & Hfn & Hfp & Hpay);
    [done..|by apply strings_keys_at|done|done|].
  simpl in Hholds. subst p.
  exists h', first, (list_merge (le_by (key h)) l1 l2).
  split_and!; [exact Hrun|done| | | |done|done|].
  - apply Sorted_StronglySorted; [apply le_by_trans|].
    apply Sorted_list_merge; [apply le_by_total|by apply StronglySorted_Sorted..].
  - apply merge_Permutation.
  - intros v. by apply list_merge_stable.
  - intros z Hz. by apply Hfn.
Qed.

Lemma merge_sorted_chains_witness :
  let s := sample [1000; 1001; 1002] in
  let h := set_next (set_next (set_next (mem s) 32 64) 64 NULL) 48 NULL in
  h !! NULL = None ∧ chain h 32 [32; 64] ∧ chain h 48 [48] ∧
  NoDup ([32; 64] ++ [48]) ∧
  Forall (λ a, is_Some (str_at h a)) ([32; 64] ++ [48]) ∧
  StronglySorted (str_le h) [32; 64] ∧ StronglySorted (str_le h) [48] ∧
  (2 + 1 < 4)%nat ∧
  ∃ h' first l',
    merge 4 32 48 (State h (pool s)) = Ok (first, State h' (pool s)) ∧
    chain h' first l' ∧
    StronglySorted (str_le h) l' ∧ l' ≡ₚ [32; 64] ++ [48] ∧
    (∀ v, filter (λ a, key h a = v) l'
          = filter (λ a, key h a = v) [32; 64]
            ++ filter (λ a, key h a = v) [48]) ∧
    payload h' = payload h ∧
    (∀ z, prv h' z = prv h z) ∧
    (∀ z, z ∉ [32; 64] ++ [48] → nxt h' z = nxt h z).
Proof.
  intros s h.
  assert (chain h 32 [32; 64]) as H1.
  { repeat (split; [done|]; eexists; split; [by vm_compute|]). done. }
  assert (chain h 48 [48]) as H2.
  { repeat (split; [done|]; eexists; split; [by vm_compute|]). done. }
  split; [by vm_compute|]. split; [exact H1|]. split; [exact H2|].
  split; [compute_done|]. split; [compute_done|]. split; [compute_done|].
  split; [compute_done|]. split; [lia|].
  apply (merge_sorted_chains h (pool s) 32 48 [32; 64] [48] 4);
    [by vm_compute|exact H1|exact H2|compute_done|compute_done|compute_done
    |compute_done|simpl; lia].
Defined.

(** X24. [merge_sort] on a non-empty [NULL]-terminated chain of distinct
    nodes returns the first node of a sorted chain of the same nodes, in
    which the nodes of equal string keep their order; it changes [next]
    fields of these nodes only, the [prev] fields are left to [q_sort].  On
    the empty chain its behaviour is undefined: it reads [head->next]. *)
Theorem merge_sort_chain h pl p l fuel :
  h !! NULL = None → chain h p l → l ≠ [] → NoDup l →
  Forall (λ a, is_Some (str_at h a)) l → (length l + 1 < fuel)%nat →
  merge_sort fuel NULL (State h pl) = Fault ∧
  ∃ h' p' l',
    merge_sort fuel p (State h pl) = Ok (p', State h' pl) ∧
    chain h' p' l' ∧
    StronglySorted (str_le h) l' ∧ stable_perm h l l' ∧
    payload h' = payload h ∧
    (∀ z, prv h' z = prv h z) ∧
    (∀ z, z ∉ l → nxt h' z = nxt h z).
Proof.
  intros Hnull Hchain Hne Hnd Hstr Hfuel. split.
  - destruct fuel as [|fuel]; [lia|]. simpl. apply run_fault.
    unfold load_next, nxt. simpl. by rewrite Hnull.
  - destruct (merge_sort_spec (key h) pl fuel l h p)
      as (h' & p' & l' & Hrun & Hchain' & Hs & Hperm & Hsame & Hfn & Hfp & Hpay);
      [done..|by apply strings_keys_at|done|].
    exists h', p', l'. split_and!; [done..| |by split|done|done|done].
    apply Sorted_StronglySorted; [apply le_by_trans|done].
Qed.

Lemma merge_sort_chain_witness :
  let s := sample [1002; 1000; 1001] in
  let h := set_next (mem s) 64 NULL in
  h !! NULL = None ∧ chain h 32 [32; 48; 64] ∧ [32; 48; 64] ≠ [] ∧
  NoDup [32; 48; 64] ∧
  Forall (λ a, is_Some (str_at h a)) [32; 48; 64] ∧ (3 + 1 < 6)%nat ∧
  merge_sort 6 NULL (State h (pool s)) = Fault ∧
  ∃ h' p' l',
    merge_sort 6 32 (State h (pool s)) = Ok (p', State h' (pool s)) ∧
    chain h' p' l' ∧
    StronglySorted (str_le h) l' ∧ stable_perm h [32; 48; 64] l' ∧
    payload h' = payload h ∧
    (∀ z, prv h' z = prv h z) ∧
    (∀ z, z ∉ [32; 48; 64] → nxt h' z = nxt h z).
Proof.
  intros s h.
  assert (chain h 32 [32; 48; 64]) as Hc.
  { repeat (split; [done|]; eexists; split; [by vm_compute|]). done. }
  split; [by vm_compute|]. split; [exact Hc|]. split; [done|].
  split; [compute_done|]. split; [compute_done|]. split; [lia|].
  apply (merge_sort_chain h (pool s) 32 [32; 48; 64] 6);
    [by vm_compute|exact Hc|done|compute_done|compute_done|simpl; lia].
Defined.

(** ** The general lemmas on [q_delete_mid] and the removals, on sample queues *)

Lemma q_delete_mid_spec_witness :
  let s := sample [1000; 1001; 1002; 1003] in
  let l := [32; 48; 64; 80] in
  queue (mem s) 16 l ∧ l ≠ [] ∧ (length l < 5)%nat ∧
  ∃ pre m rest v h',
    l = pre ++ m :: rest ∧
    (length l - 1 = 2 * length pre ∨ length l - 1 = 2 * length pre + 1)%nat ∧
    val (mem s) m = Some v ∧
    q_delete_mid 5 16 (State (mem s) (pool s)) = Ok (true, State h' (pool s)) ∧
    ring h' 16 (pre ++ rest) ∧
    h' !! m = None ∧ h' !! v = None ∧
    (∀ p, p ≠ m → p ≠ v → erase_link <$> h' !! p = erase_link <$> mem s !! p).
Proof.
  intros s l. split; [compute_done|]. split; [done|]. split; [simpl; lia|].
  apply (q_delete_mid_spec (mem s) (pool s) 16 l 5);
    [compute_done|done|simpl; lia].
Defined.

Lemma q_delete_mid_false_witness :
  let e := final q_new sample_init in
  ring (mem e) 16 [] ∧
  q_delete_mid 1 NULL (State (mem e) (pool e)) = Ok (false, State (mem e) (pool e)) ∧
  q_delete_mid 1 16 (State (mem e) (pool e)) = Ok (false, State (mem e) (pool e)).
Proof.
  intros e. assert (ring (mem e) 16 []) as He by compute_done.
  pose proof (q_delete_mid_false 1 (mem e) (pool e) 16) as [Hnull Hempty].
  split; [exact He|]. split; [exact Hnull|exact (Hempty He)].
Defined.

Lemma q_remove_in_bounds_witness :
  let s := sample [1000; 1001] in
  let h := <[2000 := ObjChars (replicate 8 junk_byte)]> (mem s) in
  let b := list_byte_of_string "a" ++ [x00] in
  let d := replicate 8 junk_byte in
  let copied := take (Z.to_nat (2 - 1)) b ++ x00 :: drop (Z.to_nat 2) d in
  val h 32 = Some 33 ∧ chars h 33 = Some b ∧ nul_index b = Some 1%nat ∧
  chars h 2000 = Some d ∧
  1 ≤ 2 ≤ Z.of_nat (length d) ∧ 2 < SIZE_MODULUS ∧
  2 - 1 ≤ Z.of_nat (length b) ∧
  ring h 16 (32 :: [48]) ∧
  c_str copied = take (Z.to_nat (2 - 1)) (c_str b) ∧
  ∃ h', q_remove_head 16 2000 2 (State h (pool s)) = Ok (32, State h' (pool s)) ∧
        ring h' 16 [48] ∧ chars h' 2000 = Some copied ∧
        payload h' = <[2000 := ObjChars copied]> (payload h).
Proof.
  intros s h b d copied.
  assert (ring h 16 [32; 48]) as Hring by compute_done.
  assert (val h 32 = Some 33) as Hv by (by vm_compute).
  assert (chars h 33 = Some b) as Hb by (by vm_compute).
  assert (chars h 2000 = Some d) as Hd by (by vm_compute).
  assert (nul_index b = Some 1%nat) as Hn by (by vm_compute).
  assert (1 ≤ 2 ≤ Z.of_nat (length d)) as H1 by (simpl; lia).
  assert (2 < SIZE_MODULUS) as H2 by done.
  assert (2 - 1 ≤ Z.of_nat (length b)) as H3 by (simpl; lia).
  split_and!; [done..| |].
  - exact (proj1 (q_remove_in_bounds h (pool s) 16 32 [48] 2000 2 33 b d 1
                    Hv Hb Hn Hd H1 H2 H3)).
  - exact (proj1 (proj2 (q_remove_in_bounds h (pool s) 16 32 [48] 2000 2 33 b d 1
                           Hv Hb Hn Hd H1 H2 H3)) Hring).
Defined.

Lemma q_remove_overread_any_witness :
  let s := sample [1000; 1001] in
  let h := <[2000 := ObjChars (replicate 8 junk_byte)]> (mem s) in
  let b := list_byte_of_string "b" ++ [x00] in
  val h 48 = Some 49 ∧ chars h 49 = Some b ∧ 2000 ≠ NULL ∧
  Z.of_nat (length b) < to_size_t (8 - 1) ∧
  ring h 16 ([32] ++ [48]) ∧
  q_remove_tail 16 2000 8 (State h (pool s)) = Fault.
Proof.
  intros s h b.
  assert (ring h 16 [32; 48]) as Hring by compute_done.
  assert (val h 48 = Some 49) as Hv by (by vm_compute).
  assert (chars h 49 = Some b) as Hb by (by vm_compute).
  assert (Z.of_nat (length b) < to_size_t (8 - 1)) as Hlen by (by vm_compute).
  split_and!; [done..|].
  exact (proj2 (q_remove_overread_any h (pool s) 16 48 [32] 2000 8 49 b
                  Hv Hb ltac:(done) Hlen) Hring).
Defined.

(** ** [q_reverse] and [q_sort] before a removal *)

Section reverse_then.
Implicit Types (h : gmap Z object) (pl l : list Z).

Lemma q_reverse_queue h pl head l fuel :
  ring h head l → (length l < fuel)%nat →
  ∃ h', q_reverse fuel head (State h pl) = Ok (tt, State h' pl) ∧
        ring h' head (reverse l) ∧ payload h' = payload h.
Proof.
  intros Hring Hfuel.
  destruct (q_reverse_ring head pl h l fuel)
    as (h' & Hrun & _ & Hin & _ & Hpay); [done..|].
  exists h'. split_and!; [done| |done].
  destruct Hring as (Hnull & Hnd & HL). split_and!.
  - by eapply payload_null.
  - apply NoDup_cons in Hnd as [? ?]. apply NoDup_cons.
    by rewrite reverse_Permutation.
  - replace (head :: reverse l ++ [head])
      with (reverse (head :: l ++ [head]))
      by (by rewrite reverse_cons, reverse_app).
    eapply linked_rev; [|exact HL]. intros z Hz. apply Hin.
    set_solver +Hz.
Qed.

Lemma StronglySorted_reverse (R : relation Z) l :
  StronglySorted R l → StronglySorted (flip R) (reverse l).
Proof.
  induction 1 as [|x l Hs IH Hall]; [constructor|].
  rewrite reverse_cons. apply StronglySorted_app_2; [|done|].
  - rewrite Forall_forall in Hall.
    intros a b Ha Hb. rewrite elem_of_reverse in Ha.
    apply list_elem_of_singleton in Hb as ->. unfold flip. by apply Hall.
  - repeat constructor.
Qed.

Lemma snoc_removelast (l : list Z) :
  l ≠ [] → ∃ m, last l = Some m ∧ l = removelast l ++ [m].
Proof.
  intros Hne. destruct l as [|e l]; [done|].
  exists (default e (last l)). split; [|apply cons_removelast].
  rewrite last_cons. by destruct (last l).
Qed.
End reverse_then.

(** X25. [q_reverse] exchanges the two ends of the queue: after it,
    [q_remove_head] returns the element that was last, and [q_remove_tail]
    the one that was first; the other elements stay, in reverse order, and
    every string is as it was. *)
Theorem q_reverse_remove h pl head l e fuel bufsize :
  (queue h head (l ++ [e]) → (length (l ++ [e]) < fuel)%nat →
   ∃ h1 h2,
     q_reverse fuel head (State h pl) = Ok (tt, State h1 pl) ∧
     q_remove_head head NULL bufsize (State h1 pl) = Ok (e, State h2 pl) ∧
     ring h2 head (reverse l) ∧ payload h2 = payload h) ∧
  (queue h head (e :: l) → (length (e :: l) < fuel)%nat →
   ∃ h1 h2,
     q_reverse fuel head (State h pl) = Ok (tt, State h1 pl) ∧
     q_remove_tail head NULL bufsize (State h1 pl) = Ok (e, State h2 pl) ∧
     ring h2 head (reverse l) ∧ payload h2 = payload h).
Proof.
  split; intros [Hring _] Hfuel.
  - destruct (q_reverse_queue h pl head _ fuel Hring Hfuel)
      as (h1 & Hrun1 & Hring1 & Hpay1).
    rewrite reverse_snoc in Hring1.
    destruct (proj1 (q_remove_no_copy h1 pl head e (reverse l) bufsize) Hring1)
      as (h2 & Hrun2 & Hring2 & Hpay2).
    exists h1, h2. split_and!; [done..|congruence].
  - destruct (q_reverse_queue h pl head _ fuel Hring Hfuel)
      as (h1 & Hrun1 & Hring1 & Hpay1).
    rewrite reverse_cons in Hring1.
    destruct (proj2 (q_remove_no_copy h1 pl head e (reverse l) bufsize) Hring1)
      as (h2 & Hrun2 & Hring2 & Hpay2).
    exists h1, h2. split_and!; [done..|congruence].
Qed.

Lemma q_reverse_remove_witness :
  let s := sample [1000; 1001; 1002] in
  (queue (mem s) 16 ([32; 48] ++ [64]) ∧ (length ([32; 48] ++ [64]) < 4)%nat ∧
   ∃ h1 h2,
     q_reverse 4 16 (State (mem s) (pool s)) = Ok (tt, State h1 (pool s)) ∧
     q_remove_head 16 NULL 0 (State h1 (pool s)) = Ok (64, State h2 (pool s)) ∧
     ring h2 16 (reverse [32; 48]) ∧ payload h2 = payload (mem s)) ∧
  (queue (mem s) 16 (32 :: [48; 64]) ∧ (length (32 :: [48; 64]) < 4)%nat ∧
   ∃ h1 h2,
     q_reverse 4 16 (State (mem s) (pool s)) = Ok (tt, State h1 (pool s)) ∧
     q_remove_tail 16 NULL 0 (State h1 (pool s)) = Ok (32, State h2 (pool s)) ∧
     ring h2 16 (reverse [48; 64]) ∧ payload h2 = payload (mem s)).
Proof.
  intros s.
  assert (queue (mem s) 16 [32; 48; 64]) as Hq by compute_done.
  assert (3 < 4)%nat as Hfuel by lia.
  split; (split; [exact Hq|]; split; [exact Hfuel|]).
  - exact (proj1 (q_reverse_remove (mem s) (pool s) 16 [32; 48] 64 4 0) Hq Hfuel).
  - exact (proj2 (q_reverse_remove (mem s) (pool s) 16 [48; 64] 32 4 0) Hq Hfuel).
Defined.

(** X26. After [q_sort] the two ends of the queue hold the extremes:
    [q_remove_head] returns an element whose string is at most the string of
    every element of the queue, and [q_remove_tail] one whose string is at
    least every string; the other elements stay, sorted. *)
Theorem q_sort_remove_extreme h pl head l fuel bufsize :
  queue h head l → l ≠ [] → (length l + 1 < fuel)%nat →
  ∃ h1, q_sort fuel head (State h pl) = Ok (tt, State h1 pl) ∧
    (∃ h2 m rest,
       q_remove_head head NULL bufsize (State h1 pl) = Ok (m, State h2 pl) ∧
       l ≡ₚ m :: rest ∧ (∀ a, a ∈ l → str_le h m a) ∧
       ring h2 head rest ∧ StronglySorted (str_le h) rest ∧
       payload h2 = payload h) ∧
    (∃ h2 m rest,
       q_remove_tail head NULL bufsize (State h1 pl) = Ok (m, State h2 pl) ∧
       l ≡ₚ rest ++ [m] ∧ (∀ a, a ∈ l → str_le h a m) ∧
       ring h2 head rest ∧ StronglySorted (str_le h) rest ∧
       payload h2 = payload h).
Proof.
  intros Hq Hne Hfuel.
  destruct (q_sort_queue h pl head l fuel Hq Hfuel)
    as (h1 & l1 & Hrun1 & [Hring1 _] & Hs1 & [Hperm _] & Hpay1).
  assert (StronglySorted (str_le h) l1) as Hs.
  { apply (StronglySorted_ext (str_le h1)); [|done].
    intros a b. unfold str_le, le_by. by rewrite !(payload_key h1 h). }
  assert (l1 ≠ []) as Hne1.
  { intros ->. by apply Permutation_nil_r in Hperm. }
  exists h1. split_and!; [done| |].
  - destruct l1 as [|m rest]; [done|].
    destruct (proj1 (q_remove_no_copy h1 pl head m rest bufsize) Hring1)
      as (h2 & Hrun2 & Hring2 & Hpay2).
    apply StronglySorted_cons in Hs as [Hall Hs]. rewrite Forall_forall in Hall.
    exists h2, m, rest. split_and!; [done..| |done|done|congruence].
    intros a Ha. rewrite Hperm in Ha.
    apply elem_of_cons in Ha as [->|Ha]; [apply lex_leb_refl|by apply Hall].
  - destruct (snoc_removelast l1 Hne1) as (m & _ & E).
    rewrite E in Hring1, Hs, Hperm.
    destruct (proj2 (q_remove_no_copy h1 pl head m (removelast l1) bufsize) Hring1)
      as (h2 & Hrun2 & Hring2 & Hpay2).
    exists h2, m, (removelast l1). split_and!; [done..| |done| |congruence].
    + intros a Ha. rewrite Hperm in Ha.
      apply elem_of_app in Ha as [Ha| ->%list_elem_of_singleton];
        [|apply lex_leb_refl].
      apply (StronglySorted_app_1_elem_of _ _ _ _ _ Hs Ha). set_solver +.
    + by apply StronglySorted_app_1_l in Hs.
Qed.

Lemma q_sort_remove_extreme_witness :
  let s := sample [1002; 1000; 1001] in
  let l := [32; 48; 64] in
  queue (mem s) 16 l ∧ l ≠ [] ∧ (length l + 1 < 6)%nat ∧
  ∃ h1, q_sort 6 16 (State (mem s) (pool s)) = Ok (tt, State h1 (pool s)) ∧
    (∃ h2 m rest,
       q_remove_head 16 NULL 0 (State h1 (pool s)) = Ok (m, State h2 (pool s)) ∧
       l ≡ₚ m :: rest ∧ (∀ a, a ∈ l → str_le (mem s) m a) ∧
       ring h2 16 rest ∧ StronglySorted (str_le (mem s)) rest ∧
       payload h2 = payload (mem s)) ∧
    (∃ h2 m rest,
       q_remove_tail 16 NULL 0 (State h1 (pool s)) = Ok (m, State h2 (pool s)) ∧
       l ≡ₚ rest ++ [m] ∧ (∀ a, a ∈ l → str_le (mem s) a m) ∧
       ring h2 16 rest ∧ StronglySorted (str_le (mem s)) rest ∧
       payload h2 = payload (mem s)).
Proof.
  intros s l. split; [compute_done|]. split; [done|]. split; [simpl; lia|].
  apply (q_sort_remove_extreme (mem s) (pool s) 16 l 6 0);
    [compute_done|done|simpl; lia].
Defined.

(** X27. [q_sort] followed by [q_reverse] sorts the queue in descending
    order: the same elements, holding the strings they held, each at least
    every later one. *)
Theorem q_sort_reverse_descending h pl head l fuel :
  queue h head l → (length l + 1 < fuel)%nat →
  ∃ h1 h2 l2,
    q_sort fuel head (State h pl) = Ok (tt, State h1 pl) ∧
    q_reverse fuel head (State h1 pl) = Ok (tt, State h2 pl) ∧
    queue h2 head l2 ∧ l ≡ₚ l2 ∧
    StronglySorted (flip (str_le h)) l2 ∧ payload h2 = payload h.
Proof.
  intros Hq Hfuel.
  destruct (q_sort_queue h pl head l fuel Hq Hfuel)
    as (h1 & l1 & Hrun1 & [Hring1 Hstr1] & Hs1 & [Hperm _] & Hpay1).
  destruct (q_reverse_queue h1 pl head l1 fuel Hring1)
    as (h2 & Hrun2 & Hring2 & Hpay2).
  { apply Permutation_length in Hperm. lia. }
  exists h1, h2, (reverse l1). split_and!; [done..| | | |congruence].
  - apply (queue_payload h h2 head l); [congruence| |done..].
    by rewrite reverse_Permutation.
  - by rewrite reverse_Permutation.
  - apply StronglySorted_reverse.
    apply (StronglySorted_ext (str_le h1)); [|done].
    intros a b. unfold str_le, le_by. by rewrite !(payload_key h1 h).
Qed.

Lemma q_sort_reverse_descending_witness :
  let s := sample [1002; 1000; 1001] in
  queue (mem s) 16 [32; 48; 64] ∧ (3 + 1 < 6)%nat ∧
  ∃ h1 h2 l2,
    q_sort 6 16 (State (mem s) (pool s)) = Ok (tt, State h1 (pool s)) ∧
    q_reverse 6 16 (State h1 (pool s)) = Ok (tt, State h2 (pool s)) ∧
    queue h2 16 l2 ∧ [32; 48; 64] ≡ₚ l2 ∧
    StronglySorted (flip (str_le (mem s))) l2 ∧ payload h2 = payload (mem s).
Proof.
  intros s. split; [compute_done|]. split; [lia|].
  apply (q_sort_reverse_descending (mem s) (pool s) 16 [32; 48; 64] 6);
    [compute_done|simpl; lia].
Defined.

(** ** What [q_swap] can reach *)

Section footprint.
Context (S : list Z).
Implicit Types (s : state) (h : gmap Z object).

Lemma confined_refl s : confined S s s.
Proof. by split. Qed.

Lemma confined_trans s1 s2 s3 :
  confined S s1 s2 → confined S s2 s3 → confined S s1 s3.
Proof.
  intros [Hp1 Hm1] [Hp2 Hm2]. split; [congruence|].
  intros z Hz. by rewrite Hm2, Hm1.
Qed.

Lemma load_next_in s p v s' :
  closed_links S (mem s) → p ∈ S → load_next p s = Ok (v, s') →
  s' = s ∧ v ∈ S.
Proof.
  intros Hc Hp. unfold load_next.
  destruct (nxt (mem s) p) as [w|] eqn:E; [|done]. intros [= -> ->].
  split; [done|]. apply (Hc p v Hp). by left.
Qed.

Lemma load_prev_in s p v s' :
  closed_links S (mem s) → p ∈ S → load_prev p s = Ok (v, s') →
  s' = s ∧ v ∈ S.
Proof.
  intros Hc Hp. unfold load_prev.
  destruct (prv (mem s) p) as [w|] eqn:E; [|done]. intros [= -> ->].
  split; [done|]. apply (Hc p v Hp). by right.
Qed.

Lemma store_next_in s p v u s' :
  closed_links S (mem s) → p ∈ S → v ∈ S → store_next p v s = Ok (u, s') →
  closed_links S (mem s') ∧ confined S s s'.
Proof.
  intros Hc Hp Hv. unfold store_next.
  destruct (nxt (mem s) p) as [w|] eqn:E; [|done]. intros [= _ <-]. simpl.
  split; [|split; [done|]].
  - intros z x Hz. rewrite nxt_set_next, prv_set_next.
    case_decide; [subst z; rewrite E|]; intros [Hn|Hq]; simplify_eq/=;
      first [done|eapply Hc; eauto].
  - intros z Hz. simpl. unfold set_next. rewrite lookup_alter_ne; [done|].
    by intros ->.
Qed.

Lemma store_prev_in s p v u s' :
  closed_links S (mem s) → p ∈ S → v ∈ S → store_prev p v s = Ok (u, s') →
  closed_links S (mem s') ∧ confined S s s'.
Proof.
  intros Hc Hp Hv. unfold store_prev.
  destruct (prv (mem s) p) as [w|] eqn:E; [|done]. intros [= _ <-]. simpl.
  split; [|split; [done|]].
  - intros z x Hz. rewrite nxt_set_prev, prv_set_prev.
    case_decide; [subst z; rewrite E|]; intros [Hn|Hq]; simplify_eq/=;
      first [done|eapply Hc; eauto].
  - intros z Hz. simpl. unfold set_prev. rewrite lookup_alter_ne; [done|].
    by intros ->.
Qed.

Lemma list_del_in s node u s' :
  closed_links S (mem s) → node ∈ S → list_del node s = Ok (u, s') →
  closed_links S (mem s') ∧ confined S s s'.
Proof.
  intros Hc Hn H. unfold list_del in H.
  apply run_bind_inv in H as (next & s1 & H1 & H).
  apply (load_next_in _ _ _ _ Hc Hn) in H1 as [-> Hnext].
  apply run_bind_inv in H as (prev & s2 & H2 & H).
  apply (load_prev_in _ _ _ _ Hc Hn) in H2 as [-> Hprev].
  apply run_bind_inv in H as (? & s3 & H3 & H).
  apply (store_prev_in _ _ _ _ _ Hc Hnext Hprev) in H3 as [Hc3 Hk3].
  apply (store_next_in _ _ _ _ _ Hc3 Hprev Hnext) in H as [Hc4 Hk4].
  split; [done|]. by apply (confined_trans _ s3).
Qed.

Lemma list_add_in s node head u s' :
  closed_links S (mem s) → node ∈ S → head ∈ S →
  list_add node head s = Ok (u, s') →
  closed_links S (mem s') ∧ confined S s s'.
Proof.
  intros Hc Hn Hh H. unfold list_add in H.
  apply run_bind_inv in H as (next & s1 & H1 & H).
  apply (load_next_in _ _ _ _ Hc Hh) in H1 as [-> Hnext].
  apply run_bind_inv in H as (? & s2 & H2 & H).
  apply (store_prev_in _ _ _ _ _ Hc Hnext Hn) in H2 as [Hc2 Hk2].
  apply run_bind_inv in H as (? & s3 & H3 & H).
  apply (store_next_in _ _ _ _ _ Hc2 Hn Hnext) in H3 as [Hc3 Hk3].
  apply run_bind_inv in H as (? & s4 & H4 & H).
  apply (store_prev_in _ _ _ _ _ Hc3 Hn Hh) in H4 as [Hc4 Hk4].
  apply (store_next_in _ _ _ _ _ Hc4 Hh Hn) in H as [Hc5 Hk5].
  split; [done|].
  apply (confined_trans _ s2); [done|]. apply (confined_trans _ s3); [done|].
  by apply (confined_trans _ s4).
Qed.

Lemma list_move_in s node head u s' :
  closed_links S (mem s) → node ∈ S → head ∈ S →
  list_move node head s = Ok (u, s') →
  closed_links S (mem s') ∧ confined S s s'.
Proof.
  intros Hc Hn Hh H. unfold list_move in H.
  apply run_bind_inv in H as (? & s1 & H1 & H).
  apply (list_del_in _ _ _ _ Hc Hn) in H1 as [Hc1 Hk1].
  apply (list_add_in _ _ _ _ _ Hc1 Hn Hh) in H as [Hc2 Hk2].
  split; [done|]. by apply (confined_trans _ s1).
Qed.

Lemma q_swap_loop_in head : ∀ fuel owner s u s',
  closed_links S (mem s) → owner ∈ S →
  q_swap_loop fuel head owner s = Ok (u, s') →
  closed_links S (mem s') ∧ confined S s s'.
Proof.
  induction fuel as [|fuel IH]; intros owner s u s' Hc Ho H; [done|].
  cbn [q_swap_loop] in H.
  apply run_bind_inv in H as (cur & s1 & H1 & H).
  apply (load_next_in _ _ _ _ Hc Ho) in H1 as [-> Hcur].
  destruct (cur =? head).
  { injection H as _ <-. split; [done|apply confined_refl]. }
  apply run_bind_inv in H as (cur_next & s2 & H2 & H).
  apply (load_next_in _ _ _ _ Hc Hcur) in H2 as [-> Hcn].
  destruct (cur_next =? head).
  { injection H as _ <-. split; [done|apply confined_refl]. }
  apply run_bind_inv in H as (? & s3 & H3 & H).
  apply (list_move_in _ _ _ _ _ Hc Hcur Hcn) in H3 as [Hc3 Hk3].
  apply run_bind_inv in H as (cur' & s4 & H4 & H).
  apply (load_next_in _ _ _ _ Hc3 Ho) in H4 as [-> Hcur'].
  apply run_bind_inv in H as (owner' & s5 & H5 & H).
  apply (load_next_in _ _ _ _ Hc3 Hcur') in H5 as [-> Ho'].
  apply (IH _ _ _ _ Hc3 Ho') in H as [Hc' Hk'].
  split; [done|]. by apply (confined_trans _ s3).
Qed.
End footprint.

Section swap_identity.
Implicit Types (h : gmap Z object) (pl l : list Z).

Lemma ring_closed h head l : ring h head l → closed_links (head :: l) h.
Proof.
  intros Hring z w Hz [Hn|Hp].
  - destruct (ring_next_of h head l z Hring Hz) as (A & y & B & E).
    pose proof Hring as (_ & _ & HL). rewrite E in HL.
    apply linked_mid in HL as [Hy _].
    assert (w = y) as -> by congruence.
    assert (y ∈ head :: l ++ [head]) as Hin by (rewrite E; set_solver +).
    set_solver +Hin.
  - destruct (ring_prev_of h head l z Hring Hz) as (A & y & B & E).
    pose proof Hring as (_ & _ & HL). rewrite E in HL.
    apply linked_mid in HL as [_ Hy].
    assert (w = y) as -> by congruence.
    assert (y ∈ head :: l ++ [head]) as Hin by (rewrite E; set_solver +).
    set_solver +Hin.
Qed.

(** [q_swap] changes no object outside the ring. *)
Lemma q_swap_confined h pl head l fuel h' pl' :
  ring h head l →
  q_swap fuel head (State h pl) = Ok (tt, State h' pl') →
  ∀ z, z ∉ head :: l → h' !! z = h !! z.
Proof.
  intros Hring H. pose proof (ring_closed h head l Hring) as Hc.
  unfold q_swap in H. destruct (head =? NULL); [by injection H as <- <-|].
  apply run_bind_inv in H as (empty & s1 & H1 & H).
  unfold list_empty in H1.
  apply run_bind_inv in H1 as (first & s0 & H0 & H1).
  apply (load_next_in (head :: l) (State h pl)) in H0 as [-> _];
    [|done|set_solver +].
  injection H1 as <- <-.
  destruct (first =? head); [by injection H as <- <-|].
  apply (q_swap_loop_in (head :: l)) in H as [_ [_ Hout]]; [done..|set_solver +].
Qed.
End swap_identity.

(** X20. [q_swap] is its own inverse: a second [q_swap] restores the heap
    that the first one found, exactly.  It changes no object outside the
    queue, and changes link fields only. *)
Theorem q_swap_twice h pl head l fuel :
  ring h head l → (length l < fuel)%nat →
  ∃ h1,
    q_swap fuel head (State h pl) = Ok (tt, State h1 pl) ∧
    ring h1 head (swap_pairs l) ∧ payload h1 = payload h ∧
    (∀ z, z ∉ head :: l → h1 !! z = h !! z) ∧
    q_swap fuel head (State h1 pl) = Ok (tt, State h pl).
Proof.
  intros Hring Hfuel.
  destruct (q_swap_ring h pl head l fuel Hring Hfuel)
    as (h1 & Hrun1 & Hring1 & Hpay1).
  destruct (q_swap_ring h1 pl head (swap_pairs l) fuel Hring1)
    as (h2 & Hrun2 & Hring2 & Hpay2).
  { by rewrite swap_pairs_perm. }
  rewrite swap_pairs_involutive in Hring2.
  pose proof (q_swap_confined h pl head l fuel h1 pl Hring Hrun1) as Hout1.
  pose proof (q_swap_confined h1 pl head _ fuel h2 pl Hring1 Hrun2) as Hout2.
  exists h1. split_and!; [done..|].
  assert (h2 = h) as E; [|by rewrite <- E].
  apply (ring_heap_eq h h2 head l); [done|done|congruence|].
  intros z Hz. unfold nxt, prv. rewrite Hout2, Hout1; [done|done|].
  by rewrite swap_pairs_perm.
Qed.

Lemma q_swap_twice_witness :
  let s := sample [1000; 1001; 1002] in
  ring (mem s) 16 [32; 48; 64] ∧ (3 < 4)%nat ∧
  ∃ h1,
    q_swap 4 16 (State (mem s) (pool s)) = Ok (tt, State h1 (pool s)) ∧
    ring h1 16 (swap_pairs [32; 48; 64]) ∧ payload h1 = payload (mem s) ∧
    (∀ z, z ∉ 16 :: [32; 48; 64] → h1 !! z = mem s !! z) ∧
    q_swap 4 16 (State h1 (pool s)) = Ok (tt, State (mem s) (pool s)).
Proof.
  intros s. split; [compute_done|]. split; [lia|].
  apply (q_swap_twice (mem s) (pool s) 16 [32; 48; 64] 4);
    [compute_done|simpl; lia].
Defined.
